(** * Abstract-value utilities of the type inferencer: a shallow embedding

    The development follows [pytype/abstract_utils.py] and
    [pytype/class_mixin.py].  Python objects are represented by their
    identities (natural numbers), dictionaries whose iteration order is
    observable by association lists with Python's insertion semantics,
    sets of attribute names by [gset string], exceptions by a sum type. *)

From stdpp Require Import base option list gmap strings.
From Stdlib Require Import Lia.

(** The identity of an abstract value (a Python object). *)
Definition ObjId := nat.

(** ** Exceptions *)

(** The exceptions that the modelled functions raise or catch. *)
Inductive exn : Type :=
  | TooComplexError
  | GenericTypeError (annot : ObjId) (error : string)
  | MROError
  | ValueError
  | KeyError
  | AttributeError.

(** A computation that either raises or returns. *)
Definition result (A : Type) : Type := exn + A.

#[global] Instance result_ret : MRet result := λ A a, inr a.
#[global] Instance result_bind : MBind result := λ A B k m,
  match m with inl e => inl e | inr a => k a end.
#[global] Instance result_fmap : FMap result := λ A B f m,
  match m with inl e => inl e | inr a => inr (f a) end.
Definition raise {A} (e : exn) : result A := inl e.

(** ** Python dictionaries with observable order *)

Module Dict.
Section dict.
Context {K V : Type} `{EqDecision K}.

(** [d[k] = v]: an existing key keeps its position, a new key goes last. *)
Fixpoint set (k : K) (v : V) (d : list (K * V)) : list (K * V) :=
  match d with
  | [] => [(k, v)]
  | (k', v') :: r => if decide (k = k') then (k, v) :: r else (k', v') :: set k v r
  end.

Fixpoint get (k : K) (d : list (K * V)) : option V :=
  match d with
  | [] => None
  | (k', v') :: r => if decide (k = k') then Some v' else get k r
  end.

Definition keys (d : list (K * V)) : list K := d.*1.
Definition values (d : list (K * V)) : list V := d.*2.
End dict.
End Dict.

(** ** The value graph: nodes, bindings, variables *)

Module Cfg.

Definition VarId := nat.
Definition NodeId := nat.

Section graph.
Context {Data : Type}.

(** What [Variable.AddBinding(data, source_set, where)] records. *)
Record Origin : Type := mkOrigin {
  o_data : Data;
  o_source_set : list (VarId * nat);
  o_where : NodeId
}.

(** A Binding is the [index]-th entry of its [variable]; the pair is the
    identity of the Python object. *)
Record Binding : Type := mkBinding {
  variable : VarId;
  index : nat;
  origin : Origin
}.

Definition data (b : Binding) : Data := o_data (origin b).

(** The mutable part of the program: every Variable's ordered, append-only
    list of bindings, and the diagnostics reported so far. *)
Record Program : Type := mkProgram {
  var_bindings : gmap VarId (list Origin);
  errorlog : list string
}.

(** [var.bindings] *)
Definition bindings (p : Program) (var : VarId) : list Binding :=
  imap (mkBinding var) (var_bindings p !!! var).

(** Modelled from the spec: [Variable.AddBinding(value, sources, node)] of
    the value-graph substrate, which is not part of these sources.  The
    bindings of a variable are an append-only ordered collection, so the
    new Binding goes last and the Binding is returned. *)
Definition AddBinding (var : VarId) (d : Data) (source_set : list (VarId * nat))
    (where_ : NodeId) (p : Program) : Binding * Program :=
  let old := var_bindings p !!! var in
  let o := mkOrigin d source_set where_ in
  (mkBinding var (length old) o,
   mkProgram (<[var := old ++ [o]]> (var_bindings p)) (errorlog p)).

(** The part of a CFG node that view enumeration consults:
    [node.program.default_data] and the reachability oracle
    [node.CanHaveCombination]. *)
Record Node : Type := mkNode {
  node_id : NodeId;
  default_data : Data;
  CanHaveCombination : list Binding → bool
}.

(** The Cartesian product of a list of lists, first component slowest. *)
Fixpoint product {A} (ls : list (list A)) : list (list A) :=
  match ls with
  | [] => [[]]
  | l :: rest => x ← l; (x ::.) <$> product rest
  end.

(** Modelled from the spec: [cfg_utils.deep_variable_product], which is not
    part of these sources.  It is the Cartesian product of each Variable's
    bindings, and raises [TooComplexError] when that product is larger than
    the complexity cap, an external tuning parameter. *)
Definition deep_variable_product (limit : nat) (p : Program)
    (variables : list VarId) : result (list (list Binding)) :=
  let combinations := product (bindings p <$> variables) in
  if decide (length combinations ≤ limit) then mret combinations
  else raise TooComplexError.
End graph.

Arguments Origin : clear implicits.
Arguments Binding : clear implicits.
Arguments Program : clear implicits.
Arguments Node : clear implicits.

End Cfg.

(** ** View enumeration *)

Module Views.
Import Cfg.

Section views.
Context {Data : Type} `{EqDecision Data}.

#[global] Instance Origin_eq_dec : EqDecision (Origin Data).
Proof. solve_decision. Defined.
#[global] Instance Binding_eq_dec : EqDecision (Binding Data).
Proof. solve_decision. Defined.

(** A view maps variables to bindings: [{value.variable: value}]. *)
Definition View : Type := list (VarId * Binding Data).

(** [{value.variable: value for value in combination}] *)
Definition view_of (combination : list (Binding Data)) : View :=
  foldl (λ d value, Dict.set (variable value) value d) [] combination.

(** [subset <= view.items()] on dictionary item views: inclusion of the
    sets of (key, value) pairs. *)
Definition items_le (subset view : View) : bool :=
  forallb (λ kv, bool_decide (kv ∈ view)) subset.

(** What the consumer did with a yielded view before resuming the
    generator: the keys it looked up, and the value it sends back. *)
Record Response : Type := mkResponse {
  reads : list VarId;
  skip_future : bool
}.

(** Modelled from the spec: [datatypes.AccessTrackingDict], which is not
    part of these sources.  The accessed subset of a view is the view
    restricted to the keys that the consumer actually read. *)
Definition accessed_subset (view : View) (rs : list VarId) : View :=
  filter (λ kv, kv.1 ∈ rs) view.

Section loop.
Context {S : Type}.
Variable node : Node Data.
(** The consumer: at each [yield] it receives the view and answers. *)
Variable consumer : S → View → S * Response.

(** The [for combination in combinations] loop of [get_views]; the
    result is the sequence of views yielded to the consumer. *)
Fixpoint views_loop (seen : list View) (s : S)
    (combinations : list (list (Binding Data))) : list View :=
  match combinations with
  | [] => []
  | combination :: rest =>
      let view := view_of combination in
      if existsb (λ subset, items_le subset view) seen then
        views_loop seen s rest
      else
        let combination := Dict.values view in
        if negb (CanHaveCombination node combination) then
          views_loop seen s rest
        else
          let '(s', r) := consumer s view in
          view :: views_loop
                    (if skip_future r then seen ++ [accessed_subset view (reads r)]
                     else seen) s' rest
  end.

(** What the [except] branch passes to [AddBinding]. *)
Definition default_origin : Origin Data :=
  mkOrigin (default_data node) [] (node_id node).

(** The generator expression of the [except] branch, once consumed:
    [var.AddBinding(node.program.default_data, [], node) for var in variables]. *)
Fixpoint fallback_combination (variables : list VarId) (p : Program Data)
    : list (Binding Data) * Program Data :=
  match variables with
  | [] => ([], p)
  | var :: rest =>
      let '(b, p') := AddBinding var (default_data node) [] (node_id node) p in
      let '(bs, p'') := fallback_combination rest p' in
      (b :: bs, p'')
  end.

(** The [try]/[except] at the head of [get_views]: the combinations to
    iterate over, and the program once they have been consumed.  Only
    [TooComplexError] is caught. *)
Definition combinations_of (limit : nat) (variables : list VarId)
    (p : Program Data) : result (list (list (Binding Data)) * Program Data) :=
  match deep_variable_product limit p variables with
  | inr combinations => mret (combinations, p)
  | inl TooComplexError =>
      let '(c, p') := fallback_combination variables p in mret ([c], p')
  | inl e => raise e
  end.

(** [get_views(variables, node)], driven to exhaustion by [consumer]:
    the views yielded, and the program afterwards. *)
Definition get_views (limit : nat) (variables : list VarId) (s : S)
    (p : Program Data) : result (list View * Program Data) :=
  '(combinations, p') ← combinations_of limit variables p;
  mret (views_loop [] s combinations, p').

(** The combinations that pass [node.CanHaveCombination]. *)
Definition surviving (combinations : list (list (Binding Data)))
    : list (list (Binding Data)) :=
  filter (λ c, CanHaveCombination node (Dict.values (view_of c)) = true)
         combinations.

(** The distinct bindings that the views of the surviving combinations
    give to the variable [X]. *)
Definition surviving_bindings (X : VarId)
    (combinations : list (list (Binding Data))) : list (Binding Data) :=
  remove_dups (omap (λ c, Dict.get X (view_of c)) (surviving combinations)).

(** The bindings of the variable [X] that survive the node's combination
    check: the bindings [b] of [X] such that some combination of bindings
    of [variables] whose view gives [b] to [X] passes
    [node.CanHaveCombination]. *)
Definition reachable_bindings (X : VarId) (variables : list VarId)
    (p : Program Data) : list (Binding Data) :=
  filter (λ b,
            existsb (λ c,
                       bool_decide (Dict.get X (view_of c) = Some b)
                       && CanHaveCombination node (Dict.values (view_of c)))
                    (product (bindings p <$> variables)) = true)
         (bindings p X).
End loop.
End views.

Arguments View : clear implicits.

End Views.

(** ** Applying mutations *)

Module Mutations.

(** A CFG node as [apply_mutations] sees it: its identity, its [name], and
    the nodes it was connected from. *)
Record CFGNode : Type := mkCFGNode {
  id : nat;
  name : string;
  incoming : list nat
}.

#[global] Instance CFGNode_eq_dec : EqDecision CFGNode.
Proof. solve_decision. Defined.

(** One item of the sequence that [get_mutations()] yields. *)
Record Mutation : Type := mkMutation {
  m_obj : ObjId;
  m_name : string;
  m_value : nat
}.

(** A call [obj.merge_instance_type_parameter(node, name, value)]. *)
Record MergeCall : Type := mkMergeCall {
  c_obj : ObjId;
  c_node : CFGNode;
  c_name : string;
  c_value : nat
}.

(** The state that [apply_mutations] acts on: the nodes of the CFG, in the
    order of their creation, and the merges made so far. *)
Record State : Type := mkState {
  cfg_nodes : list CFGNode;
  merges : list MergeCall
}.

(** In a CFG built by [ConnectNew] the identity of a node is its position. *)
Definition cfg_wf (st : State) : Prop :=
  ∀ i node, cfg_nodes st !! i = Some node → id node = i.

(** Modelled from the spec: [Node.ConnectNew(label)] of the value-graph
    substrate, which is not part of these sources.  It creates a new Node,
    connected from the receiver, and returns it. *)
Definition ConnectNew (node : CFGNode) (label : string) (st : State)
    : CFGNode * State :=
  let new := mkCFGNode (length (cfg_nodes st)) label [id node] in
  (new, mkState (cfg_nodes st ++ [new]) (merges st)).

(** [obj.merge_instance_type_parameter(node, name, value)] is a method of
    the value classes, which are not part of these sources; the call is
    recorded with the node that it is given. *)
Definition merge_instance_type_parameter (obj : ObjId) (node : CFGNode)
    (name : string) (value : nat) (st : State) : State :=
  mkState (cfg_nodes st) (merges st ++ [mkMergeCall obj node name value]).

(** The [for obj, name, value in get_mutations()] loop. *)
Fixpoint apply_loop (mutations : list Mutation) (node : CFGNode)
    (num_mutations : nat) (st : State) : CFGNode * nat * State :=
  match mutations with
  | [] => (node, num_mutations, st)
  | mkMutation obj name_ value :: rest =>
      let '(node, st) :=
        if num_mutations =? 0 then ConnectNew node (name node) st
        else (node, st) in
      let num_mutations := num_mutations + 1 in
      let st := merge_instance_type_parameter obj node name_ value st in
      apply_loop rest node num_mutations st
  end.

(** [apply_mutations(node, get_mutations)], where [mutations] is the
    sequence that [get_mutations()] yields. *)
Definition apply_mutations (node : CFGNode) (mutations : list Mutation)
    (st : State) : CFGNode * State :=
  let '(node, _, st) := apply_loop mutations node 0 st in
  (node, st).

(** The calls that a batch makes when all of it is applied at [node]. *)
Definition merges_at (node : CFGNode) (mutations : list Mutation)
    : list MergeCall :=
  (λ m, mkMergeCall (m_obj m) node (m_name m) (m_value m)) <$> mutations.

(** A CFG with a root node and one successor, and a batch of two mutations. *)
Definition root : CFGNode := mkCFGNode 0 "root" [].
Definition body : CFGNode := mkCFGNode 1 "body" [0].
Definition two_nodes : State := mkState [root; body] [].
Definition two_mutations : list Mutation :=
  [mkMutation 5 "T" 40; mkMutation 6 "K" 41].

End Mutations.

(** ** Abstract values: classes, type parameters *)

Module Abstract.

(** The kinds of values that the [isinstance_*] tests distinguish. *)
Inductive Kind : Type :=
  | PyTDClass
  | InterpreterClass
  | ParameterizedClass
  | Unsolvable
  | Instance.

#[global] Instance Kind_eq_dec : EqDecision Kind.
Proof. solve_decision. Defined.

(** A type parameter; two of them are equal when their fields are. *)
Record TypeParameter : Type := mkTypeParameter {
  tp_name : string;
  tp_bound : option ObjId;
  tp_module : option string
}.

#[global] Instance TypeParameter_eq_dec : EqDecision TypeParameter.
Proof. solve_decision. Defined.

(** [param.with_module(module)] *)
Definition with_module (t : TypeParameter) (module : string) : TypeParameter :=
  mkTypeParameter (tp_name t) (tp_bound t) (Some module).

(** A value bound to a formal type parameter: a bare type parameter or
    any other value. *)
Inductive Param : Type :=
  | TypeParam (t : TypeParameter)
  | Concrete (o : ObjId).

(** The attributes of the values, as the modelled functions read them. *)
Record Heap : Type := mkHeap {
  kind : ObjId → Kind;
  full_name : ObjId → string;
  name : ObjId → string;
  mro : ObjId → list ObjId;
  base_cls : ObjId → ObjId;
  (** [bases()]: one Variable per base, given by the data of its bindings *)
  bases : ObjId → list (list ObjId);
  template : ObjId → list TypeParameter;
  formal_type_parameters : ObjId → list (string * Param);
  (** [pytd_cls.template], converted to values *)
  pytd_template : ObjId → list TypeParameter;
  (** the names [m] with [m in cls] *)
  members : ObjId → gset string;
  (** [get_own_abstract_methods()] *)
  own_abstract_methods : ObjId → gset string;
  (** [vm.convert.unsolvable] *)
  unsolvable : ObjId
}.

Section values.
Variable h : Heap.

Definition isinstance_PyTDClass (o : ObjId) : bool :=
  bool_decide (kind h o = PyTDClass).
Definition isinstance_InterpreterClass (o : ObjId) : bool :=
  bool_decide (kind h o = InterpreterClass).
Definition isinstance_ParameterizedClass (o : ObjId) : bool :=
  bool_decide (kind h o = ParameterizedClass).
Definition isinstance_Unsolvable (o : ObjId) : bool :=
  bool_decide (kind h o = Unsolvable).

(** [isinstance(cls, Class)] *)
Definition isinstance_Class (o : ObjId) : bool :=
  match kind h o with
  | PyTDClass | InterpreterClass | ParameterizedClass => true
  | _ => false
  end.

(** [get_atomic_value(variable, default=default)] *)
Definition get_atomic_value (variable : list ObjId) (default : ObjId) : ObjId :=
  match variable with
  | [v] => v
  | _ => default
  end.

(** [t is None or t.isinstance_Unsolvable()]; [None] is Python's [None]. *)
Definition is_None_or_Unsolvable (t : option ObjId) : bool :=
  match t with
  | None => true
  | Some v => isinstance_Unsolvable v
  end.

(** [_merge_type(t0, t1, name, cls)] *)
Definition _merge_type (t0 t1 : option ObjId) (name : string) (cls : ObjId)
    : result (option ObjId) :=
  if is_None_or_Unsolvable t0 then mret t1
  else if is_None_or_Unsolvable t1 then mret t0
  else match t0, t1 with
       | Some v0, Some v1 =>
           (* t0 is parent of t1 *)
           if bool_decide (v0 ∈ mro h v1) then mret t1
           (* t1 is parent of t0 *)
           else if bool_decide (v1 ∈ mro h v0) then mret t0
           else raise (GenericTypeError cls
                         ("Conflicting value for TypeVar " +:+ name))
       | _, _ => raise AttributeError
       end.
End values.

(** *** The C3 merge *)

Section merge.
Context {A : Type} `{EqDecision A}.

(** The lists other than the [i]-th. *)
Definition others (i : nat) (seqs : list (list A)) : list (list A) :=
  take i seqs ++ drop (S i) seqs.

(** The head of the [i]-th list, if no other list has it in its tail. *)
Definition eligible_head (seqs : list (list A)) (i : nat) : option A :=
  match seqs !! i with
  | Some (cand :: _) =>
      if forallb (λ s, bool_decide (cand ∉ tail s)) (others i seqs)
      then Some cand else None
  | _ => None
  end.

(** The first eligible head. *)
Definition select (seqs : list (list A)) : option A :=
  head (omap (eligible_head seqs) (seq 0 (length seqs))).

Definition remove_everywhere (cand : A) (seqs : list (list A)) : list (list A) :=
  filter (λ x, x ≠ cand) <$> seqs.

Fixpoint merge_loop (fuel : nat) (seqs : list (list A)) : result (list A) :=
  match fuel with
  | 0 => raise ValueError
  | S fuel =>
      if forallb (λ s, bool_decide (s = [])) seqs then mret []
      else match select seqs with
           | Some cand =>
               res ← merge_loop fuel (remove_everywhere cand seqs);
               mret (cand :: res)
           | None => raise ValueError
           end
  end.

(** Modelled from the spec: [mro.MergeSequences], which is not part of
    these sources.  Repeatedly select a list-head not present in any other
    list's tail, append it, remove it everywhere; fail if no list has an
    eligible head.  Every round removes an element, so the rounds are
    bounded by the number of elements. *)
Definition MergeSequences (seqs : list (list A)) : result (list A) :=
  merge_loop (S (length (mjoin seqs))) seqs.

(** Modelled from the spec: [mro.MROMerge], the same merge, failing with
    the linearization error. *)
Definition MROMerge (seqs : list (list A)) : result (list A) :=
  match MergeSequences seqs with
  | inl _ => raise MROError
  | inr res => mret res
  end.
End merge.

(** *** Linearization *)

Section linearization.
Variable h : Heap.

(** [get_mro_bases(bases, vm)] *)
Definition get_mro_bases (bases : list (list ObjId)) : list ObjId :=
  let '(mro_bases, has_user_generic) :=
    foldl (λ '(mro_bases, has_user_generic) base_var,
             match base_var with
             | [] => (mro_bases, has_user_generic)
             | _ =>
                 let base := get_atomic_value base_var (unsolvable h) in
                 (mro_bases ++ [base],
                  if isinstance_ParameterizedClass h base
                     && bool_decide (full_name h base ≠ "typing.Generic")
                  then true else has_user_generic)
             end) ([], false) bases in
  if has_user_generic
  then filter (λ b, full_name h b ≠ "typing.Generic") mro_bases
  else mro_bases.

(** The class that takes part in the merge in place of [base]. *)
Definition unwrap (base : ObjId) : ObjId :=
  if isinstance_ParameterizedClass h base then base_cls h base else base.

(** The inner [for base in row] loop of [compute_mro]. *)
Definition unwrap_row (base2cls : list (ObjId * ObjId)) (row : list ObjId)
    : list (ObjId * ObjId) * list ObjId :=
  foldl (λ '(base2cls, baselist) base,
           if isinstance_ParameterizedClass h base
           then (Dict.set (base_cls h base) base base2cls,
                 baselist ++ [base_cls h base])
           else (Dict.set base base base2cls, baselist ++ [base]))
        (base2cls, []) row.

(** The outer [for row in bases] loop of [compute_mro]. *)
Definition unwrap_rows (rows : list (list ObjId))
    : list (ObjId * ObjId) * list (list ObjId) :=
  foldl (λ '(base2cls, newbases) row,
           let '(base2cls, baselist) := unwrap_row base2cls row in
           (base2cls, newbases ++ [baselist]))
        ([], []) rows.

(** The rows that [compute_mro] merges: [self], the linearization of every
    base, and the bases themselves. *)
Definition mro_rows (self : ObjId) : list (list ObjId) :=
  let bases := get_mro_bases (bases h self) in
  [[self]] ++ (mro h <$> bases) ++ [bases].

(** [base2cls[base]] *)
Definition subscript (base2cls : list (ObjId * ObjId)) (base : ObjId)
    : result ObjId :=
  match Dict.get base base2cls with
  | Some cls => mret cls
  | None => raise KeyError
  end.

(** [Class.compute_mro(self)] *)
Definition compute_mro (self : ObjId) : result (list ObjId) :=
  let '(base2cls, newbases) := unwrap_rows (mro_rows self) in
  merged ← MROMerge newbases;
  mapM (subscript base2cls) merged.

(** The dictionary [base2cls] once the values [l] have been recorded. *)
Definition record_all (base2cls : list (ObjId * ObjId)) (l : list ObjId)
    : list (ObjId * ObjId) :=
  foldl (λ d base, Dict.set (unwrap base) base d) base2cls l.

(** The wrapper that the last occurrence of the class [base] in the rows
    came with. *)
Definition last_association (rows : list (list ObjId)) (base : ObjId) : ObjId :=
  default base (last (filter (λ b, unwrap b = base) (mjoin rows))).

(** Following the spec's words: "replace each unwrapped identity with its
    original ParameterizedClass wrapper (first association wins)". *)
Definition first_association (rows : list (list ObjId)) (base : ObjId) : ObjId :=
  default base (head (filter (λ b, unwrap b = base) (mjoin rows))).
End linearization.

(** *** Templates *)

Section templates.
Variable h : Heap.
Variable val : ObjId.

(** [base.formal_type_parameters.get(item.name)] *)
Definition get_param (base : ObjId) (item : TypeParameter) : option Param :=
  Dict.get (tp_name item) (formal_type_parameters h base).

(** [for item in base.template: template.append(param.with_module(...))];
    only type variables have [with_module]. *)
Fixpoint append_generic_params (base : ObjId) (items : list TypeParameter)
    (template : list TypeParameter) : result (list TypeParameter) :=
  match items with
  | [] => mret template
  | item :: rest =>
      match get_param base item with
      | Some (TypeParam param) =>
          append_generic_params base rest
            (template ++ [with_module param (full_name h val)])
      | _ => raise AttributeError
      end
  end.

(** The first loop: count [typing.Generic] and collect its parameters. *)
Fixpoint collect_generic (bases : list ObjId) (template : list TypeParameter)
    : result (list TypeParameter) :=
  match bases with
  | [] => mret template
  | base :: rest =>
      if bool_decide (full_name h base = "typing.Generic") then
        if isinstance_PyTDClass h base then
          raise (GenericTypeError val "Cannot inherit from plain Generic")
        else if bool_decide (template ≠ []) then
          raise (GenericTypeError val
                   "Cannot inherit from Generic[...] multiple times")
        else
          template ← append_generic_params base (Abstract.template h base) template;
          collect_generic rest template
      else collect_generic rest template
  end.

(** The loop over the items of one parameterized base in the second loop. *)
Fixpoint check_items (base : ObjId) (items : list TypeParameter)
    (template : list TypeParameter) : result unit :=
  match items with
  | [] => mret ()
  | item :: rest =>
      match get_param base item with
      | Some (TypeParam param) =>
          let t := with_module param (full_name h val) in
          if bool_decide (t ∉ template) then
            raise (GenericTypeError val
                     "Generic should contain all the type variables")
          else check_items base rest template
      | Some (Concrete _) => check_items base rest template
      | None => raise AttributeError
      end
  end.

(** The second loop: all type parameters of the other bases appear in
    [typing.Generic]. *)
Fixpoint check_bases (bases : list ObjId) (template : list TypeParameter)
    : result unit :=
  match bases with
  | [] => mret ()
  | base :: rest =>
      if bool_decide (full_name h base ≠ "typing.Generic")
         && isinstance_ParameterizedClass h base then
        _ ← check_items base (Abstract.template h base) template;
        check_bases rest template
      else check_bases rest template
  end.

(** The type parameters that one parameterized base exposes. *)
Fixpoint param_seq (base : ObjId) (items : list TypeParameter)
    (seq : list TypeParameter) : result (list TypeParameter) :=
  match items with
  | [] => mret seq
  | item :: rest =>
      match get_param base item with
      | Some (TypeParam param) =>
          param_seq base rest (seq ++ [with_module param (full_name h val)])
      | Some (Concrete _) => param_seq base rest seq
      | None => raise AttributeError
      end
  end.

(** The third loop: the sequences to merge. *)
Fixpoint param_seqs (bases : list ObjId) (seqs : list (list TypeParameter))
    : result (list (list TypeParameter)) :=
  match bases with
  | [] => mret seqs
  | base :: rest =>
      if isinstance_ParameterizedClass h base then
        seq ← param_seq base (template h base) [];
        param_seqs rest (seqs ++ [seq])
      else param_seqs rest seqs
  end.

(** [[get_atomic_value(base, default=unsolvable) for base in val.bases()]] *)
Definition resolved_bases : list ObjId :=
  (λ base, get_atomic_value base (unsolvable h)) <$> bases h val.

(** [compute_template(val)] *)
Definition compute_template : result (list TypeParameter) :=
  if isinstance_PyTDClass h val then mret (pytd_template h val)
  else if negb (isinstance_InterpreterClass h val) then mret []
  else
    let bases := resolved_bases in
    template ← collect_generic bases [];
    if bool_decide (template ≠ []) then
      _ ← check_bases bases template;
      mret template
    else
      seqs ← param_seqs bases [];
      match MergeSequences seqs with
      | inr merged => mret (template ++ merged)
      | inl ValueError =>
          raise (GenericTypeError val
                   ("Illegal type parameter order in class " +:+ name h val))
      | inl e => raise e
      end.
(** The base is the generic marker. *)
Definition is_generic (base : ObjId) : Prop :=
  full_name h base = "typing.Generic".

#[global] Instance is_generic_dec base : Decision (is_generic base).
Proof. unfold is_generic. apply _. Defined.

(** The bare type parameter that [base] binds to [item], if it binds one,
    in the namespace of [val]. *)
Definition namespaced_param (base : ObjId) (item : TypeParameter)
    : option TypeParameter :=
  match get_param base item with
  | Some (TypeParam param) => Some (with_module param (full_name h val))
  | _ => None
  end.

(** The bare type parameters that a parameterized base uses, in the order
    of its template and in the namespace of [val].  For the generic marker
    this is the ordered, namespaced parameter list that the class
    declares. *)
Definition type_params_of (base : ObjId) : list TypeParameter :=
  omap (namespaced_param base) (Abstract.template h base).

(** [base] is [Generic[...]] with at least one parameter, every one of
    them a bare type parameter. *)
Definition generic_with_params (base : ObjId) : Prop :=
  isinstance_PyTDClass h base = false
  ∧ Abstract.template h base ≠ []
  ∧ ∀ item, item ∈ Abstract.template h base →
      ∃ param, get_param base item = Some (TypeParam param).

(** Every item of the template of [base] is bound to some value. *)
Definition params_bound (base : ObjId) : Prop :=
  ∀ item, item ∈ Abstract.template h base → is_Some (get_param base item).
End templates.

(** *** Abstract methods *)

Section abstract_methods.
Variable h : Heap.

(** One round of the loop of [_init_abstract_methods]; the argument
    [abstract_methods_of] reads the attribute [cls.abstract_methods]. *)
Definition sweep_step (abstract_methods_of : ObjId → gset string)
    (abstract_methods : gset string) (cls : ObjId) : gset string :=
  if isinstance_Class h cls then
    (* Remove methods implemented by this class. *)
    let abstract_methods :=
      filter (λ m, m ∉ members h cls ∨ m ∈ abstract_methods_of cls)
             abstract_methods in
    (* Add abstract methods defined by this class. *)
    abstract_methods ∪ filter (λ m, m ∈ members h cls) (abstract_methods_of cls)
  else abstract_methods.

(** [Class._init_abstract_methods(self)], acting on the attribute
    [abstract_methods] of all classes. *)
Definition _init_abstract_methods (self : ObjId)
    (st : gmap ObjId (gset string)) : gmap ObjId (gset string) :=
  let st := <[self := own_abstract_methods h self]> st in
  let abstract_methods :=
    foldl (sweep_step (λ cls, st !!! cls)) ∅ (reverse (mro h self)) in
  <[self := abstract_methods]> st.

(** Following the spec's words: one sweep from the most general ancestor
    to the class itself; a name leaves the running set when the ancestor
    declares an attribute of that name without re-marking it abstract, and
    the ancestor's own abstract methods are added. *)
Definition spec_sweep_step (running : gset string) (cls : ObjId) : gset string :=
  if isinstance_Class h cls then
    filter (λ m, ¬ (m ∈ members h cls ∧ m ∉ own_abstract_methods h cls)) running
    ∪ own_abstract_methods h cls
  else running.

Definition abstract_methods_spec (self : ObjId) : gset string :=
  foldl spec_sweep_step ∅ (reverse (mro h self)).

(** The classes are initialized in the order of their definition. *)
Definition init_classes (classes : list ObjId) : gmap ObjId (gset string) :=
  foldl (λ st cls, _init_abstract_methods cls st) ∅ classes.
End abstract_methods.

End Abstract.

(** ** Concrete class hierarchies *)

Module ClassExamples.
Import Abstract.

(** Attributes that an example leaves open. *)
Definition no_bases : ObjId → list (list ObjId) := λ _, [].
Definition no_template : ObjId → list TypeParameter := λ _, [].
Definition no_parameters : ObjId → list (string * Param) := λ _, [].
Definition no_names : ObjId → gset string := λ _, ∅.

(** *** Abstract methods

<<
    class Base:        # 1
      @abstractmethod
      def f(self): ...
    class Mid(Base):   # 2
      def f(self): ...
    class Leaf(Mid):   # 3
      pass
    class Leaf2(Base): # 4
      pass
>>
    with [object] as 0. *)
Definition abc_heap : Heap :=
  mkHeap
    (λ _, InterpreterClass)
    (λ o, match o with
          | 0 => "builtins.object" | 1 => "Base" | 2 => "Mid" | 3 => "Leaf"
          | _ => "Leaf2" end)
    (λ o, match o with
          | 0 => "object" | 1 => "Base" | 2 => "Mid" | 3 => "Leaf"
          | _ => "Leaf2" end)
    (λ o, match o with
          | 0 => [0] | 1 => [1; 0] | 2 => [2; 1; 0] | 3 => [3; 2; 1; 0]
          | _ => [4; 1; 0] end)
    id
    (λ o, match o with
          | 0 => [] | 1 => [[0]] | 2 => [[1]] | 3 => [[2]] | _ => [[1]] end)
    no_template no_parameters no_template
    (λ o, match o with 1 | 2 => {["f"]} | _ => ∅ end)
    (λ o, match o with 1 => {["f"]} | _ => ∅ end)
    99.

(** *** Linearization

<<
    class A(Generic[T]): ...    # 11
    class B(A[int]): ...        # 12
    class C(B, A[str]): ...     # 13
>>
    with [object] as 0, [typing.Generic] as 10, and the wrappers
    [Generic[T]] as 20, [A[int]] as 21 and [A[str]] as 22. *)
Definition mro_heap : Heap :=
  mkHeap
    (λ o, match o with
          | 0 | 10 => PyTDClass
          | 20 | 21 | 22 => ParameterizedClass
          | 99 => Unsolvable
          | _ => InterpreterClass end)
    (λ o, match o with
          | 0 => "builtins.object" | 10 | 20 => "typing.Generic"
          | 11 | 21 | 22 => "A" | 12 => "B" | 13 => "C"
          | _ => "?" end)
    (λ o, match o with
          | 0 => "object" | 10 | 20 => "Generic"
          | 11 | 21 | 22 => "A" | 12 => "B" | 13 => "C"
          | _ => "?" end)
    (λ o, match o with
          | 0 => [0] | 10 => [10; 0] | 20 => [20; 0]
          | 11 => [11; 20; 0] | 21 => [21; 20; 0] | 22 => [22; 20; 0]
          | 12 => [12; 21; 20; 0]
          | _ => [o] end)
    (λ o, match o with 20 => 10 | 21 | 22 => 11 | _ => o end)
    (λ o, match o with
          | 11 => [[20]] | 12 => [[21]] | 13 => [[12]; [22]]
          | _ => [] end)
    no_template no_parameters no_template no_names no_names
    99.

(** *** Templates *)

Definition T : TypeParameter := mkTypeParameter "T" None None.
Definition U : TypeParameter := mkTypeParameter "U" None None.
Definition V : TypeParameter := mkTypeParameter "V" None None.
Definition _T : TypeParameter := mkTypeParameter "_T" None (Some "builtins.list").
Definition _K : TypeParameter := mkTypeParameter "_K" None (Some "builtins.dict").
Definition _V : TypeParameter := mkTypeParameter "_V" None (Some "builtins.dict").

(**
<<
    class Foo(Generic[T, U], List[T]): ...     # 40
    class Bar(Generic[T, U], Dict[T, V]): ...  # 41
    class Baz(Generic[T], Generic[U]): ...     # 42
    class Qux(List[T], Dict[T, V]): ...        # 43
>>
    with the wrappers [Generic[T, U]] as 30, [List[T]] as 31, [Dict[T, V]]
    as 32, [Generic[T]] as 33 and [Generic[U]] as 34. *)
Definition template_heap : Heap :=
  mkHeap
    (λ o, match o with
          | 30 | 31 | 32 | 33 | 34 => ParameterizedClass
          | 99 => Unsolvable
          | _ => InterpreterClass end)
    (λ o, match o with
          | 30 | 33 | 34 => "typing.Generic"
          | 31 => "builtins.list" | 32 => "builtins.dict"
          | 40 => "Foo" | 41 => "Bar" | 42 => "Baz" | 43 => "Qux"
          | _ => "?" end)
    (λ o, match o with
          | 30 | 33 | 34 => "Generic"
          | 31 => "list" | 32 => "dict"
          | 40 => "Foo" | 41 => "Bar" | 42 => "Baz" | 43 => "Qux"
          | _ => "?" end)
    (λ o, [o])
    id
    (λ o, match o with
          | 40 => [[30]; [31]] | 41 => [[30]; [32]] | 42 => [[33]; [34]]
          | 43 => [[31]; [32]]
          | _ => [] end)
    (λ o, match o with
          | 30 => [T; U] | 33 => [T] | 34 => [U]
          | 31 => [_T] | 32 => [_K; _V]
          | _ => [] end)
    (λ o, match o with
          | 30 => [("T", TypeParam T); ("U", TypeParam U)]
          | 33 => [("T", TypeParam T)]
          | 34 => [("U", TypeParam U)]
          | 31 => [("_T", TypeParam T)]
          | 32 => [("_K", TypeParam T); ("_V", TypeParam V)]
          | _ => [] end)
    no_template no_names no_names
    99.

End ClassExamples.

(** ** Further definitions over abstract values *)

Module AbstractExtra.
Import Abstract.

(** The type parameter [t] is in the namespace of the class [val]. *)
Definition namespaced (h : Heap) (val : ObjId) (t : TypeParameter) : Prop :=
  tp_module t = Some (full_name h val).

(** The class [c] lets the abstract method [m] through: it is no class, it
    does not declare [m], or it has [m] among its abstract methods [am c]. *)
Definition lets_through (h : Heap) (am : ObjId → gset string) (m : string)
    (c : ObjId) : Prop :=
  isinstance_Class h c = true → m ∉ members h c ∨ m ∈ am c.

End AbstractExtra.

(** ** Attributes derived from the linearization *)

Module ClassClosure.
Import Abstract.

Section closure.
Variable h : Heap.
(** [cls.get_own_attributes()], which the subclasses of the mix-in define *)
Variable get_own_attributes : ObjId → gset string.
(** [vm.PY3] *)
Variable PY3 : bool.
(** [pytd_cls.name] and the names of [pytd_cls.parents] *)
Variable pytd_name : ObjId → string.
Variable pytd_parents : ObjId → list string.

(** [Class._init_overrides_bool(self)], acting on the attribute
    [overrides_bool] of all classes; reading the attribute of a class that
    has none is an [AttributeError]. *)
Definition _init_overrides_bool (self : ObjId) (st : gmap ObjId bool)
    : result (gmap ObjId bool) :=
  let bool_override := if PY3 then "__bool__" else "__nonzero__" in
  if isinstance_ParameterizedClass h self then
    match st !! base_cls h self with
    | Some b => mret (<[self := b]> st)
    | None => raise AttributeError
    end
  else
    mret (<[self :=
             existsb (λ cls,
                        isinstance_Class h cls
                        && existsb (λ x, bool_decide (x ∈ get_own_attributes cls))
                                   [bool_override; "__len__"])
                     (mro h self)]> st).

(** [Class.has_protocol_parent(self)]; [self._bases] is [bases h self]. *)
Definition has_protocol_parent (self : ObjId) : bool :=
  if isinstance_PyTDClass h self then
    existsb (λ parent, bool_decide (parent = "typing.Protocol")) (pytd_parents self)
  else if isinstance_InterpreterClass h self then
    existsb (λ parent_var,
               existsb (λ parent,
                          isinstance_PyTDClass h parent
                          && bool_decide (full_name h parent = "typing.Protocol"))
                       parent_var)
            (bases h self)
  else false.

(** [cls.is_protocol], that is [bool(cls.protocol_attributes)] *)
Definition is_protocol (st : gmap ObjId (gset string)) (cls : ObjId) : bool :=
  bool_decide (st !!! cls ≠ (∅ : gset string)).

(** One round of the loop of [_init_protocol_attributes]. *)
Definition protocol_step (st : gmap ObjId (gset string))
    (protocol_attributes : gset string) (cls : ObjId) : gset string :=
  if isinstance_Class h cls then
    if is_protocol st cls then
      (* Add protocol attributes defined by this class. *)
      protocol_attributes ∪ filter (λ a, a ∈ members h cls) (st !!! cls)
    else
      (* Remove attributes implemented by this class. *)
      filter (λ a, a ∉ members h cls) protocol_attributes
  else protocol_attributes.

(** [Class._init_protocol_attributes(self)], acting on the attribute
    [protocol_attributes] of all classes; [abstract_methods] holds the
    attribute of that name. *)
Definition _init_protocol_attributes (self : ObjId)
    (abstract_methods : gmap ObjId (gset string))
    (st : gmap ObjId (gset string)) : gmap ObjId (gset string) :=
  if isinstance_ParameterizedClass h self then
    <[self := st !!! base_cls h self]> st
  else if negb (has_protocol_parent self) then <[self := ∅]> st
  else if isinstance_PyTDClass h self && String.prefix "typing." (pytd_name self)
  then <[self := abstract_methods !!! self]> st
  else
    let st := <[self := get_own_attributes self]> st in
    let protocol_attributes :=
      foldl (protocol_step st) ∅ (reverse (mro h self)) in
    <[self := protocol_attributes]> st.
End closure.

End ClassClosure.

(** ** Class metadata: attributes collected along the linearization *)

Module Metadata.
Import Abstract.

(** [class_mixin.Attribute], a class member variable; the fields [typ],
    [default], [init_type] and [pytd_const] hold values or [None]. *)
Record Attribute : Type := mkAttribute {
  a_name : string;
  a_typ : ObjId;
  a_init : bool;
  a_kw_only : bool;
  a_default : option ObjId;
  a_kind : string;
  a_init_type : option ObjId;
  a_pytd_const : option ObjId
}.

#[global] Instance Attribute_eq_dec : EqDecision Attribute.
Proof. solve_decision. Defined.

(** [_METADATA_KEYS] *)
Definition _METADATA_KEYS : list (string * string) :=
  [("dataclasses.dataclass", "__dataclass_fields__");
   ("attr.s", "__attrs_attrs__");
   ("attr.attrs", "__attrs_attrs__");
   ("attr._make.attrs", "__attrs_attrs__")].

(** [get_metadata_key(decorator)] *)
Definition get_metadata_key (decorator : string) : option string :=
  Dict.get decorator _METADATA_KEYS.

(** The attribute [metadata] of every class: a dictionary from metadata
    keys to lists of attributes. *)
Definition MetaStore : Type := gmap ObjId (gmap string (list Attribute)).

(** [cls.metadata.get(metadata_key, None)] *)
Definition metadata_get (st : MetaStore) (cls : ObjId) (metadata_key : string)
    : option (list Attribute) :=
  (st !!! cls) !! metadata_key.

Section collect.
Variable h : Heap.

(** The loop [for a in sub_attrs] of [_get_mro_attrs_for_attrs]. *)
Definition take_untaken (acc : gset string * list Attribute)
    (sub_attrs : list Attribute) : gset string * list Attribute :=
  foldl (λ '(taken_attr_names, base_attrs) a,
           if decide (a_name a ∉ taken_attr_names)
           then ({[a_name a]} ∪ taken_attr_names, base_attrs ++ [a])
           else (taken_attr_names, base_attrs))
        acc sub_attrs.

(** [Class._get_mro_attrs_for_attrs(self, cls_attrs, metadata_key)] *)
Definition _get_mro_attrs_for_attrs (st : MetaStore) (self : ObjId)
    (cls_attrs : list Attribute) (metadata_key : string) : list Attribute :=
  let taken_attr_names : gset string := list_to_set (a_name <$> cls_attrs) in
  let '(_, base_attrs) :=
    foldl (λ acc base_cls,
             if negb (isinstance_Class h base_cls) then acc
             else match metadata_get st base_cls metadata_key with
                  | None => acc
                  | Some sub_attrs => take_untaken acc sub_attrs
                  end)
          (taken_attr_names, []) (tail (mro h self)) in
  base_attrs ++ cls_attrs.

(** [Class._get_attrs_from_mro(self, cls_attrs, metadata_key)] *)
Definition _get_attrs_from_mro (st : MetaStore) (self : ObjId)
    (cls_attrs : list Attribute) (metadata_key : string) : list Attribute :=
  if decide (metadata_key = "__attrs_attrs__") then
    (* attrs are special-cased *)
    _get_mro_attrs_for_attrs st self cls_attrs metadata_key
  else
    let sub_attrs :=
      ((λ base_cls, default [] (metadata_get st base_cls metadata_key))
         <$> filter (λ base_cls, isinstance_Class h base_cls = true)
                    (reverse (tail (mro h self))))
      ++ [cls_attrs] in
    let all_attrs :=
      foldl (λ all_attrs attrs,
               foldl (λ all_attrs a, Dict.set (a_name a) a all_attrs)
                     all_attrs attrs)
            [] sub_attrs in
    Dict.values all_attrs.

(** The attributes that the bases of [self] offer for [metadata_key], most
    specific base first. *)
Definition inherited_attrs (st : MetaStore) (self : ObjId)
    (metadata_key : string) : list Attribute :=
  tail (mro h self) ≫= λ base_cls,
    if isinstance_Class h base_cls
    then default [] (metadata_get st base_cls metadata_key) else [].

(** The attributes met when going from the most general base to the class
    itself, the attributes of the class last. *)
Definition attrs_in_order (st : MetaStore) (self : ObjId)
    (cls_attrs : list Attribute) (metadata_key : string) : list Attribute :=
  mjoin (((λ base_cls, default [] (metadata_get st base_cls metadata_key))
            <$> filter (λ base_cls, isinstance_Class h base_cls = true)
                       (reverse (tail (mro h self))))
         ++ [cls_attrs]).

(** [Class.compute_attr_metadata(self, own_attrs, decorator)]; the
    assertion fails, with [None] as the result, for a decorator that has no
    metadata key. *)
Definition compute_attr_metadata (st : MetaStore) (self : ObjId)
    (own_attrs : list Attribute) (decorator : string)
    : option (list Attribute * MetaStore) :=
  match Dict.get decorator _METADATA_KEYS with
  | None => None
  | Some key =>
      let attrs := _get_attrs_from_mro st self own_attrs key in
      (* Stash attributes in class metadata for subclasses. *)
      Some (attrs, <[self := <[key := attrs]> (st !!! self)]> st)
  end.
End collect.

End Metadata.

(** ** Predicates on classes and values *)

Module Predicates.
Import Abstract ClassClosure.

Section predicates.
Variable h : Heap.
(** [self.cls]: the metaclass of a class, the class of an instance, or
    [None] *)
Variable cls : ObjId → option ObjId.
(** [pytd_cls.parents], by name *)
Variable pytd_parents : ObjId → list string.
(** [self.abstract_methods] *)
Variable abstract_methods : ObjId → gset string.
(** [val.isinstance_PythonConstant()] and
    [getattr(val, "could_contain_anything", False)] *)
Variable isinstance_PythonConstant : ObjId → bool.
Variable could_contain_anything : ObjId → bool.

(** [Class._has_explicit_abcmeta(self)], as a truth value *)
Definition _has_explicit_abcmeta (self : ObjId) : bool :=
  match cls self with
  | None => false
  | Some metaclass =>
      existsb (λ parent, bool_decide (full_name h parent = "abc.ABCMeta"))
              (mro h metaclass)
  end.

(** [Class._has_implicit_abcmeta(self)] *)
Definition _has_implicit_abcmeta (self : ObjId) : bool :=
  if negb (isinstance_InterpreterClass h self) then false
  else
    existsb (λ var,
               existsb (λ parent,
                          bool_decide (full_name h parent = "typing.Protocol"))
                       var)
            (bases h self).

(** [Class.is_abstract] *)
Definition is_abstract (self : ObjId) : bool :=
  (_has_explicit_abcmeta self || _has_implicit_abcmeta self)
  && bool_decide (abstract_methods self ≠ ∅).

(** [Class._get_inherited_metaclass(self)] *)
Definition _get_inherited_metaclass (self : ObjId) : option ObjId :=
  head (omap (λ base, if isinstance_Class h base then cls base else None)
             (tail (mro h self))).

(** [is_concrete(val)] *)
Definition is_concrete (val : ObjId) : bool :=
  isinstance_PythonConstant val && negb (could_contain_anything val).

(** The loop of [is_indefinite_iterable] over [val.cls.mro]. *)
Fixpoint indefinite_loop (classes : list ObjId) : bool :=
  match classes with
  | [] => false
  | c :: classes =>
      if bool_decide (full_name h c = "builtins.str") then false
      else if bool_decide (full_name h c = "builtins.tuple")
      then isinstance_PyTDClass h c
      else if bool_decide (full_name h c = "typing.Iterable") then true
      else indefinite_loop classes
  end.

(** [is_indefinite_iterable(val)] *)
Definition is_indefinite_iterable (val : ObjId) : bool :=
  let instance := bool_decide (kind h val = Instance) in
  let concrete := is_concrete val in
  let cls_instance :=
    match cls val with
    | None => false
    | Some c => isinstance_Class h c
    end in
  if negb (instance && cls_instance && negb concrete) then false
  else match cls val with
       | None => false
       | Some c => indefinite_loop (mro h c)
       end.

(** The names that decide the loop of [is_indefinite_iterable]. *)
Definition decisive (c : ObjId) : Prop :=
  full_name h c ∈ ["builtins.str"; "builtins.tuple"; "typing.Iterable"].
End predicates.

End Predicates.

(** ** Type parameter substitutions and templates of [typing.Generic] *)

Module Substs.
Section substs.
(** The values of a substitution, the Variables of the value graph. *)
Context {V : Type}.

(** [{**sub1, **sub2}]: a copy of [sub1], updated with the items of [sub2]
    in their order. *)
Definition dict_union (sub1 sub2 : list (string * V)) : list (string * V) :=
  foldl (λ d kv, Dict.set kv.1 kv.2 d) sub1 sub2.

(** The truth value of an optional collection: [None] and the empty
    collection are false. *)
Definition truthy {A} (substs : option (list A)) : bool :=
  match substs with
  | Some (_ :: _) => true
  | _ => false
  end.

(** [combine_substs(substs1, substs2)] *)
Definition combine_substs (substs1 substs2 : option (list (list (string * V))))
    : list (list (string * V)) :=
  if truthy substs1 && truthy substs2 then
    sub1 ← default [] substs1; sub2 ← default [] substs2;
    [dict_union sub1 sub2]
  else if truthy substs1 then default [] substs1
  else if truthy substs2 then default [] substs2
  else [].
End substs.
End Substs.

Module GenericTemplate.
Import Abstract.

(** [item.isinstance_TypeParameter()] *)
Definition isinstance_TypeParameter (item : Param) : bool :=
  match item with
  | TypeParam _ => true
  | Concrete _ => false
  end.

(** [item.name] of a type parameter *)
Definition param_name (item : Param) : option string :=
  match item with
  | TypeParam t => Some (tp_name t)
  | Concrete _ => None
  end.

(** [build_generic_template(type_params, base_type)]; the diagnostics of
    [errorlog.invalid_annotation] are recorded with the annotation and the
    message, most recent last. *)
Definition build_generic_template (type_params : list Param) (base_type : ObjId)
    (errorlog : list (ObjId * string))
    : (list string * list Param) * list (ObjId * string) :=
  let '(type_params, errorlog) :=
    if negb (forallb isinstance_TypeParameter type_params) then
      (filter (λ item, isinstance_TypeParameter item = true) type_params,
       errorlog ++ [(base_type,
                     "Parameters to Generic[...] must all be type variables")])
    else (type_params, errorlog) in
  let template := omap param_name type_params in
  let errorlog :=
    if decide (size (list_to_set template : gset string) ≠ length template) then
      errorlog ++ [(base_type, "Parameters to Generic[...] must all be unique")]
    else errorlog in
  ((template, type_params), errorlog).

End GenericTemplate.

(** ** Classes generated from data declarations ([overlays/classgen.py]) *)

Module Classgen.
Import Metadata.

(** [Ordering]: the possible orderings for [get_class_locals]. *)
Inductive Ordering : Type :=
  | FIRST_ANNOTATE
  | LAST_ASSIGN.

(** An opcode recorded in [vm.local_ops], with what [op.name],
    [op.is_annotate()] and [op.is_assign()] give. *)
Record Op : Type := mkOp {
  op_name : string;
  is_annotate : bool;
  is_assign : bool
}.

(** The exceptions of a failed lookup. *)
Inductive LookupError : Type :=
  | MissingKey
  | IndexOutOfRange.

(** [s.endswith(suffix)] *)
Definition endswith (s suffix : string) : bool :=
  bool_decide (String.length suffix ≤ String.length s)
  && String.eqb (String.substring (String.length s - String.length suffix)
                                  (String.length suffix) s) suffix.

(** [is_dunder(name)] *)
Definition is_dunder (name : string) : bool :=
  String.prefix "__" name && endswith name "__".

Section locals.
(** The locals ([abstract_utils.Local]) and the values of the value graph. *)
Context {L D : Type}.
(** [local.orig]: [None], or a Variable given by the data of its bindings *)
Variable orig : L → option (list D).
(** Whether a value is an interpreter function, or an instance of
    [classmethod], [property] or [staticmethod]. *)
Variable method_type : D → bool.

(** [is_method(var)]; [var.data[0]] is an [IndexError] when the Variable has
    no binding. *)
Definition is_method (var : option (list D)) : LookupError + bool :=
  match var with
  | None => inr false
  | Some [] => inl IndexOutOfRange
  | Some (d :: _) => inr (method_type d)
  end.

(** [del out[name]] *)
Definition del (name : string) (out : list (string * L)) : list (string * L) :=
  filter (λ kv, kv.1 ≠ name) out.

(** [vm.annotated_locals[cls_name][name]] *)
Definition annotated_local (annotated_locals : gmap string (gmap string L))
    (cls_name name : string) : option L :=
  annotated_locals !! cls_name ≫= λ cls_locals, cls_locals !! name.

(** What the body of the loop does with [out[op.name] = local], once the
    opcode has passed the first tests. *)
Definition enter (ordering : Ordering) (op : Op) (local : L)
    (out : list (string * L)) : list (string * L) :=
  match ordering with
  | FIRST_ANNOTATE =>
      if negb (is_annotate op) || bool_decide (op_name op ∈ Dict.keys out)
      then out
      else Dict.set (op_name op) local out
  | LAST_ASSIGN =>
      if negb (is_assign op) then out
      else if bool_decide (op_name op ∈ Dict.keys out)
      then Dict.set (op_name op) local (del (op_name op) out)
      else Dict.set (op_name op) local out
  end.

(** One round of the loop of [get_class_locals]. *)
Definition locals_step (annotated_locals : gmap string (gmap string L))
    (cls_name : string) (allow_methods : bool) (ordering : Ordering)
    (out : LookupError + list (string * L)) (op : Op)
    : LookupError + list (string * L) :=
  match out with
  | inl e => inl e
  | inr out =>
      if is_dunder (op_name op) then inr out
      else match annotated_local annotated_locals cls_name (op_name op) with
           | None => inl MissingKey
           | Some local =>
               if allow_methods then inr (enter ordering op local out)
               else match is_method (orig local) with
                    | inl e => inl e
                    | inr true => inr out
                    | inr false => inr (enter ordering op local out)
                    end
           end
  end.

(** [get_class_locals(cls_name, allow_methods, ordering, vm)], with
    [vm.local_ops] and [vm.annotated_locals] *)
Definition get_class_locals (cls_name : string) (allow_methods : bool)
    (ordering : Ordering) (local_ops : gmap string (list Op))
    (annotated_locals : gmap string (gmap string L))
    : LookupError + list (string * L) :=
  match local_ops !! cls_name with
  | None => inr []
  | Some ops =>
      foldl (locals_step annotated_locals cls_name allow_methods ordering)
            (inr []) ops
  end.

(** The opcodes that pass the first tests of the loop: the name is no
    dunder name and, unless methods are allowed, the local is no method. *)
Definition passes (annotated_locals : gmap string (gmap string L))
    (cls_name : string) (allow_methods : bool) (op : Op) : bool :=
  negb (is_dunder (op_name op))
  && match annotated_local annotated_locals cls_name (op_name op) with
     | Some local =>
         allow_methods
         || match is_method (orig local) with
            | inr false => true
            | _ => false
            end
     | None => false
     end.

(** Every lookup that the loop makes for [ops] succeeds. *)
Definition lookups_succeed (annotated_locals : gmap string (gmap string L))
    (cls_name : string) (allow_methods : bool) (ops : list Op) : Prop :=
  ∀ op, op ∈ ops → is_dunder (op_name op) = false →
    ∃ local, annotated_local annotated_locals cls_name (op_name op) = Some local
             ∧ (allow_methods = false → orig local ≠ Some []).
(** The round of the loop for an opcode whose lookups succeed. *)
Definition kept_step (annotated_locals : gmap string (gmap string L))
    (cls_name : string) (allow_methods : bool) (ordering : Ordering)
    (out : list (string * L)) (op : Op) : list (string * L) :=
  match annotated_local annotated_locals cls_name (op_name op) with
  | Some local =>
      if passes annotated_locals cls_name allow_methods op
      then enter ordering op local out else out
  | None => out
  end.
End locals.

(** A Python constant, as far as the decorators' arguments need it. *)
Inductive Constant : Type :=
  | ConstNone
  | ConstBool (b : bool)
  | ConstInt (z : Z)
  | ConstStr (s : string).

(** [bool(c)] *)
Definition truth (c : Constant) : bool :=
  match c with
  | ConstNone => false
  | ConstBool b => b
  | ConstInt z => bool_decide (z ≠ 0%Z)
  | ConstStr s => bool_decide (s ≠ "")
  end.

(** [overlay_utils.Param(name=..., typ=..., default=...)] *)
Record Param : Type := mkParam {
  p_name : string;
  p_typ : ObjId;
  p_default : option ObjId
}.

(** [Decorator._DEFAULT_ARGS] *)
Definition _DEFAULT_ARGS : list (string * Constant) :=
  [("init", ConstBool true);
   ("kw_only", ConstBool false);
   ("auto_attribs", ConstBool false)].

Section decorator.
Context {D : Type}.
(** [vm.convert.value_to_constant(value, None)], with [None] for a
    [ConversionError] *)
Variable value_to_constant : D → option Constant.
(** [self.init_name(attr)], which the decorators may override *)
Variable init_name : Attribute → string.
(** [vm.PY3] *)
Variable PY3 : bool.

(** [abstract_utils.get_atomic_python_constant(variable)], with [None] for a
    [ConversionError]; the Variable is given by the data of its bindings. *)
Definition get_atomic_python_constant (variable : list D) : option Constant :=
  match variable with
  | [v] => value_to_constant v
  | _ => None
  end.

(** [Decorator.update_kwargs(self, args)]: the new [_current_args], and the
    error log, where [errorlog.not_supported_yet] records the name of the
    argument. *)
Definition update_kwargs (namedargs : list (string * list D))
    (errorlog : list string) : list (string * Constant) * list string :=
  foldl (λ '(_current_args, errorlog) '(k, v),
           if bool_decide (k ∈ Dict.keys _current_args) then
             match get_atomic_python_constant v with
             | Some c => (Dict.set k c _current_args, errorlog)
             | None => (_current_args, errorlog ++ [k])
             end
           else (_current_args, errorlog))
        (_DEFAULT_ARGS, errorlog) namedargs.

(** The loop of [Decorator.make_init(self, node, cls, attrs)]. *)
Definition init_params (all_kwonly : Constant) (attrs : list Attribute)
    : list Param * list Param :=
  foldl (λ '(pos_params, kwonly_params) attr,
           if negb (a_init attr) then (pos_params, kwonly_params)
           else
             let typ := default (a_typ attr) (a_init_type attr) in
             let param := mkParam (init_name attr) typ (a_default attr) in
             if PY3 && (truth all_kwonly || a_kw_only attr)
             then (pos_params, kwonly_params ++ [param])
             else (pos_params ++ [param], kwonly_params))
        ([], []) attrs.

(** [Decorator.make_init(self, node, cls, attrs)], up to the positional and
    the keyword-only parameters that it hands to [overlay_utils.make_method];
    [args] is [self.args]. *)
Definition make_init (args : gmap ObjId (list (string * Constant)))
    (cls : ObjId) (attrs : list Attribute)
    : LookupError + (list Param * list Param) :=
  match args !! cls with
  | None => inl MissingKey
  | Some cls_args =>
      match Dict.get "kw_only" cls_args with
      | None => inl MissingKey
      | Some all_kwonly => inr (init_params all_kwonly attrs)
      end
  end.

(** The parameter that [make_init] makes of an attribute. *)
Definition param_of (attr : Attribute) : Param :=
  mkParam (init_name attr) (default (a_typ attr) (a_init_type attr))
          (a_default attr).

(** Whether [make_init] makes the attribute a keyword-only parameter. *)
Definition keyword_only (all_kwonly : Constant) (attr : Attribute) : bool :=
  PY3 && (truth all_kwonly || a_kw_only attr).
End decorator.

End Classgen.

(** ** Concrete inputs *)

Module ViewExamples.
Import Cfg Views.

(** A binding record with data [n], no sources, made at node 0. *)
Definition o (n : nat) : Origin nat := mkOrigin n [] 0.

(** Variable 0 has two bindings and variable 1 has three. *)
Definition two_by_three : Program nat :=
  mkProgram (<[0 := [o 10; o 11]]> (<[1 := [o 20; o 21; o 22]]> ∅)) [].

(** A program without variables. *)
Definition no_variables : Program nat := mkProgram ∅ [].

(** A node whose reachability test accepts every combination. *)
Definition accept_all : Node nat := mkNode 7 99 (λ _, true).

(** A node that rejects the combination of the two first bindings. *)
Definition reject_first : Node nat :=
  mkNode 7 99 (λ c, negb (bool_decide (index <$> c = [0; 0]))).

(** A consumer that reads nothing and never asks to skip. *)
Definition never_skip : unit → View nat → unit * Response :=
  λ s view, (s, mkResponse [] false).

(** A consumer that reads the variable [X] only and always asks to skip. *)
Definition read_and_skip (X : VarId) : unit → View nat → unit * Response :=
  λ s view, (s, mkResponse [X] true).

End ViewExamples.

(** ** Further concrete inputs *)

Module ExtraExamples.
Import Abstract ClassExamples.

(** [class Plain(Generic, List[T])] as 44, with the plain class
    [typing.Generic] as 10, added to the classes of [template_heap]. *)
Definition plain_heap : Heap :=
  mkHeap
    (λ o, match o with 10 => PyTDClass | _ => kind template_heap o end)
    (λ o, match o with
          | 10 => "typing.Generic" | 44 => "Plain"
          | _ => full_name template_heap o end)
    (name template_heap) (mro template_heap) (base_cls template_heap)
    (λ o, match o with 44 => [[10]; [31]] | _ => bases template_heap o end)
    (Abstract.template template_heap) (formal_type_parameters template_heap)
    (pytd_template template_heap) (members template_heap)
    (own_abstract_methods template_heap) (unsolvable template_heap).

(** The own attributes of the classes of [abc_heap], with a [__len__] in
    [Base]. *)
Definition abc_own_attributes (o : ObjId) : gset string :=
  match o with 1 => {["f"; "__len__"]} | 2 => {["f"]} | _ => ∅ end.

(**
<<
    class P(Protocol):   # 1
      def read(self): ...
      def close(self): ...
    class Q(P, Protocol):  # 2
      def seek(self): ...
    class Impl(Q):       # 3, no protocol: close is implemented
      def close(self): ...
    class R(Impl, Protocol):  # 4
      def tell(self): ...
>>
    with [object] as 0 and [typing.Protocol] as 5. *)
Definition protocol_heap : Heap :=
  mkHeap
    (λ o, match o with 0 | 5 => PyTDClass | _ => InterpreterClass end)
    (λ o, match o with
          | 0 => "builtins.object" | 5 => "typing.Protocol"
          | 1 => "P" | 2 => "Q" | 3 => "Impl" | _ => "R" end)
    (λ o, match o with
          | 0 => "object" | 5 => "Protocol"
          | 1 => "P" | 2 => "Q" | 3 => "Impl" | _ => "R" end)
    (λ o, match o with
          | 0 => [0] | 5 => [5; 0] | 1 => [1; 5; 0] | 2 => [2; 1; 5; 0]
          | 3 => [3; 2; 1; 5; 0] | _ => [4; 3; 2; 1; 5; 0] end)
    id
    (λ o, match o with
          | 1 => [[5]] | 2 => [[1]; [5]] | 3 => [[2]] | 4 => [[3]; [5]]
          | _ => [] end)
    no_template no_parameters no_template
    (λ o, match o with
          | 1 => {["read"; "close"]} | 2 => {["seek"]} | 3 => {["close"]}
          | 4 => {["tell"]} | _ => ∅ end)
    no_names
    99.

Definition protocol_own_attributes (o : ObjId) : gset string :=
  members protocol_heap o.

(** The protocol attributes after the classes have been initialized in the
    order given; no class is in the [typing] stubs. *)
Definition init_protocols (classes : list ObjId) : gmap ObjId (gset string) :=
  foldl (λ st cls,
           ClassClosure._init_protocol_attributes protocol_heap
             protocol_own_attributes (λ _, "") (λ _, []) cls ∅ st) ∅ classes.

(** Attributes for the classes of [abc_heap]: [Base] has [x] and [y],
    [Mid] has stored [x], [y] and [z], and [Leaf] defines [y] anew, and [w]. *)
Definition attr (name : string) (typ : ObjId) : Metadata.Attribute :=
  Metadata.mkAttribute name typ true false None "" None None.

Definition field_store (key : string) : Metadata.MetaStore :=
  <[1 := {[key := [attr "x" 50; attr "y" 51]]}]>
    (<[2 := {[key := [attr "x" 50; attr "y" 51; attr "z" 52]]}]> ∅).

Definition leaf_attrs : list Metadata.Attribute := [attr "y" 60; attr "w" 61].

(** Substitutions for the type parameters [T] and [U], with Variables 1 to
    5 as values. *)
Definition substs_T : list (list (string * nat)) := [[("T", 1)]; [("T", 2)]].
Definition substs_TU : list (list (string * nat)) := [[("T", 3); ("U", 4)]].
Definition substs_U : list (list (string * nat)) := [[("U", 5)]; []].

(**
<<
    class Foo:
      x: int
      y: str
      x = 0
      def f(self): ...
      x: float
      __slots__ = ()
      y = 'hello'
      x = 4.2
>>
    with the locals [x], [y] and [f] as 1, 2 and 3; the value 20 is the
    function [f]. *)
Definition foo_ops : list Classgen.Op :=
  [Classgen.mkOp "x" true false; Classgen.mkOp "y" true false;
   Classgen.mkOp "x" false true; Classgen.mkOp "f" false true;
   Classgen.mkOp "x" true false; Classgen.mkOp "__slots__" false true;
   Classgen.mkOp "y" false true; Classgen.mkOp "x" false true].

Definition foo_local_ops : gmap string (list Classgen.Op) :=
  {["Foo" := foo_ops]}.

Definition foo_annotated_locals : gmap string (gmap string nat) :=
  {["Foo" := <["x" := 1]> (<["y" := 2]> {["f" := 3]})]}.

Definition foo_orig (local : nat) : option (list nat) :=
  match local with
  | 1 => Some [10; 11; 12]
  | 2 => Some [13]
  | 3 => Some [20]
  | _ => None
  end.

Definition foo_method_type (d : nat) : bool := bool_decide (d = 20).

(** The arguments of [@attr.s(kw_only=True, frozen=f, init=g)], where only
    the first is a constant: the values 1 and 0 are [True] and [False]. *)
Definition decorator_constant (d : nat) : option Classgen.Constant :=
  match d with
  | 0 => Some (Classgen.ConstBool false)
  | 1 => Some (Classgen.ConstBool true)
  | _ => None
  end.

Definition decorator_namedargs : list (string * list nat) :=
  [("kw_only", [1]); ("frozen", [0]); ("init", [0; 1])].

(** Three fields: [a: int], [b: str = ...] with [init=False], and a
    keyword-only [c]. *)
Definition init_attrs : list Metadata.Attribute :=
  [Metadata.mkAttribute "a" 50 true false None "" None None;
   Metadata.mkAttribute "b" 51 false false (Some 70) "" None None;
   Metadata.mkAttribute "c" 52 true true None "" (Some 53) None].

(** Values over the classes [str] (1), [tuple] (2), [list] (3) and
    [Iterable] (4), with [object] as 0: the instances 11, 12 and 13 of
    [str], [tuple] and [list], and the constant 14, a [list]. *)
Definition iterable_heap : Abstract.Heap :=
  Abstract.mkHeap
    (λ o, if bool_decide (o < 10) then Abstract.PyTDClass else Abstract.Instance)
    (λ o, match o with
          | 0 => "builtins.object" | 1 => "builtins.str"
          | 2 => "builtins.tuple" | 3 => "builtins.list"
          | 4 => "typing.Iterable" | _ => "" end)
    (λ o, match o with
          | 0 => "object" | 1 => "str" | 2 => "tuple" | 3 => "list"
          | 4 => "Iterable" | _ => "" end)
    (λ o, match o with
          | 1 => [1; 4; 0] | 2 => [2; 4; 0] | 3 => [3; 4; 0] | 4 => [4; 0]
          | _ => [0] end)
    id
    ClassExamples.no_bases ClassExamples.no_template
    ClassExamples.no_parameters ClassExamples.no_template
    ClassExamples.no_names ClassExamples.no_names 99.

Definition iterable_cls (o : ObjId) : option ObjId :=
  match o with
  | 11 => Some 1 | 12 => Some 2 | 13 | 14 => Some 3 | _ => None
  end.

Definition iterable_constant (o : ObjId) : bool := bool_decide (o = 14).

End ExtraExamples.

(** * Properties *)

Module DictFacts.
Section dict_facts.
Context {K V : Type} `{EqDecision K}.
Implicit Types (d : list (K * V)).

Lemma get_set k k' v d :
  Dict.get k (Dict.set k' v d) = if decide (k = k') then Some v else Dict.get k d.
Proof.
  induction d as [|[k0 v0] d IH]; simpl.
  - repeat case_decide; congruence.
  - destruct (decide (k' = k0)) as [->|Hne]; simpl.
    + repeat case_decide; congruence.
    + rewrite IH. repeat case_decide; congruence.
Qed.

Lemma get_Some_elem k v d : Dict.get k d = Some v → (k, v) ∈ d.
Proof.
  induction d as [|[k0 v0] d IH]; simpl; [done|].
  case_decide; [intros [= ->]; subst; left | intros; right; auto].
Qed.

Lemma keys_set k v d :
  Dict.keys (Dict.set k v d) = if bool_decide (k ∈ Dict.keys d) then Dict.keys d else Dict.keys d ++ [k].
Proof.
  unfold Dict.keys. induction d as [|[k0 v0] d IH]; simpl; [done|].
  destruct (decide (k = k0)) as [->|Hne]; simpl.
  - rewrite bool_decide_eq_true_2; [done | left].
  - change (k0 :: (Dict.set k v d).*1 = if bool_decide (k ∈ k0 :: d.*1) then k0 :: d.*1 else (k0 :: d.*1) ++ [k]).
    rewrite IH. destruct (bool_decide_reflect (k ∈ d.*1)) as [Hin|Hnin].
    + rewrite bool_decide_eq_true_2; [done | by right].
    + rewrite bool_decide_eq_false_2; [done|]. rewrite elem_of_cons. naive_solver.
Qed.

Lemma NoDup_keys_set k v d : NoDup (Dict.keys d) → NoDup (Dict.keys (Dict.set k v d)).
Proof.
  intros Hnd. rewrite keys_set. case_bool_decide as Hin; [done|].
  apply NoDup_app. split_and!; [done | | apply NoDup_singleton].
  intros x Hx ->%list_elem_of_singleton. done.
Qed.

Lemma elem_get k v d : NoDup (Dict.keys d) → (k, v) ∈ d → Dict.get k d = Some v.
Proof.
  unfold Dict.keys. induction d as [|[k0 v0] d IH]; simpl.
  - by intros _ ?%elem_of_nil.
  - intros [Hnin Hnd]%NoDup_cons [[= -> ->]|Hin]%elem_of_cons.
    + by rewrite decide_True.
    + rewrite decide_False; [by apply IH|].
      intros ->. apply Hnin. apply list_elem_of_fmap. by exists (k0, v).
Qed.

Lemma set_fresh k v d : k ∉ Dict.keys d → Dict.set k v d = d ++ [(k, v)].
Proof.
  unfold Dict.keys. induction d as [|[k0 v0] d IH]; simpl; [done|].
  intros Hnin. apply not_elem_of_cons in Hnin as [Hne Hnin].
  rewrite decide_False by done. by rewrite IH.
Qed.

Lemma get_is_Some k d : is_Some (Dict.get k d) ↔ k ∈ Dict.keys d.
Proof.
  unfold Dict.keys. induction d as [|[k0 v0] d IH]; simpl.
  - split; [by intros [? ?] | by intros ?%elem_of_nil].
  - case_decide; subst.
    + split; [left | eauto].
    + rewrite IH, elem_of_cons. naive_solver.
Qed.
End dict_facts.
End DictFacts.

Module ViewFacts.
Import Cfg Views DictFacts.
Section view_facts.
Context {Data : Type} `{EqDecision Data}.
Implicit Types (c : list (Binding Data)) (view : View Data).

Lemma view_fold_keys_NoDup c view :
  NoDup (Dict.keys view) →
  NoDup (Dict.keys (foldl (λ d value, Dict.set (variable value) value d) view c)).
Proof.
  revert view. induction c as [|b c IH]; intros view Hnd; simpl; [done|].
  apply IH. by apply NoDup_keys_set.
Qed.

Lemma view_of_keys_NoDup c : NoDup (Dict.keys (view_of c)).
Proof. apply view_fold_keys_NoDup. constructor. Qed.

Lemma view_fold_is_Some c view k :
  is_Some (Dict.get k (foldl (λ d value, Dict.set (variable value) value d) view c))
  ↔ is_Some (Dict.get k view) ∨ k ∈ variable <$> c.
Proof.
  revert view. induction c as [|b c IH]; intros view; simpl.
  - rewrite elem_of_nil. tauto.
  - rewrite IH, get_set, elem_of_cons. case_decide; subst; [|tauto].
    split; [auto | intros _; left; eauto].
Qed.

Lemma view_of_is_Some c k :
  is_Some (Dict.get k (view_of c)) ↔ k ∈ variable <$> c.
Proof.
  unfold view_of. rewrite view_fold_is_Some. simpl.
  split; [intros [[? [=]]|?]; done | auto].
Qed.

(** The skip test against the accessed subset of an earlier view whose
    consumer read exactly the key [X]. *)
Lemma items_le_accessed X rs (v1 v2 : View Data) b1 :
  NoDup (Dict.keys v1) → NoDup (Dict.keys v2) →
  (∀ k, k ∈ rs ↔ k = X) →
  Dict.get X v1 = Some b1 →
  items_le (accessed_subset v1 rs) v2 = true ↔ Dict.get X v2 = Some b1.
Proof.
  intros Hnd1 Hnd2 Hrs Hget. unfold items_le, accessed_subset.
  rewrite forallb_forall. split.
  - intros Hall. apply elem_get; [done|].
    specialize (Hall (X, b1)). rewrite bool_decide_eq_true in Hall. apply Hall.
    apply list_elem_of_In, list_elem_of_filter. split; [by apply Hrs|].
    by apply get_Some_elem.
  - intros Hget2 [k b] [Hk Hin]%list_elem_of_In%list_elem_of_filter.
    simpl in Hk. apply Hrs in Hk as ->.
    apply bool_decide_eq_true.
    apply (elem_get _ _ _ Hnd1) in Hin. rewrite Hget in Hin. injection Hin as <-.
    by apply get_Some_elem.
Qed.
End view_facts.

Section skip.
Context {Data : Type} `{EqDecision Data} {S : Type}.
Variable node : Node Data.
Variable consumer : S → View Data → S * Response.
Variable X : VarId.
Hypothesis consumer_reads_X_and_skips : ∀ s view,
  skip_future (consumer s view).2 = true ∧
  ∀ k, k ∈ reads (consumer s view).2 ↔ k = X.

Let xb (c : list (Binding Data)) := Dict.get X (view_of c).

Lemma views_loop_skip combinations : ∀ seen s (D : list (Binding Data)),
  (∀ c, c ∈ combinations → is_Some (xb c)) →
  (∀ c, (existsb (λ subset, items_le subset (view_of c)) seen = true)
        ↔ (∃ b, b ∈ D ∧ xb c = Some b)) →
  ∃ Y, Dict.get X <$> (views_loop node consumer seen s combinations) = Some <$> Y
     ∧ NoDup Y
     ∧ ∀ b, b ∈ Y ↔ ((b ∉ D) ∧ ∃ c, c ∈ surviving node combinations ∧ xb c = Some b).
Proof.
  induction combinations as [|c rest IH]; intros seen s D Hkey Hseen.
  - exists []. split_and!; [done | constructor |].
    intros b. rewrite elem_of_nil. split; [done|].
    by intros [_ (c & ?%elem_of_nil & _)].
  - assert (Hrest : ∀ c', c' ∈ rest → is_Some (xb c')).
    { intros c' Hc'. apply Hkey. by right. }
    cbn [views_loop]. unfold surviving. rewrite filter_cons.
    destruct (existsb _ seen) eqn:Hex.
    { apply Hseen in Hex as (b0 & Hb0 & Hxb0).
      destruct (IH seen s D Hrest Hseen) as (Y & HY & Hnd & Hmem).
      exists Y. split_and!; [done..|]. intros b. rewrite Hmem.
      unfold surviving. case_decide; [|done].
      split; intros [Hb (c' & Hc' & Hxb)]; (split; [done|]).
      - exists c'. split; [by right | done].
      - apply elem_of_cons in Hc' as [->|Hc']; [|by eauto]. congruence. }
    destruct (CanHaveCombination node _) eqn:Hok; cbn [negb].
    2:{ destruct (IH seen s D Hrest Hseen) as (Y & HY & Hnd & Hmem).
        exists Y. split_and!; [done..|]. intros b. rewrite Hmem.
        by rewrite decide_False. }
    rewrite decide_True by done.
    destruct (consumer s (view_of c)) as [s' r] eqn:Hresp.
    destruct (consumer_reads_X_and_skips s (view_of c)) as [Hskip Hreads].
    rewrite Hresp in Hskip, Hreads. simpl in Hskip, Hreads. rewrite Hskip.
    destruct (Hkey c) as [b0 Hb0]; [left|].
    assert (Hb0D : b0 ∉ D).
    { intros Hin. apply not_true_iff_false in Hex. apply Hex, Hseen. eauto. }
    destruct (IH (seen ++ [accessed_subset (view_of c) (reads r)]) s' (b0 :: D) Hrest)
      as (Y & HY & Hnd & Hmem).
    { intros c'. rewrite existsb_app, orb_true_iff, Hseen. simpl. rewrite orb_false_r.
      rewrite (items_le_accessed X (reads r) (view_of c) (view_of c') b0);
        [|apply view_of_keys_NoDup..|done|done].
      setoid_rewrite elem_of_cons. unfold xb. naive_solver. }
    exists (b0 :: Y). split_and!.
    + rewrite !fmap_cons. f_equal; [done|]. exact HY.
    + constructor; [|done]. rewrite Hmem. intros [Hn _]. apply Hn. left.
    + intros b. rewrite elem_of_cons, Hmem. split.
      * intros [->|[Hb (c' & Hc' & Hxb)]].
        -- split; [done|]. exists c. split; [left | done].
        -- split; [set_solver|]. exists c'. split; [by right | done].
      * intros [Hb (c' & Hc' & Hxb)].
        destruct (decide (b = b0)) as [->|Hne]; [by left | right].
        split; [set_solver|]. exists c'. split; [|done].
        apply elem_of_cons in Hc' as [->|Hc']; [|done]. unfold xb in *. congruence.
Qed.
End skip.


Section enumeration.
Context {Data : Type} `{EqDecision Data}.
Implicit Types (p : Program Data) (c : list (Binding Data)).

Lemma elem_of_product {A} (ls : list (list A)) (xs : list A) :
  xs ∈ product ls ↔ Forall2 (λ x l, x ∈ l) xs ls.
Proof.
  revert xs. induction ls as [|l ls IH]; intros xs; simpl.
  - rewrite list_elem_of_singleton. split; [intros ->; constructor | by intros ->%Forall2_nil_inv_r].
  - rewrite list_elem_of_bind. split.
    + intros (x & (ys & -> & Hys)%list_elem_of_fmap & Hx).
      constructor; [done | by apply IH].
    + intros (x & ys & Hx & Hys & ->)%Forall2_cons_inv_r.
      exists x. split; [|done]. apply list_elem_of_fmap. exists ys. by rewrite IH.
Qed.

Lemma elem_of_bindings p var b :
  b ∈ bindings p var ↔
  ∃ o, b = mkBinding var (index b) o ∧ (var_bindings p !!! var) !! index b = Some o.
Proof.
  unfold bindings. rewrite elem_of_lookup_imap. split.
  - intros (i & o & -> & Hi). by exists o.
  - intros (o & -> & Hi). by exists (index b), o.
Qed.

Lemma bindings_variable p var b : b ∈ bindings p var → variable b = var.
Proof. rewrite elem_of_bindings. by intros (o & -> & _). Qed.

Lemma product_variables p variables c :
  c ∈ product (bindings p <$> variables) → variable <$> c = variables.
Proof.
  rewrite elem_of_product. revert c.
  induction variables as [|var variables IH]; intros c; simpl.
  - by intros ->%Forall2_nil_inv_r.
  - intros (b & bs & Hb & Hbs & ->)%Forall2_cons_inv_r. simpl.
    f_equal; [by eapply bindings_variable | by apply IH].
Qed.
End enumeration.


Section get_views_facts.
Context {Data : Type} `{EqDecision Data} {S : Type}.
Variable node : Node Data.
Variable consumer : S → View Data → S * Response.
Implicit Types (p : Program Data) (c : list (Binding Data)).

Lemma fallback_combination_spec variables : ∀ p c p',
  fallback_combination node variables p = (c, p') →
  errorlog p' = errorlog p
  ∧ (∀ var, var_bindings p' !!! var =
            var_bindings p !!! var
            ++ replicate (length (filter (var =.) variables)) (default_origin node))
  ∧ Forall2 (λ var b, variable b = var ∧ origin b = (default_origin node)
                      ∧ b ∈ bindings p' var) variables c.
Proof.
  induction variables as [|v rest IH]; intros p c p' Hrun; simpl in Hrun.
  - injection Hrun as <- <-. split_and!; [done| |constructor].
    intros var. simpl. by rewrite app_nil_r.
  - destruct (fallback_combination node rest _) as [bs p1] eqn:Hrest.
    injection Hrun as <- <-.
    apply IH in Hrest as (Hlog & Hstore & Hbs). simpl in Hlog, Hstore.
    split_and!; [done| |constructor; [|done]].
    + intros var. rewrite Hstore, filter_cons.
      destruct (decide (var = v)) as [->|Hne].
      * rewrite lookup_total_insert_eq. simpl. by rewrite <-app_assoc.
      * by rewrite lookup_total_insert_ne.
    + split_and!; [done..|]. apply elem_of_bindings. simpl.
      exists (default_origin node). split; [done|].
      rewrite Hstore, lookup_total_insert_eq, <-app_assoc.
      by apply list_lookup_middle.
Qed.

Lemma combinations_of_variables limit variables p :
  ∃ combinations p',
    combinations_of node limit variables p = inr (combinations, p')
    ∧ ∀ c, c ∈ combinations → variable <$> c = variables.
Proof.
  unfold combinations_of, deep_variable_product. case_decide; simpl.
  - eexists _, _. split; [done|]. apply product_variables.
  - destruct (fallback_combination node variables p) as [c p'] eqn:Hfb.
    eexists _, _. split; [done|]. intros c' ->%list_elem_of_singleton.
    apply fallback_combination_spec in Hfb as (_ & _ & Hc).
    clear -Hc. induction Hc as [|var b ? ? [Hb _]]; simpl; [done|]. by f_equal.
Qed.

Lemma views_loop_no_skip combinations s :
  (∀ s view, skip_future (consumer s view).2 = false) →
  views_loop node consumer [] s combinations = view_of <$> surviving node combinations.
Proof.
  intros Hno. revert s. unfold surviving.
  induction combinations as [|c rest IH]; intros s; [done|].
  cbn [views_loop existsb]. rewrite filter_cons.
  destruct (CanHaveCombination node _) eqn:Hok; cbn [negb].
  - rewrite decide_True by done.
    destruct (consumer s (view_of c)) as [s' r] eqn:Hresp.
    specialize (Hno s (view_of c)). rewrite Hresp in Hno. simpl in Hno.
    rewrite Hno, fmap_cons. f_equal. apply IH.
  - rewrite decide_False by done. apply IH.
Qed.

Lemma view_fold_NoDup c : ∀ d : View Data,
  NoDup (Dict.keys d ++ (variable <$> c)) →
  foldl (λ d value, Dict.set (variable value) value d) d c
  = d ++ ((λ b, (variable b, b)) <$> c).
Proof.
  induction c as [|b c IH]; intros d Hnd; simpl.
  - by rewrite app_nil_r.
  - rewrite IH.
    + rewrite set_fresh, <-app_assoc; [done|].
      apply NoDup_app in Hnd as (_ & Hdis & _). intros Hin.
      apply (Hdis _ Hin). left.
    + rewrite keys_set, bool_decide_eq_false_2, <-app_assoc; [done|].
      apply NoDup_app in Hnd as (_ & Hdis & _). intros Hin.
      apply (Hdis _ Hin). left.
Qed.

Lemma values_view_of c :
  NoDup (variable <$> c) → Dict.values (view_of c) = c.
Proof.
  intros Hnd. unfold view_of, Dict.values. rewrite view_fold_NoDup by done.
  simpl. rewrite <-list_fmap_compose. apply list_fmap_id.
Qed.

Lemma filter_ext_elem {A} (P Q : A → Prop)
    `{∀ x, Decision (P x), ∀ x, Decision (Q x)} (l : list A) :
  (∀ x, x ∈ l → P x ↔ Q x) → filter P l = filter Q l.
Proof.
  induction l as [|x l IH]; intros Hext; [done|]. rewrite !filter_cons.
  rewrite IH by (intros y Hy; apply Hext; by right).
  destruct (Hext x) as [HPQ HQP]; [left|].
  repeat case_decide; naive_solver.
Qed.

Lemma filter_all {A} (P : A → Prop) `{∀ x, Decision (P x)} (l : list A) :
  (∀ x, x ∈ l → P x) → filter P l = l.
Proof.
  induction l as [|x l IH]; intros Hall; [done|]. rewrite filter_cons.
  rewrite decide_True by (apply Hall; left).
  f_equal. apply IH. intros y Hy. apply Hall. by right.
Qed.

Lemma filter_none {A} (P : A → Prop) `{∀ x, Decision (P x)} (l : list A) :
  (∀ x, x ∈ l → ¬ P x) → filter P l = [].
Proof.
  induction l as [|x l IH]; intros Hall; [done|]. rewrite filter_cons.
  rewrite decide_False by (apply Hall; left).
  apply IH. intros y Hy. apply Hall. by right.
Qed.

Lemma surviving_NoDup variables combinations :
  NoDup variables →
  (∀ c, c ∈ combinations → variable <$> c = variables) →
  surviving node combinations
  = filter (λ c, CanHaveCombination node c = true) combinations.
Proof.
  intros Hnd Hvars. unfold surviving. apply filter_ext_elem.
  intros c Hc. rewrite values_view_of; [done|]. by rewrite (Hvars c Hc).
Qed.

Lemma length_filter_true_false {A} (f : A → bool) (l : list A) :
  length (filter (λ x, f x = true) l) + length (filter (λ x, f x = false) l)
  = length l.
Proof.
  induction l as [|x l IH]; [done|]. rewrite !filter_cons.
  destruct (f x); simpl; lia.
Qed.

Lemma view_fold_elem c : ∀ (view : View Data) k b,
  (k, b) ∈ foldl (λ d value, Dict.set (variable value) value d) view c →
  (k, b) ∈ view ∨ (b ∈ c ∧ variable b = k).
Proof.
  assert (Hset : ∀ k' (v : Binding Data) (d : View Data) k b,
    (k, b) ∈ Dict.set k' v d → (k, b) = (k', v) ∨ (k, b) ∈ d).
  { intros k' v d k b. induction d as [|[k0 v0] d IH]; simpl.
    - intros ?%list_elem_of_singleton. by left.
    - case_decide.
      + intros [?|?]%elem_of_cons; [by left | right; by right].
      + intros [->|Hin]%elem_of_cons; [right; by left|].
        destruct (IH Hin); [by left | right; by right]. }
  induction c as [|b0 c IH]; intros view k b; simpl; [by left|].
  intros [[[= -> ->]|Hin]%Hset|[Hin Hvar]]%IH.
  - right. split; [left | done].
  - by left.
  - right. split; [by right | done].
Qed.

Lemma view_of_elem c k b :
  Dict.get k (view_of c) = Some b → b ∈ c ∧ variable b = k.
Proof.
  intros Hget%get_Some_elem.
  apply view_fold_elem in Hget as [?%elem_of_nil|?]; done.
Qed.

Lemma NoDup_bindings p var : NoDup (bindings p var).
Proof.
  unfold bindings. apply (NoDup_fmap_1 index).
  assert (Hidx : ∀ (l : list (Origin Data)) k,
    index <$> imap (λ i, mkBinding var (k + i)) l = seq k (length l)).
  { induction l as [|o0 l IH]; intros k; [done|].
    simpl. rewrite Nat.add_0_r. f_equal.
    rewrite <-(IH (Datatypes.S k)). f_equal. apply imap_ext.
    intros i o' _. simpl. f_equal. lia. }
  rewrite (Hidx _ 0). apply NoDup_seq.
Qed.

(** The bindings that the surviving combinations of the product give to
    [X] are the bindings of [X] that survive the check. *)
Lemma surviving_bindings_reachable X variables p b :
  X ∈ variables →
  b ∈ surviving_bindings node X (product (bindings p <$> variables))
  ↔ b ∈ reachable_bindings node X variables p.
Proof.
  intros HX. unfold surviving_bindings, reachable_bindings, surviving.
  rewrite elem_of_remove_dups, list_elem_of_omap, list_elem_of_filter.
  split.
  - intros (c & [Hok Hc]%list_elem_of_filter & Hget). split.
    + apply existsb_exists. exists c. split; [by apply list_elem_of_In|].
      by rewrite Hok, bool_decide_eq_true_2.
    + destruct (view_of_elem _ _ _ Hget) as [Hb Hvar].
      apply elem_of_product in Hc.
      apply list_elem_of_lookup_1 in Hb as [i Hi].
      destruct (Forall2_lookup_l _ _ _ _ _ Hc Hi) as (bs & Hbs & Hin).
      rewrite list_lookup_fmap in Hbs.
      destruct (variables !! i) as [var|]; [|done]. injection Hbs as <-.
      by rewrite <-Hvar, (bindings_variable _ _ _ Hin).
  - intros [(c & Hc%list_elem_of_In & Hok)%existsb_exists Hb].
    apply andb_true_iff in Hok as [Hget%bool_decide_eq_true Hok].
    exists c. split; [|done]. by apply list_elem_of_filter.
Qed.

(** What a consumer that reads [X] only and always skips is handed, for
    any combinations that all hold the variable [X]. *)
Lemma views_loop_skip_count X combinations s :
  (∀ s view, skip_future (consumer s view).2 = true
             ∧ ∀ k, k ∈ reads (consumer s view).2 ↔ k = X) →
  (∀ c, c ∈ combinations → is_Some (Dict.get X (view_of c))) →
  let views := views_loop node consumer [] s combinations in
  length views = length (surviving_bindings node X combinations)
  ∧ NoDup (Dict.get X <$> views)
  ∧ (∀ view, view ∈ views → is_Some (Dict.get X view))
  ∧ ∀ b, Some b ∈ Dict.get X <$> views
         ↔ b ∈ surviving_bindings node X combinations.
Proof.
  intros Hconsumer Hkey views. subst views.
  destruct (views_loop_skip node consumer X Hconsumer combinations [] s [])
    as (Y & HY & HndY & HmemY); [done | |].
  { intros c. simpl. split; [done | by intros (b & ?%elem_of_nil & _)]. }
  assert (Hmem : ∀ b, b ∈ Y ↔ b ∈ surviving_bindings node X combinations).
  { intros b. unfold surviving_bindings.
    rewrite HmemY, elem_of_remove_dups, list_elem_of_omap, elem_of_nil. tauto. }
  split_and!.
  - transitivity (length Y).
    + apply (f_equal length) in HY. by rewrite !length_fmap in HY.
    + apply Permutation_length, NoDup_Permutation;
        [done | apply NoDup_remove_dups | done].
  - rewrite HY. by apply NoDup_fmap; [apply _|].
  - intros view Hview.
    apply (list_elem_of_fmap_2 (Dict.get X)) in Hview. rewrite HY in Hview.
    apply list_elem_of_fmap in Hview as (b & -> & _). eauto.
  - intros b. rewrite HY, <-Hmem. split.
    + by intros (b' & [= ->] & ?)%list_elem_of_fmap.
    + intros Hb. by apply list_elem_of_fmap_2.
Qed.

(** C1.  A consumer that reads only the variable [X] from every view and
    always answers "skip" is handed exactly as many views as there are
    bindings of [X] that survive the node's combination check, that is
    bindings of [X] that occur in a combination which the node accepts;
    the views give [X] exactly these bindings, and no two yielded views give
    [X] the same binding.  This is so when the product of the bindings is
    within the complexity cap; beyond the cap the one combination of
    default bindings is yielded when the node accepts it. *)
Theorem get_views_skip_count (X : VarId) limit variables s p :
  X ∈ variables →
  (∀ s view, skip_future (consumer s view).2 = true
             ∧ ∀ k, k ∈ reads (consumer s view).2 ↔ k = X) →
  let combinations := product (bindings p <$> variables) in
  (length combinations ≤ limit →
   ∃ views,
     get_views node consumer limit variables s p = inr (views, p)
     ∧ length views = length (reachable_bindings node X variables p)
     ∧ NoDup (Dict.get X <$> views)
     ∧ (∀ view, view ∈ views → is_Some (Dict.get X view))
     ∧ ∀ b, Some b ∈ Dict.get X <$> views
            ↔ b ∈ reachable_bindings node X variables p)
  ∧ (limit < length combinations →
     let cp := fallback_combination node variables p in
     ∃ views,
       get_views node consumer limit variables s p = inr (views, cp.2)
       ∧ length views
         = (if CanHaveCombination node (Dict.values (view_of cp.1))
            then 1 else 0)
       ∧ ∀ view, view ∈ views →
           ∃ b, Dict.get X view = Some b ∧ origin b = default_origin node).
Proof.
  intros HX Hconsumer combinations. split.
  - intros Hlimit.
    exists (views_loop node consumer [] s combinations).
    assert (Hkey : ∀ c, c ∈ combinations → is_Some (Dict.get X (view_of c))).
    { intros c Hc. apply view_of_is_Some.
      by rewrite (product_variables p variables c Hc). }
    destruct (views_loop_skip_count X combinations s Hconsumer Hkey)
      as (Hlen & Hnd & Hsome & Hmem).
    split_and!.
    + unfold get_views, combinations_of, deep_variable_product.
      fold combinations. by rewrite decide_True.
    + rewrite Hlen. apply Permutation_length, NoDup_Permutation.
      * apply NoDup_remove_dups.
      * apply NoDup_filter, NoDup_bindings.
      * intros b. by apply surviving_bindings_reachable.
    + done.
    + done.
    + intros b. rewrite Hmem. by apply surviving_bindings_reachable.
  - intros Hlimit cp.
    assert (Hraise : deep_variable_product limit p variables = inl TooComplexError).
    { unfold deep_variable_product. fold combinations.
      rewrite decide_False; [done | lia]. }
    exists (views_loop node consumer [] s [cp.1]).
    split.
    { unfold get_views, combinations_of. rewrite Hraise. fold cp.
      by destruct cp. }
    subst cp.
    destruct (fallback_combination node variables p) as [c p'] eqn:Hfb.
    apply fallback_combination_spec in Hfb as (_ & _ & Hc).
    cbn [fst snd views_loop existsb].
    destruct (CanHaveCombination node (Dict.values (view_of c))); cbn [negb].
    + destruct (consumer s (view_of c)) as [s' r]. split; [done|].
      intros view ->%list_elem_of_singleton.
      assert (Hvars : variable <$> c = variables).
      { clear -Hc. induction Hc as [|var b vars c' [Hv _] _ IH]; [done|].
        rewrite fmap_cons. by f_equal. }
      destruct (proj2 (view_of_is_Some c X)) as [b Hb]; [by rewrite Hvars|].
      exists b. split; [done|].
      apply view_of_elem in Hb as [Hb _].
      apply list_elem_of_lookup_1 in Hb as [i Hi].
      destruct (Forall2_lookup_r _ _ _ _ _ Hc Hi) as (var & _ & _ & Ho & _).
      done.
    + split; [done|]. by intros view ?%elem_of_nil.
Qed.

(** C2.  Two variables with 2 and 3 bindings, a consumer that never asks
    to skip, and a cap that the 6 combinations do not exceed: 6 views are
    yielded when the node accepts every combination, and 5 when it rejects
    exactly one of them. *)
Theorem get_views_count_2_3 limit (v1 v2 : VarId) s p :
  length (bindings p v1) = 2 →
  length (bindings p v2) = 3 →
  6 ≤ limit →
  (∀ s view, skip_future (consumer s view).2 = false) →
  let combinations := product [bindings p v1; bindings p v2] in
  ∃ views,
    get_views node consumer limit [v1; v2] s p = inr (views, p)
    ∧ ((∀ c, c ∈ combinations → CanHaveCombination node c = true) →
       length views = 6)
    ∧ (length (filter (λ c, CanHaveCombination node c = false) combinations) = 1 →
       length views = 5).
Proof.
  intros Hlen1 Hlen2 Hlimit Hno combinations.
  assert (Hne : v1 ≠ v2) by (intros ->; lia).
  assert (Hlen : length combinations = 6).
  { unfold combinations.
    destruct (bindings p v1) as [|a1 [|a2 [|]]]; try done.
    by destruct (bindings p v2) as [|b1 [|b2 [|b3 [|]]]]. }
  assert (Hcomb : combinations_of node limit [v1; v2] p = inr (combinations, p)).
  { unfold combinations_of, deep_variable_product. cbn [fmap list_fmap].
    fold combinations. by rewrite decide_True by lia. }
  exists (view_of <$> surviving node combinations).
  split; [unfold get_views; rewrite Hcomb; simpl; by rewrite views_loop_no_skip|].
  rewrite length_fmap, (surviving_NoDup [v1; v2]).
  2:{ apply NoDup_cons. split; [by intros ?%list_elem_of_singleton|apply NoDup_singleton]. }
  2:{ intros c Hc. by apply (product_variables p [v1; v2]). }
  pose proof (length_filter_true_false (CanHaveCombination node) combinations) as Hsum.
  split.
  - intros Hall. rewrite <-Hlen. f_equal. by apply filter_all.
  - intros Hone. lia.
Qed.

(** C3 as the code has it.  Without variables there is exactly one
    combination, the empty one, whatever the cap: the empty view is yielded
    when the node accepts the empty combination, and nothing is yielded
    otherwise.  The program is left as it was. *)
Theorem get_views_no_variables limit s p :
  get_views node consumer limit [] s p
  = inr (if CanHaveCombination node [] then [[]] else [], p).
Proof.
  assert (Hloop : views_loop node consumer [] s [[]]
                  = if CanHaveCombination node [] then [[]] else []).
  { cbn. destruct (CanHaveCombination node []); [|done].
    by destruct (consumer s []). }
  unfold get_views, combinations_of, deep_variable_product.
  cbn [fmap list_fmap product fallback_combination].
  case_decide; unfold mbind, result_bind, mret, result_ret, raise;
    by rewrite Hloop.
Qed.

Lemma get_views_fallback limit variables s p :
  deep_variable_product limit p variables = inl TooComplexError →
  let cp := fallback_combination node variables p in
  combinations_of node limit variables p = inr ([cp.1], cp.2)
  ∧ get_views node consumer limit variables s p
    = inr (views_loop node consumer [] s [cp.1], cp.2).
Proof.
  intros Hraise cp. unfold get_views, combinations_of. rewrite Hraise.
  subst cp. by destruct (fallback_combination node variables p).
Qed.

(** C9.  When the product raises [TooComplexError], [get_views] returns
    normally, leaves the error log as it was, and iterates over exactly one
    combination, which holds for every input variable, in order, one binding
    of that variable carrying the program's default data. *)
Theorem get_views_too_complex limit variables s p :
  deep_variable_product limit p variables = inl TooComplexError →
  ∃ c p',
    combinations_of node limit variables p = inr ([c], p')
    ∧ get_views node consumer limit variables s p
      = inr (views_loop node consumer [] s [c], p')
    ∧ errorlog p' = errorlog p
    ∧ Forall2 (λ var b, variable b = var ∧ data b = default_data node
                        ∧ b ∈ bindings p' var) variables c.
Proof.
  intros Hraise.
  destruct (get_views_fallback limit variables s p Hraise) as [Hcomb Hviews].
  destruct (fallback_combination node variables p) as [c p'] eqn:Hfb.
  exists c, p'. split; [done|]. split; [done|].
  apply fallback_combination_spec in Hfb as (Hlog & _ & Hc). split; [done|].
  eapply Forall2_impl; [exact Hc|]. intros var b (Hvar & Hor & Hin).
  unfold data. by rewrite Hor.
Qed.

(** C10.  In the too-complex fallback every occurrence of a variable in
    the input appends one binding record to that variable: the program's
    default data, no sources, made at the given node.  For an input without
    repetitions each input variable gains exactly that one binding, and all
    other variables keep their bindings. *)
Theorem get_views_fallback_adds_bindings limit variables s p :
  deep_variable_product limit p variables = inl TooComplexError →
  ∃ views p',
    get_views node consumer limit variables s p = inr (views, p')
    ∧ (∀ var, var_bindings p' !!! var =
              var_bindings p !!! var
              ++ replicate (length (filter (var =.) variables)) (default_origin node))
    ∧ (NoDup variables → ∀ var, var ∈ variables →
       bindings p' var =
       bindings p var ++ [mkBinding var (length (bindings p var)) (default_origin node)])
    ∧ (∀ var, var ∉ variables → bindings p' var = bindings p var).
Proof.
  intros Hraise.
  destruct (get_views_fallback limit variables s p Hraise) as [_ Hviews].
  destruct (fallback_combination node variables p) as [c p'] eqn:Hfb.
  exists (views_loop node consumer [] s [c]), p'. split; [done|].
  apply fallback_combination_spec in Hfb as (_ & Hstore & _).
  split; [done|]. split.
  - intros Hnd var Hvar. unfold bindings. rewrite Hstore.
    replace (length (filter (var =.) variables)) with 1.
    + rewrite imap_app, length_imap. simpl. by rewrite Nat.add_0_r.
    + clear -Hnd Hvar. induction Hnd as [|v vs Hnin Hnd IH]; [by apply elem_of_nil in Hvar|].
      rewrite filter_cons. apply elem_of_cons in Hvar as [->|Hvar].
      * rewrite decide_True by done. simpl. f_equal. symmetry.
        rewrite filter_none; [done|]. by intros x Hx ->.
      * rewrite decide_False by (by intros ->). by apply IH.
  - intros var Hvar. unfold bindings. rewrite Hstore.
    replace (filter (var =.) variables) with (@nil VarId); [by rewrite app_nil_r|].
    symmetry. apply filter_none. by intros x Hx ->.
Qed.
End get_views_facts.

Section get_views_examples.
Import ViewExamples.

Example views_never_skip :
  (λ r, length r.1) <$> get_views accept_all never_skip 1024 [0; 1] tt two_by_three
  = inr 6.
Proof. vm_compute. reflexivity. Qed.

Example views_one_rejected :
  (λ r, length r.1) <$> get_views reject_first never_skip 1024 [0; 1] tt two_by_three
  = inr 5.
Proof. vm_compute. reflexivity. Qed.

Example views_skip_on_first :
  (λ r, length r.1) <$> get_views accept_all (read_and_skip 0) 1024 [0; 1] tt two_by_three
  = inr 2.
Proof. vm_compute. reflexivity. Qed.

Example views_skip_on_second :
  (λ r, length r.1) <$> get_views accept_all (read_and_skip 1) 1024 [0; 1] tt two_by_three
  = inr 3.
Proof. vm_compute. reflexivity. Qed.

Example views_too_complex :
  (λ r, map (map (λ kv, (kv.1, index kv.2, data kv.2))) r.1)
    <$> get_views accept_all never_skip 5 [0; 1] tt two_by_three
  = inr [[(0, 2, 99); (1, 3, 99)]].
Proof. vm_compute. reflexivity. Qed.
End get_views_examples.

Section get_views_witnesses.
Import ViewExamples.

Lemma get_views_skip_count_witness :
  (∃ views,
     get_views accept_all (read_and_skip 0) 1024 [0; 1] tt two_by_three
     = inr (views, two_by_three)
     ∧ length views = 2
     ∧ NoDup (Dict.get 0 <$> views))
  ∧ (∃ views,
     get_views reject_first (read_and_skip 1) 1024 [0; 1] tt two_by_three
     = inr (views, two_by_three)
     ∧ length views = 3)
  ∧ (∃ views p',
     get_views accept_all (read_and_skip 0) 5 [0; 1] tt two_by_three
     = inr (views, p')
     ∧ length views = 1).
Proof.
  assert (Hconsumer : ∀ X (s : unit) (view : View nat),
    skip_future (read_and_skip X s view).2 = true
    ∧ ∀ k, k ∈ reads (read_and_skip X s view).2 ↔ k = X).
  { intros X s view. simpl. split; [reflexivity|].
    intros k. apply list_elem_of_singleton. }
  split_and!.
  - destruct (get_views_skip_count accept_all (read_and_skip 0) 0 1024 [0; 1] tt
                two_by_three) as [Hsmall _]; [left | apply Hconsumer |].
    destruct Hsmall as (views & Hviews & Hlen & Hnd & _); [vm_compute; lia|].
    exists views. split; [exact Hviews|]. split; [exact Hlen | exact Hnd].
  - destruct (get_views_skip_count reject_first (read_and_skip 1) 1 1024 [0; 1] tt
                two_by_three) as [Hsmall _]; [right; left | apply Hconsumer |].
    destruct Hsmall as (views & Hviews & Hlen & _); [vm_compute; lia|].
    exists views. split; [exact Hviews | exact Hlen].
  - destruct (get_views_skip_count accept_all (read_and_skip 0) 0 5 [0; 1] tt
                two_by_three) as [_ Hlarge]; [left | apply Hconsumer |].
    destruct Hlarge as (views & Hviews & Hlen & _); [vm_compute; lia|].
    eexists views, _. split; [exact Hviews | exact Hlen].
Defined.

Lemma get_views_count_2_3_witness :
  (∃ views,
     get_views accept_all never_skip 1024 [0; 1] tt two_by_three
     = inr (views, two_by_three) ∧ length views = 6)
  ∧ (∃ views,
     get_views reject_first never_skip 1024 [0; 1] tt two_by_three
     = inr (views, two_by_three) ∧ length views = 5).
Proof.
  split.
  - destruct (get_views_count_2_3 accept_all never_skip 1024 0 1 tt two_by_three)
      as (views & Hviews & Hall & _);
      [reflexivity | reflexivity | lia | reflexivity |].
    exists views. split; [exact Hviews|]. apply Hall. reflexivity.
  - destruct (get_views_count_2_3 reject_first never_skip 1024 0 1 tt two_by_three)
      as (views & Hviews & _ & Hone);
      [reflexivity | reflexivity | lia | reflexivity |].
    exists views. split; [exact Hviews|]. apply Hone. vm_compute. reflexivity.
Defined.

(** C3, counterexample.  At a node that accepts every combination,
    enumerating the views of no variables yields one view, the empty one,
    and not the empty sequence. *)
Lemma get_views_no_variables_counterexample :
  get_views accept_all never_skip 1024 [] tt no_variables
  = inr ([[]], no_variables)
  ∧ get_views accept_all never_skip 1024 [] tt no_variables
    ≠ inr ([], no_variables).
Proof. split; [reflexivity | discriminate]. Qed.

Lemma get_views_too_complex_witness :
  ∃ c p',
    combinations_of accept_all 5 [0; 1] two_by_three = inr ([c], p')
    ∧ get_views accept_all never_skip 5 [0; 1] tt two_by_three
      = inr (views_loop accept_all never_skip [] tt [c], p')
    ∧ errorlog p' = errorlog two_by_three
    ∧ Forall2 (λ var b, variable b = var ∧ data b = default_data accept_all
                        ∧ b ∈ bindings p' var) [0; 1] c.
Proof.
  apply (get_views_too_complex accept_all never_skip 5 [0; 1] tt two_by_three).
  vm_compute. reflexivity.
Defined.

Lemma get_views_fallback_adds_bindings_witness :
  ∃ views p',
    get_views accept_all never_skip 5 [0; 1] tt two_by_three = inr (views, p')
    ∧ bindings p' 0 = bindings two_by_three 0 ++ [mkBinding 0 2 (mkOrigin 99 [] 7)]
    ∧ bindings p' 1 = bindings two_by_three 1 ++ [mkBinding 1 3 (mkOrigin 99 [] 7)]
    ∧ bindings p' 2 = bindings two_by_three 2.
Proof.
  destruct (get_views_fallback_adds_bindings accept_all never_skip 5 [0; 1] tt
              two_by_three) as (views & p' & Hviews & _ & Hin & Hout).
  - vm_compute. reflexivity.
  - assert (Hnd : NoDup [0; 1]) by compute_done.
    exists views, p'. split; [exact Hviews|]. split_and!.
    + apply (Hin Hnd 0). left.
    + apply (Hin Hnd 1). right. left.
    + apply Hout. compute_done.
Defined.
End get_views_witnesses.

End ViewFacts.

Module MutationFacts.
Import Mutations.

Lemma apply_loop_started mutations : ∀ node n st,
  n ≠ 0 →
  apply_loop mutations node n st
  = ((node, n + length mutations),
     mkState (cfg_nodes st) (merges st ++ merges_at node mutations)).
Proof.
  induction mutations as [|[obj nm value] rest IH]; intros node n st Hn; simpl.
  - rewrite Nat.add_0_r, app_nil_r. by destruct st.
  - destruct (Nat.eqb_spec n 0) as [|_]; [done|].
    rewrite IH by lia. simpl. rewrite <-app_assoc. do 2 f_equal. lia.
Qed.

Lemma ConnectNew_fresh node label st :
  cfg_wf st → (ConnectNew node label st).1 ∉ cfg_nodes st.
Proof.
  intros Hwf (i & Hi)%list_elem_of_lookup.
  apply lookup_lt_Some in Hi as Hlt. apply Hwf in Hi. simpl in Hi. lia.
Qed.

Lemma ConnectNew_wf node label st :
  cfg_wf st → cfg_wf (ConnectNew node label st).2.
Proof.
  intros Hwf i n. simpl. intros Hi.
  apply lookup_app_Some in Hi as [Hi|[Hlen Hi]]; [by apply Hwf|].
  apply list_lookup_singleton_Some in Hi as [Hi <-]. simpl. lia.
Qed.

(** C8.  An empty batch returns the input node itself and changes nothing.
    A batch with at least one mutation creates exactly one node, by
    [ConnectNew] on the input node before the first mutation is applied;
    every mutation of the batch is merged at that node, in order, and it is
    the node returned.  In a well-formed CFG the node is a new one. *)
Theorem apply_mutations_one_node node mutations st :
  (mutations = [] → apply_mutations node mutations st = (node, st))
  ∧ (mutations ≠ [] →
     ∃ new st1,
       ConnectNew node (name node) st = (new, st1)
       ∧ apply_mutations node mutations st
         = (new, mkState (cfg_nodes st ++ [new])
                         (merges st ++ merges_at new mutations))
       ∧ (cfg_wf st → new ∉ cfg_nodes st)).
Proof.
  split.
  - intros ->. by destruct st.
  - intros Hne. destruct mutations as [|[obj nm value] rest]; [done|].
    eexists _, _. split; [done|]. split.
    + unfold apply_mutations. simpl. rewrite apply_loop_started by lia. simpl.
      by rewrite <-app_assoc.
    + apply ConnectNew_fresh.
Qed.

Example apply_no_mutations :
  apply_mutations body [] two_nodes = (body, two_nodes).
Proof. reflexivity. Qed.

Example apply_two_mutations :
  apply_mutations body two_mutations two_nodes
  = (mkCFGNode 2 "body" [1],
     mkState [root; body; mkCFGNode 2 "body" [1]]
       [mkMergeCall 5 (mkCFGNode 2 "body" [1]) "T" 40;
        mkMergeCall 6 (mkCFGNode 2 "body" [1]) "K" 41]).
Proof. reflexivity. Qed.

Lemma apply_mutations_one_node_witness :
  apply_mutations body [] two_nodes = (body, two_nodes)
  ∧ ∃ new st1,
      ConnectNew body (name body) two_nodes = (new, st1)
      ∧ apply_mutations body two_mutations two_nodes
        = (new, mkState (cfg_nodes two_nodes ++ [new])
                        (merges two_nodes ++ merges_at new two_mutations))
      ∧ new ∉ cfg_nodes two_nodes.
Proof.
  split.
  - apply (apply_mutations_one_node body [] two_nodes). reflexivity.
  - destruct (apply_mutations_one_node body two_mutations two_nodes)
      as [_ (new & st1 & Hnew & Hrun & Hfresh)]; [discriminate|].
    exists new, st1. split; [exact Hnew|]. split; [exact Hrun|].
    apply Hfresh. intros [|[|i]] node; simpl; intros [= <-]; reflexivity.
Defined.

End MutationFacts.

Module MergeTypeFacts.
Import Abstract.

(** C5.  Merging two values bound to the same type-parameter name: when the
    first is absent or the unknown placeholder the second is returned as it
    is, and likewise the first when the second is; of two proper values the
    one whose linearization contains the other is returned; in every other
    case [GenericTypeError] is raised with a message that names the
    parameter. *)
Theorem merge_type_cases h (t0 t1 : option ObjId) (name : string) (cls : ObjId) :
  (is_None_or_Unsolvable h t0 = true →
   _merge_type h t0 t1 name cls = inr t1)
  ∧ (is_None_or_Unsolvable h t0 = false →
     is_None_or_Unsolvable h t1 = true →
     _merge_type h t0 t1 name cls = inr t0)
  ∧ (∀ v0 v1,
       t0 = Some v0 → t1 = Some v1 →
       isinstance_Unsolvable h v0 = false →
       isinstance_Unsolvable h v1 = false →
       (v0 ∈ mro h v1 → _merge_type h t0 t1 name cls = inr (Some v1))
       ∧ (v0 ∉ mro h v1 → v1 ∈ mro h v0 →
          _merge_type h t0 t1 name cls = inr (Some v0))
       ∧ (v0 ∉ mro h v1 → v1 ∉ mro h v0 →
          _merge_type h t0 t1 name cls
          = inl (GenericTypeError cls ("Conflicting value for TypeVar " +:+ name)))).
Proof.
  unfold _merge_type. split_and!.
  - by intros ->.
  - by intros -> ->.
  - intros v0 v1 -> -> Hv0 Hv1. simpl. rewrite Hv0, Hv1. split_and!.
    + intros Hin. by rewrite bool_decide_eq_true_2.
    + intros Hnin Hin. by rewrite bool_decide_eq_false_2, bool_decide_eq_true_2.
    + intros Hnin0 Hnin1. by rewrite !bool_decide_eq_false_2.
Qed.

(** The result is one of the operands whenever there is one. *)
Lemma merge_type_operand h t0 t1 name cls t :
  _merge_type h t0 t1 name cls = inr t → t = t0 ∨ t = t1.
Proof.
  unfold _merge_type. repeat case_match; intros [=]; auto.
Qed.

Section examples.
Import ClassExamples.

Example merge_with_wildcard :
  _merge_type mro_heap (Some 12) (Some 99) "K" 13 = inr (Some 12)
  ∧ _merge_type mro_heap (Some 99) (Some 12) "K" 13 = inr (Some 12)
  ∧ _merge_type mro_heap None (Some 12) "K" 13 = inr (Some 12).
Proof. done. Qed.

Example merge_unrelated :
  _merge_type mro_heap (Some 12) (Some 22) "K" 13
  = inl (GenericTypeError 13 "Conflicting value for TypeVar K").
Proof. done. Qed.

Lemma merge_type_cases_witness :
  _merge_type mro_heap (Some 99) (Some 12) "K" 13 = inr (Some 12)
  ∧ _merge_type mro_heap (Some 12) None "K" 13 = inr (Some 12)
  ∧ _merge_type mro_heap (Some 0) (Some 12) "K" 13 = inr (Some 12)
  ∧ _merge_type mro_heap (Some 12) (Some 0) "K" 13 = inr (Some 12)
  ∧ _merge_type mro_heap (Some 12) (Some 22) "K" 13
    = inl (GenericTypeError 13 "Conflicting value for TypeVar K").
Proof.
  split_and!.
  - apply (merge_type_cases mro_heap (Some 99) (Some 12) "K" 13). reflexivity.
  - apply (merge_type_cases mro_heap (Some 12) None "K" 13); reflexivity.
  - destruct (merge_type_cases mro_heap (Some 0) (Some 12) "K" 13)
      as (_ & _ & Hproper).
    apply (Hproper 0 12); try reflexivity. compute_done.
  - destruct (merge_type_cases mro_heap (Some 12) (Some 0) "K" 13)
      as (_ & _ & Hproper).
    apply (Hproper 12 0); try reflexivity; compute_done.
  - destruct (merge_type_cases mro_heap (Some 12) (Some 22) "K" 13)
      as (_ & _ & Hproper).
    apply (Hproper 12 22); try reflexivity; compute_done.
Defined.
End examples.

End MergeTypeFacts.

Module AbstractMethodFacts.
Import Abstract.

Section sweep.
Variable h : Heap.

(** When the attribute [abstract_methods] of a class agrees with the
    class's own declaration on the names that the class declares, a round
    of the loop is a round of the sweep that the spec describes. *)
Lemma sweep_step_spec (abstract_methods_of : ObjId → gset string)
    (running : gset string) (cls : ObjId) :
  own_abstract_methods h cls ⊆ members h cls →
  (∀ m, m ∈ members h cls →
        m ∈ abstract_methods_of cls ↔ m ∈ own_abstract_methods h cls) →
  sweep_step h abstract_methods_of running cls = spec_sweep_step h running cls.
Proof.
  intros Hown Hcache. unfold sweep_step, spec_sweep_step.
  destruct (isinstance_Class h cls); [|done].
  apply set_eq. intros m. rewrite !elem_of_union, !elem_of_filter.
  specialize (Hcache m).
  destruct (decide (m ∈ members h cls)) as [Hm|Hm]; [|set_solver].
  destruct (decide (m ∈ own_abstract_methods h cls)); set_solver.
Qed.

Lemma foldl_ext_elem {A B} (f g : A → B → A) (l : list B) (a : A) :
  (∀ a x, x ∈ l → f a x = g a x) → foldl f a l = foldl g a l.
Proof.
  revert a. induction l as [|x l IH]; intros a Hext; simpl; [done|].
  rewrite Hext by left. apply IH. intros a' y Hy. apply Hext. by right.
Qed.

Lemma init_abstract_methods_lookup self st :
  _init_abstract_methods h self st !!! self
  = foldl (sweep_step h (λ cls, <[self := own_abstract_methods h self]> st !!! cls))
          ∅ (reverse (mro h self)).
Proof. unfold _init_abstract_methods. by rewrite lookup_total_insert_eq. Qed.

Lemma init_abstract_methods_other self cls st :
  cls ≠ self → _init_abstract_methods h self st !!! cls = st !!! cls.
Proof.
  intros Hne. unfold _init_abstract_methods.
  by rewrite !lookup_total_insert_ne.
Qed.

Lemma init_abstract_methods_spec self st :
  (∀ cls, cls ∈ mro h self → own_abstract_methods h cls ⊆ members h cls) →
  (∀ cls m, cls ∈ mro h self → cls ≠ self → m ∈ members h cls →
            m ∈ st !!! cls ↔ m ∈ own_abstract_methods h cls) →
  _init_abstract_methods h self st !!! self = abstract_methods_spec h self.
Proof.
  intros Hown Hcache. rewrite init_abstract_methods_lookup.
  apply foldl_ext_elem. intros running cls Hcls. rewrite elem_of_reverse in Hcls.
  apply sweep_step_spec; [by apply Hown|]. intros m Hm.
  destruct (decide (cls = self)) as [->|Hne].
  - by rewrite lookup_total_insert_eq.
  - rewrite lookup_total_insert_ne by done. by apply Hcache.
Qed.

(** The agreement that [init_abstract_methods_spec] asks of the ancestors
    is what the function establishes for the class it initializes. *)
Lemma init_abstract_methods_cache self rest st m :
  mro h self = self :: rest →
  isinstance_Class h self = true →
  m ∈ members h self →
  m ∈ _init_abstract_methods h self st !!! self ↔ m ∈ own_abstract_methods h self.
Proof.
  intros Hmro Hclass Hm. rewrite init_abstract_methods_lookup, Hmro.
  rewrite reverse_cons, foldl_app. simpl. unfold sweep_step at 1.
  rewrite Hclass, lookup_total_insert_eq.
  rewrite elem_of_union, !elem_of_filter. tauto.
Qed.
End sweep.

Section examples.
Import ClassExamples.

Example leaf_has_no_abstract_methods :
  init_classes abc_heap [0; 1; 2; 3; 4] !!! 3 = (∅ : gset string).
Proof. vm_compute. reflexivity. Qed.

Example leaf2_has_abstract_f :
  init_classes abc_heap [0; 1; 2; 3; 4] !!! 4 = ({["f"]} : gset string).
Proof. vm_compute. reflexivity. Qed.
End examples.

(** C7.  The abstract-method set that [_init_abstract_methods] stores for a
    class is the result of one sweep over the linearization, from the most
    general ancestor to the class itself, in which a name leaves the running
    set when the ancestor declares an attribute of that name without
    re-marking it abstract, and the ancestor's own abstract methods are
    added; this holds when the abstract methods that a class declares are
    among its attributes and the ancestors have been initialized before.
    With [Base] declaring abstract [f], [Mid(Base)] implementing [f],
    [Leaf(Mid)] and [Leaf2(Base)] declaring nothing, the set of [Leaf] is
    empty and the set of [Leaf2] is [{f}]. *)
Theorem abstract_methods_sweep :
  (∀ h self st,
     (∀ cls, cls ∈ mro h self → own_abstract_methods h cls ⊆ members h cls) →
     (∀ cls m, cls ∈ mro h self → cls ≠ self → m ∈ members h cls →
               m ∈ st !!! cls ↔ m ∈ own_abstract_methods h cls) →
     _init_abstract_methods h self st !!! self = abstract_methods_spec h self)
  ∧ init_classes ClassExamples.abc_heap [0; 1; 2; 3; 4] !!! 3 = (∅ : gset string)
  ∧ init_classes ClassExamples.abc_heap [0; 1; 2; 3; 4] !!! 4
    = ({["f"]} : gset string).
Proof.
  split_and!.
  - apply init_abstract_methods_spec.
  - vm_compute. reflexivity.
  - vm_compute. reflexivity.
Qed.

Lemma abstract_methods_sweep_witness :
  _init_abstract_methods ClassExamples.abc_heap 3
    (init_classes ClassExamples.abc_heap [0; 1; 2]) !!! 3
  = abstract_methods_spec ClassExamples.abc_heap 3.
Proof.
  apply (proj1 abstract_methods_sweep).
  - intros cls Hcls. simpl in Hcls.
    repeat (apply elem_of_cons in Hcls as [->|Hcls]); try compute_done.
    by apply elem_of_nil in Hcls.
  - intros cls m Hcls Hne Hm. simpl in Hcls.
    repeat (apply elem_of_cons in Hcls as [->|Hcls]); try done;
      try (by apply elem_of_nil in Hcls); simpl in Hm;
      try (by apply not_elem_of_empty in Hm);
      apply elem_of_singleton in Hm as ->; split; intros _; compute_done.
Defined.

End AbstractMethodFacts.

Module MergeFacts.
Import Abstract.

Section merge_facts.
Context {A : Type} `{EqDecision A}.
Implicit Types (seqs : list (list A)).

Lemma eligible_head_elem seqs i cand :
  eligible_head seqs i = Some cand → cand ∈ mjoin seqs.
Proof.
  unfold eligible_head. destruct (seqs !! i) as [[|x s]|] eqn:Hi; try done.
  case_match; [|done]. intros [= ->].
  apply list_elem_of_lookup_2 in Hi.
  apply list_elem_of_join. exists (cand :: s). split; [left | done].
Qed.

Lemma select_elem seqs cand : select seqs = Some cand → cand ∈ mjoin seqs.
Proof.
  unfold select. intros Hhead.
  assert (Hin : cand ∈ omap (eligible_head seqs) (seq 0 (length seqs))).
  { destruct (omap _ _); simplify_eq/=. left. }
  apply list_elem_of_omap in Hin as (i & _ & Hi). by eapply eligible_head_elem.
Qed.

Lemma remove_everywhere_elem cand seqs x :
  x ∈ mjoin (remove_everywhere cand seqs) → x ∈ mjoin seqs.
Proof.
  unfold remove_everywhere. rewrite !list_elem_of_join.
  intros (s' & Hx & (s & -> & Hs)%list_elem_of_fmap).
  apply list_elem_of_filter in Hx as [_ Hx]. eauto.
Qed.

Lemma merge_loop_elem fuel : ∀ seqs res x,
  merge_loop fuel seqs = inr res → x ∈ res → x ∈ mjoin seqs.
Proof.
  induction fuel as [|fuel IH]; intros seqs res x; simpl; [done|].
  case_match; [intros [= <-] ?%elem_of_nil; done|].
  destruct (select seqs) as [cand|] eqn:Hsel; [|done].
  destruct (merge_loop fuel _) as [e|res'] eqn:Hrec; [done|].
  intros [= <-] [->|Hx]%elem_of_cons.
  - by apply select_elem.
  - eapply remove_everywhere_elem, IH; eauto.
Qed.

Lemma join_remove_everywhere cand seqs :
  mjoin (remove_everywhere cand seqs) = filter (λ x, x ≠ cand) (mjoin seqs).
Proof.
  unfold remove_everywhere. induction seqs as [|s seqs IH]; [done|].
  change (filter (λ x, x ≠ cand) s ++ mjoin (filter (λ x, x ≠ cand) <$> seqs)
          = filter (λ x, x ≠ cand) (s ++ mjoin seqs)).
  by rewrite filter_app, IH.
Qed.

Lemma select_decreases seqs cand :
  select seqs = Some cand →
  length (mjoin (remove_everywhere cand seqs)) < length (mjoin seqs).
Proof.
  intros Hsel%select_elem. rewrite join_remove_everywhere.
  by apply (length_filter_lt _ _ cand); [|intros ?].
Qed.

(** The bound on the rounds is never what stops the merge: any two
    bounds above the number of elements give the same result. *)
Lemma merge_loop_fuel n : ∀ m seqs,
  length (mjoin seqs) < n → length (mjoin seqs) < m →
  merge_loop n seqs = merge_loop m seqs.
Proof.
  induction n as [|n IH]; intros m seqs Hn Hm; [lia|].
  destruct m as [|m]; [lia|]. simpl.
  case_match; [done|].
  destruct (select seqs) as [cand|] eqn:Hsel; [|done].
  apply select_decreases in Hsel. by rewrite (IH m) by lia.
Qed.

Lemma MROMerge_elem seqs res x :
  MROMerge seqs = inr res → x ∈ res → x ∈ mjoin seqs.
Proof.
  unfold MROMerge, MergeSequences.
  destruct (merge_loop _ seqs) as [e|res'] eqn:Hrec; [done|].
  intros [= <-]. by eapply merge_loop_elem.
Qed.
End merge_facts.

Lemma mapM_result_total {A B} (f : A → result B) (g : A → B) (l : list A) :
  (∀ x, x ∈ l → f x = inr (g x)) → mapM f l = inr (g <$> l).
Proof.
  induction l as [|x l IH]; intros Hf; simpl; [done|].
  rewrite Hf by left. simpl. rewrite IH; [done|].
  intros y Hy. apply Hf. by right.
Qed.

End MergeFacts.

Module MroFacts.
Import Abstract DictFacts MergeFacts.

Section mro_facts.
Variable h : Heap.

Lemma unwrap_row_spec (row : list ObjId) : ∀ base2cls baselist,
  foldl (λ '(base2cls, baselist) base,
           if isinstance_ParameterizedClass h base
           then (Dict.set (base_cls h base) base base2cls,
                 baselist ++ [base_cls h base])
           else (Dict.set base base base2cls, baselist ++ [base]))
        (base2cls, baselist) row
  = (record_all h base2cls row, baselist ++ (unwrap h <$> row)).
Proof.
  induction row as [|base row IH]; intros base2cls baselist.
  - simpl. by rewrite app_nil_r.
  - rewrite fmap_cons. cbn [foldl].
    replace (if isinstance_ParameterizedClass h base
             then (Dict.set (base_cls h base) base base2cls,
                   baselist ++ [base_cls h base])
             else (Dict.set base base base2cls, baselist ++ [base]))
      with (Dict.set (unwrap h base) base base2cls, baselist ++ [unwrap h base])
      by (unfold unwrap; by destruct (isinstance_ParameterizedClass h base)).
    rewrite IH. unfold record_all. cbn [foldl]. by rewrite <-app_assoc.
Qed.

Lemma unwrap_rows_spec (rows : list (list ObjId)) : ∀ base2cls newbases,
  foldl (λ '(base2cls, newbases) row,
           let '(base2cls, baselist) := unwrap_row h base2cls row in
           (base2cls, newbases ++ [baselist]))
        (base2cls, newbases) rows
  = (record_all h base2cls (mjoin rows),
     newbases ++ ((λ row : list ObjId, unwrap h <$> row) <$> rows)).
Proof.
  induction rows as [|row rows IH]; intros base2cls newbases.
  - simpl. by rewrite app_nil_r.
  - rewrite fmap_cons. cbn [foldl mjoin list_join]. unfold unwrap_row.
    rewrite unwrap_row_spec, IH. cbn [app].
    unfold record_all. by rewrite foldl_app, <-app_assoc.
Qed.

Lemma get_record_all base l : ∀ base2cls,
  Dict.get base (record_all h base2cls l)
  = match last (filter (λ b, unwrap h b = base) l) with
    | Some b => Some b
    | None => Dict.get base base2cls
    end.
Proof.
  induction l as [|b l IH] using rev_ind; intros base2cls; [done|].
  unfold record_all. rewrite foldl_app. simpl. rewrite get_set, filter_app.
  rewrite filter_cons, filter_nil.
  destruct (decide (base = unwrap h b)) as [->|Hne].
  - rewrite decide_True by done. by rewrite last_snoc.
  - rewrite decide_False by done. rewrite app_nil_r. apply IH.
Qed.
Lemma elem_of_unwrapped (rows : list (list ObjId)) x :
  x ∈ mjoin ((λ row : list ObjId, unwrap h <$> row) <$> rows)
  ↔ ∃ b, b ∈ mjoin rows ∧ unwrap h b = x.
Proof.
  rewrite list_elem_of_join. setoid_rewrite list_elem_of_join. split.
  - intros (row' & Hx & (row & -> & Hrow)%list_elem_of_fmap).
    apply list_elem_of_fmap in Hx as (b & -> & Hb). eauto.
  - intros (b & (row & Hb & Hrow) & <-). exists (unwrap h <$> row).
    split; [by apply list_elem_of_fmap_2|].
    by apply (list_elem_of_fmap_2 (λ row : list ObjId, unwrap h <$> row)).
Qed.

Lemma last_association_elem (rows : list (list ObjId)) base :
  base ∈ mjoin rows →
  ∃ b, last (filter (λ b, unwrap h b = unwrap h base) (mjoin rows)) = Some b
       ∧ b ∈ mjoin rows ∧ unwrap h b = unwrap h base.
Proof.
  intros Hbase.
  destruct (last (filter (λ b, unwrap h b = unwrap h base) (mjoin rows)))
    as [b|] eqn:Hlast.
  - exists b. split; [done|].
    by apply last_Some_elem_of, list_elem_of_filter in Hlast as [? ?].
  - apply last_None in Hlast.
    by apply (filter_nil_not_elem_of _ _ base) in Hlast.
Qed.

(** C4 as the code has it.  The merge runs over the unwrapped classes,
    and every class of the merged order is then replaced by the value that
    its last occurrence in the merged rows came with: the wrapper of the
    last parameterized occurrence, or the class itself when it occurred
    unwrapped last.  The value restored is one of the original values of
    that class. *)
Theorem compute_mro_restores_last self :
  let rows := mro_rows h self in
  compute_mro h self
  = (merged ← MROMerge ((λ row : list ObjId, unwrap h <$> row) <$> rows);
     mret (last_association h rows <$> merged))
  ∧ ∀ base, base ∈ mjoin rows →
      last_association h rows (unwrap h base) ∈ mjoin rows
      ∧ unwrap h (last_association h rows (unwrap h base)) = unwrap h base.
Proof.
  intros rows. split.
  - unfold compute_mro, unwrap_rows. fold rows.
    rewrite unwrap_rows_spec. cbn [app].
    destruct (MROMerge _) as [e|merged] eqn:Hmerge; [done|].
    change (mapM (subscript (record_all h [] (mjoin rows))) merged
            = inr (last_association h rows <$> merged)).
    apply mapM_result_total. intros x Hx.
    apply (MROMerge_elem _ _ _ Hmerge), elem_of_unwrapped in Hx as (b & Hb & <-).
    destruct (last_association_elem rows b Hb) as (b' & Hlast & _).
    unfold subscript, last_association. by rewrite get_record_all, Hlast.
  - intros base Hbase.
    destruct (last_association_elem rows base Hbase) as (b & Hlast & Hb & Hun).
    unfold last_association. by rewrite Hlast.
Qed.
End mro_facts.

Section mro_examples.
Import ClassExamples.

Example mro_of_C : compute_mro mro_heap 13 = inr [13; 12; 22; 20; 0].
Proof. vm_compute. reflexivity. Qed.

Example mro_of_B : compute_mro mro_heap 12 = inr [12; 21; 20; 0].
Proof. vm_compute. reflexivity. Qed.

Example associations_of_A :
  filter (λ b, unwrap mro_heap b = 11) (mjoin (mro_rows mro_heap 13))
  = [21; 22; 22].
Proof. vm_compute. reflexivity. Qed.

(** C4, counterexample.  For [class C(B, A[str])] with [class B(A[int])]
    the class [A] comes first with the wrapper [A[int]], from the
    linearization of [B], and later with [A[str]].  The linearization that
    [compute_mro] returns holds [A[str]], not the first association. *)
Lemma compute_mro_first_association_counterexample :
  first_association mro_heap (mro_rows mro_heap 13) 11 = 21
  ∧ compute_mro mro_heap 13 = inr [13; 12; 22; 20; 0]
  ∧ compute_mro mro_heap 13
    ≠ (merged ← MROMerge ((λ row : list ObjId, unwrap mro_heap <$> row)
                            <$> mro_rows mro_heap 13);
       mret (first_association mro_heap (mro_rows mro_heap 13) <$> merged)).
Proof. split_and!; [vm_compute; reflexivity.. | vm_compute; discriminate]. Qed.
End mro_examples.

End MroFacts.

Module TemplateFacts.
Import Abstract.

Ltac result_simpl :=
  unfold mbind, result_bind, mret, result_ret, raise; cbn beta iota.

Section template_facts.
Variable h : Heap.
Variable val : ObjId.
Implicit Types (template : list TypeParameter) (bases : list ObjId).

Lemma append_generic_params_ok base items : ∀ template,
  (∀ item, item ∈ items →
     ∃ param, get_param h base item = Some (TypeParam param)) →
  append_generic_params h val base items template
  = inr (template ++ omap (namespaced_param h val base) items).
Proof.
  induction items as [|item items IH]; intros template Hitems; simpl.
  - by rewrite app_nil_r.
  - destruct (Hitems item) as [param Hparam]; [left|].
    unfold namespaced_param at 1. rewrite Hparam.
    rewrite IH by (intros ? ?; apply Hitems; by right).
    by rewrite <-app_assoc.
Qed.

Lemma type_params_of_generic base :
  generic_with_params h base → type_params_of h val base ≠ [].
Proof.
  intros (_ & Hne & Hitems). unfold type_params_of.
  destruct (template h base) as [|item items]; [done|].
  destruct (Hitems item) as [param Hparam]; [left|].
  simpl. unfold namespaced_param at 1. by rewrite Hparam.
Qed.

Lemma collect_generic_none bases : ∀ template,
  filter (is_generic h) bases = [] →
  collect_generic h val bases template = inr template.
Proof.
  induction bases as [|base bases IH]; intros template; simpl; [done|].
  rewrite filter_cons. unfold is_generic at 1. case_decide; [done|].
  rewrite bool_decide_eq_false_2 by done. apply IH.
Qed.

Lemma collect_generic_again bases : ∀ template,
  template ≠ [] →
  filter (is_generic h) bases ≠ [] →
  ∃ msg, collect_generic h val bases template = inl (GenericTypeError val msg).
Proof.
  induction bases as [|base bases IH]; intros template Hne; simpl; [done|].
  rewrite filter_cons. unfold is_generic at 1. case_decide.
  - intros _. rewrite bool_decide_eq_true_2 by done.
    destruct (isinstance_PyTDClass h base); [by eexists|].
    rewrite bool_decide_eq_true_2 by done. by eexists.
  - rewrite bool_decide_eq_false_2 by done. by apply IH.
Qed.

Lemma collect_generic_once bases generic :
  filter (is_generic h) bases = [generic] →
  generic_with_params h generic →
  collect_generic h val bases [] = inr (type_params_of h val generic).
Proof.
  intros Hfilter Hgeneric. pose proof Hgeneric as (Hpytd & _ & Hitems).
  induction bases as [|base bases IH]; simpl; [done|].
  rewrite filter_cons in Hfilter. unfold is_generic at 1 in Hfilter.
  case_decide.
  - injection Hfilter as -> Hrest. rewrite bool_decide_eq_true_2 by done.
    rewrite Hpytd, append_generic_params_ok by done. result_simpl.
    by apply collect_generic_none.
  - rewrite bool_decide_eq_false_2 by done. by apply IH.
Qed.

Lemma collect_generic_twice bases g1 g2 gs :
  filter (is_generic h) bases = g1 :: g2 :: gs →
  isinstance_PyTDClass h g1 = true ∨ generic_with_params h g1 →
  ∃ msg, collect_generic h val bases [] = inl (GenericTypeError val msg).
Proof.
  intros Hfilter Hg1.
  induction bases as [|base bases IH]; simpl; [done|].
  rewrite filter_cons in Hfilter. unfold is_generic at 1 in Hfilter.
  case_decide.
  - injection Hfilter as -> Hrest. rewrite bool_decide_eq_true_2 by done.
    destruct Hg1 as [->|Hg1]; [by eexists|].
    pose proof Hg1 as (-> & _ & Hitems).
    rewrite append_generic_params_ok by done. result_simpl.
    apply collect_generic_again; [by apply type_params_of_generic|].
    by rewrite Hrest.
  - rewrite bool_decide_eq_false_2 by done. by apply IH.
Qed.
Lemma check_items_ok base items template :
  (∀ item, item ∈ items → is_Some (get_param h base item)) →
  omap (namespaced_param h val base) items ⊆ template →
  check_items h val base items template = inr ().
Proof.
  induction items as [|item items IH]; intros Hbound Hsub; simpl; [done|].
  assert (Hrest : ∀ item', item' ∈ items → is_Some (get_param h base item')).
  { intros ? ?. apply Hbound. by right. }
  destruct (Hbound item) as [[param|o] Hparam]; [left|..];
    simpl in Hsub; unfold namespaced_param at 1 in Hsub;
    rewrite Hparam in *.
  - rewrite bool_decide_eq_false_2.
    + apply IH; [done|]. intros t Ht. apply Hsub. by right.
    + intros Hnin. apply Hnin, Hsub. left.
  - by apply IH.
Qed.

Lemma check_items_missing base items template :
  (∀ item, item ∈ items → is_Some (get_param h base item)) →
  ¬ omap (namespaced_param h val base) items ⊆ template →
  check_items h val base items template
  = inl (GenericTypeError val "Generic should contain all the type variables").
Proof.
  induction items as [|item items IH]; intros Hbound Hsub; simpl.
  - destruct Hsub. by intros t ?%elem_of_nil.
  - assert (Hrest : ∀ item', item' ∈ items → is_Some (get_param h base item')).
    { intros ? ?. apply Hbound. by right. }
    destruct (Hbound item) as [[param|o] Hparam]; [left|..];
      simpl in Hsub; unfold namespaced_param at 1 in Hsub;
      rewrite Hparam in *.
    + case_bool_decide as Hin; [done|]. apply IH; [done|].
      intros Hsub'. apply Hsub. intros t [->|Ht]%elem_of_cons; [|by apply Hsub'].
      by destruct (decide (with_module param (full_name h val) ∈ template)).
    + by apply IH.
Qed.

Lemma check_bases_ok bases template :
  (∀ base, base ∈ bases → ¬ is_generic h base →
           isinstance_ParameterizedClass h base = true →
           params_bound h base ∧ type_params_of h val base ⊆ template) →
  check_bases h val bases template = inr ().
Proof.
  induction bases as [|base bases IH]; intros Hbases; simpl; [done|].
  assert (Hrest : check_bases h val bases template = inr ()).
  { apply IH. intros ? ?. apply Hbases. by right. }
  case_bool_decide as Hgen; simpl; [|done].
  destruct (isinstance_ParameterizedClass h base) eqn:Hpc; [|done].
  destruct (Hbases base) as [Hbound Hsub]; [left|done..|].
  rewrite check_items_ok by done. by result_simpl.
Qed.

Lemma check_bases_missing bases template bad :
  (∀ base, base ∈ bases → ¬ is_generic h base →
           isinstance_ParameterizedClass h base = true →
           params_bound h base) →
  bad ∈ bases → ¬ is_generic h bad →
  isinstance_ParameterizedClass h bad = true →
  ¬ type_params_of h val bad ⊆ template →
  check_bases h val bases template
  = inl (GenericTypeError val "Generic should contain all the type variables").
Proof.
  intros Hbases Hin Hgen Hpc Hbad.
  induction bases as [|base bases IH]; simpl; [by apply elem_of_nil in Hin|].
  assert (Hrest : ∀ b, b ∈ bases → ¬ is_generic h b →
                       isinstance_ParameterizedClass h b = true →
                       params_bound h b).
  { intros ? ?. apply Hbases. by right. }
  destruct (decide (is_generic h base)) as [Hg|Hg].
  { rewrite bool_decide_eq_false_2 by (by intros ?). simpl.
    apply elem_of_cons in Hin as [->|Hin]; [done | by apply IH]. }
  rewrite bool_decide_eq_true_2 by done. simpl.
  destruct (isinstance_ParameterizedClass h base) eqn:Hpc'.
  2:{ apply elem_of_cons in Hin as [->|Hin]; [congruence | by apply IH]. }
  destruct (decide (type_params_of h val base ⊆ template)) as [Hsub|Hsub].
  - rewrite check_items_ok; [|by apply Hbases; [left|..]|done]. result_simpl.
    apply elem_of_cons in Hin as [->|Hin]; [done | by apply IH].
  - rewrite check_items_missing; [done|by apply Hbases; [left|..]|done].
Qed.

(** C6.  For an interpreter class whose parameterized bases bind every
    item of their templates: when exactly one base is the generic marker,
    with parameters, and every bare type parameter used by another
    parameterized base is among them, the template is exactly the marker's
    ordered, namespaced parameter list; when the marker occurs more than
    once, [GenericTypeError] is raised; when another parameterized base
    uses a bare type parameter that the marker does not list,
    [GenericTypeError] is raised. *)
Theorem compute_template_generic :
  isinstance_InterpreterClass h val = true →
  let bases := resolved_bases h val in
  (∀ generic,
     filter (is_generic h) bases = [generic] →
     generic_with_params h generic →
     (∀ base, base ∈ bases → ¬ is_generic h base →
              isinstance_ParameterizedClass h base = true →
              params_bound h base
              ∧ type_params_of h val base ⊆ type_params_of h val generic) →
     compute_template h val = inr (type_params_of h val generic))
  ∧ (∀ g1 g2 gs,
       filter (is_generic h) bases = g1 :: g2 :: gs →
       isinstance_PyTDClass h g1 = true ∨ generic_with_params h g1 →
       ∃ msg, compute_template h val = inl (GenericTypeError val msg))
  ∧ (∀ generic bad,
       filter (is_generic h) bases = [generic] →
       generic_with_params h generic →
       (∀ base, base ∈ bases → ¬ is_generic h base →
                isinstance_ParameterizedClass h base = true →
                params_bound h base) →
       bad ∈ bases → ¬ is_generic h bad →
       isinstance_ParameterizedClass h bad = true →
       ¬ type_params_of h val bad ⊆ type_params_of h val generic →
       compute_template h val
       = inl (GenericTypeError val
                "Generic should contain all the type variables")).
Proof.
  intros Hinterp bases. unfold compute_template.
  assert (Hpytd : isinstance_PyTDClass h val = false).
  { unfold isinstance_PyTDClass, isinstance_InterpreterClass in *.
    apply bool_decide_eq_true in Hinterp. apply bool_decide_eq_false.
    by rewrite Hinterp. }
  rewrite Hpytd, Hinterp. cbn [negb]. fold bases. split_and!.
  - intros generic Hone Hgeneric Hothers.
    rewrite (collect_generic_once _ generic) by done. result_simpl.
    rewrite bool_decide_eq_true_2 by (by apply type_params_of_generic).
    by rewrite check_bases_ok.
  - intros g1 g2 gs Htwo Hg1.
    destruct (collect_generic_twice bases g1 g2 gs Htwo Hg1) as [msg ->].
    by exists msg.
  - intros generic bad Hone Hgeneric Hothers Hin Hgen Hpc Hbad.
    rewrite (collect_generic_once _ generic) by done. result_simpl.
    rewrite bool_decide_eq_true_2 by (by apply type_params_of_generic).
    by rewrite (check_bases_missing _ _ bad).
Qed.
End template_facts.

Section template_examples.
Import ClassExamples.

Example template_of_Foo :
  compute_template template_heap 40
  = inr [mkTypeParameter "T" None (Some "Foo");
         mkTypeParameter "U" None (Some "Foo")].
Proof. vm_compute. reflexivity. Qed.

Example template_of_Bar :
  compute_template template_heap 41
  = inl (GenericTypeError 41 "Generic should contain all the type variables").
Proof. vm_compute. reflexivity. Qed.

Example template_of_Baz :
  compute_template template_heap 42
  = inl (GenericTypeError 42 "Cannot inherit from Generic[...] multiple times").
Proof. vm_compute. reflexivity. Qed.

Example template_of_Qux :
  compute_template template_heap 43
  = inr [mkTypeParameter "T" None (Some "Qux");
         mkTypeParameter "V" None (Some "Qux")].
Proof. vm_compute. reflexivity. Qed.

Ltac by_cases Hin :=
  simpl in Hin;
  repeat (apply elem_of_cons in Hin as [->|Hin]);
  try (by apply elem_of_nil in Hin).

Lemma generic_TU_with_params : generic_with_params template_heap 30.
Proof.
  split_and!; [reflexivity | discriminate |].
  intros item Hin. by_cases Hin; eexists; reflexivity.
Defined.

Lemma list_T_params_bound base :
  base ∈ resolved_bases template_heap 40 →
  ¬ is_generic template_heap base →
  params_bound template_heap base.
Proof.
  intros Hin Hgen. by_cases Hin; [by destruct Hgen|].
  intros item Hitem. by_cases Hitem. eexists; reflexivity.
Defined.

Lemma dict_TV_params_bound base :
  base ∈ resolved_bases template_heap 41 →
  ¬ is_generic template_heap base →
  params_bound template_heap base.
Proof.
  intros Hin Hgen. by_cases Hin; [by destruct Hgen|].
  intros item Hitem. by_cases Hitem; eexists; reflexivity.
Defined.

Lemma compute_template_generic_witness :
  compute_template template_heap 40 = inr (type_params_of template_heap 40 30)
  ∧ (∃ msg, compute_template template_heap 42 = inl (GenericTypeError 42 msg))
  ∧ compute_template template_heap 41
    = inl (GenericTypeError 41 "Generic should contain all the type variables").
Proof.
  split_and!.
  - destruct (compute_template_generic template_heap 40 eq_refl)
      as (Hdeclared & _ & _).
    apply (Hdeclared 30); [reflexivity | exact generic_TU_with_params |].
    intros base Hin Hgen _. split; [by apply list_T_params_bound|].
    by_cases Hin; [by destruct Hgen|].
    intros t Ht. by_cases Ht. left.
  - destruct (compute_template_generic template_heap 42 eq_refl)
      as (_ & Htwice & _).
    apply (Htwice 33 34 []); [reflexivity|]. right.
    split_and!; [reflexivity | discriminate |].
    intros item Hin. by_cases Hin. eexists; reflexivity.
  - destruct (compute_template_generic template_heap 41 eq_refl)
      as (_ & _ & Hmissing).
    apply (Hmissing 30 32);
      [reflexivity | exact generic_TU_with_params | | | | reflexivity |].
    + intros base Hin Hgen _. by apply dict_TV_params_bound.
    + right. left.
    + discriminate.
    + intros Hsub.
      assert (Hin : mkTypeParameter "V" None (Some "Bar")
                    ∈ type_params_of template_heap 41 30).
      { apply Hsub. right. left. }
      change (type_params_of template_heap 41 30)
        with [mkTypeParameter "T" None (Some "Bar");
              mkTypeParameter "U" None (Some "Bar")] in Hin.
      apply elem_of_cons in Hin as [Heq|Hin]; [discriminate|].
      apply elem_of_cons in Hin as [Heq|Hin]; [discriminate|].
      by apply elem_of_nil in Hin.
Defined.
End template_examples.

End TemplateFacts.

(** * Further properties of the modelled code *)

Module ListFacts.
Section list_facts.
Context {A : Type} `{EqDecision A}.
Implicit Types (l : list A) (x : A).

Lemma remove_dups_snoc l x :
  remove_dups (l ++ [x]) = filter (λ y, y ≠ x) (remove_dups l) ++ [x].
Proof.
  induction l as [|y l IH]; [done|].
  rewrite <-app_comm_cons. cbn [remove_dups].
  destruct (decide_rel elem_of y (l ++ [x])) as [Hin|Hnot];
    destruct (decide_rel elem_of y l) as [Hin'|Hnot'].
  - done.
  - apply elem_of_app in Hin as [?|Hx]; [done|].
    apply list_elem_of_singleton in Hx as ->.
    rewrite filter_cons, decide_False by (intros ?; done). done.
  - destruct Hnot. apply elem_of_app. by left.
  - rewrite filter_cons, decide_True, IH; [done|].
    intros ->. apply Hnot, elem_of_app. right. left.
Qed.

Lemma first_occurrences_snoc l x :
  reverse (remove_dups (reverse (l ++ [x])))
  = if bool_decide (x ∈ l) then reverse (remove_dups (reverse l))
    else reverse (remove_dups (reverse l)) ++ [x].
Proof.
  rewrite reverse_app. cbn [reverse app]. change (reverse [x]) with [x].
  cbn [app remove_dups].
  destruct (decide_rel elem_of x (reverse l)) as [Hin|Hnot].
  - rewrite elem_of_reverse in Hin. by rewrite bool_decide_eq_true_2.
  - rewrite elem_of_reverse in Hnot. rewrite bool_decide_eq_false_2 by done.
    by rewrite reverse_cons.
Qed.

Lemma elem_of_first_occurrences l x :
  x ∈ reverse (remove_dups (reverse l)) ↔ x ∈ l.
Proof. by rewrite elem_of_reverse, elem_of_remove_dups, elem_of_reverse. Qed.

Lemma filter_snoc (P : A → Prop) `{∀ x, Decision (P x)} l x :
  filter P (l ++ [x]) = filter P l ++ (if decide (P x) then [x] else []).
Proof.
  by rewrite filter_app.
Qed.

Lemma filter_id (P : A → Prop) `{∀ x, Decision (P x)} l :
  (∀ x, x ∈ l → P x) → filter P l = l.
Proof.
  induction l as [|y l IH]; intros Hall; [done|].
  rewrite filter_cons, decide_True by (apply Hall; left).
  rewrite IH; [done|]. intros x Hx. apply Hall. by right.
Qed.

Lemma filter_empty (P : A → Prop) `{∀ x, Decision (P x)} l :
  (∀ x, x ∈ l → ¬ P x) → filter P l = [].
Proof.
  induction l as [|y l IH]; intros Hall; [done|].
  rewrite filter_cons, decide_False by (apply Hall; left).
  apply IH. intros x Hx. apply Hall. by right.
Qed.
End list_facts.
End ListFacts.

Module ViewExtras.
Import Cfg Views DictFacts ViewFacts.

Section any_consumer.
Context {Data : Type} `{EqDecision Data} {S : Type}.
Variable node : Node Data.
Variable consumer : S → View Data → S * Response.
Implicit Types (p : Program Data) (c : list (Binding Data)).

Lemma views_loop_sublist combinations : ∀ seen s,
  views_loop node consumer seen s combinations
  `sublist_of` (view_of <$> surviving node combinations).
Proof.
  unfold surviving.
  induction combinations as [|c rest IH]; intros seen s; [done|].
  cbn [views_loop]. rewrite filter_cons.
  destruct (CanHaveCombination node (Dict.values (view_of c))) eqn:Hok.
  - rewrite decide_True by done. rewrite fmap_cons.
    destruct (existsb _ seen); [by apply sublist_cons|]. cbn [negb].
    destruct (consumer s (view_of c)) as [s' r]. by apply sublist_skip.
  - rewrite decide_False by done.
    destruct (existsb _ seen); cbn [negb]; apply IH.
Qed.

(** X1.  Whatever the consumer answers, skipping only removes views: the views
    that [get_views] yields are, in order, views of combinations that passed
    [node.CanHaveCombination], so each of them was accepted by the node,
    and as a dictionary it holds no variable twice. *)
Theorem get_views_yields_surviving limit variables s p :
  ∃ combinations views p',
    combinations_of node limit variables p = inr (combinations, p')
    ∧ get_views node consumer limit variables s p = inr (views, p')
    ∧ views `sublist_of` (view_of <$> surviving node combinations)
    ∧ ∀ view, view ∈ views →
        CanHaveCombination node (Dict.values view) = true
        ∧ NoDup (Dict.keys view).
Proof.
  destruct (combinations_of_variables node limit variables p)
    as (combinations & p' & Hcomb & _).
  exists combinations, (views_loop node consumer [] s combinations), p'.
  split; [done|]. split; [unfold get_views; by rewrite Hcomb|].
  pose proof (views_loop_sublist combinations [] s) as Hsub.
  split; [done|]. intros view Hview.
  apply (sublist_subseteq _ _ Hsub) in Hview.
  apply list_elem_of_fmap in Hview as (c & -> & Hc).
  apply list_elem_of_filter in Hc as [Hok Hc].
  split; [done | apply view_of_keys_NoDup].
Qed.

(** X2.  With a consumer that never asks to skip, every combination that
    passes [node.CanHaveCombination] is yielded, in the order of the
    combinations. *)
Theorem get_views_without_skipping limit variables s p :
  (∀ s view, skip_future (consumer s view).2 = false) →
  ∃ combinations p',
    combinations_of node limit variables p = inr (combinations, p')
    ∧ get_views node consumer limit variables s p
      = inr (view_of <$> surviving node combinations, p').
Proof.
  intros Hno.
  destruct (combinations_of_variables node limit variables p)
    as (combinations & p' & Hcomb & _).
  exists combinations, p'. split; [done|].
  unfold get_views. rewrite Hcomb. simpl. by rewrite views_loop_no_skip.
Qed.

Lemma views_loop_seen_empty combinations : ∀ seen s,
  [] ∈ seen → views_loop node consumer seen s combinations = [].
Proof.
  induction combinations as [|c rest IH]; intros seen s Hin; [done|].
  cbn [views_loop].
  assert (Hex : existsb (λ subset, items_le subset (view_of c)) seen = true).
  { apply existsb_exists. exists []. split; [by apply list_elem_of_In|done]. }
  rewrite Hex. by apply IH.
Qed.

(** X3.  A consumer that asks to skip without having read anything from the
    view commits the empty accessed subset, which every later view extends:
    it is handed the first surviving view and nothing after it. *)
Theorem views_skip_without_reading combinations s :
  (∀ s view, (consumer s view).2 = mkResponse [] true) →
  views_loop node consumer [] s combinations
  = take 1 (view_of <$> surviving node combinations).
Proof.
  intros Hresp. unfold surviving.
  induction combinations as [|c rest IH]; [done|].
  cbn [views_loop existsb]. rewrite filter_cons.
  destruct (CanHaveCombination node (Dict.values (view_of c))) eqn:Hok;
    cbn [negb].
  - rewrite decide_True by done.
    destruct (consumer s (view_of c)) as [s' r] eqn:Hr.
    specialize (Hresp s (view_of c)). rewrite Hr in Hresp. simpl in Hresp.
    subst r. cbn [skip_future reads]. rewrite fmap_cons. cbn [take]. f_equal.
    apply views_loop_seen_empty. unfold accessed_subset.
    replace (filter _ (view_of c)) with (@nil (VarId * Binding Data)); [left|].
    symmetry. apply filter_none. intros kv _ Hin. by apply elem_of_nil in Hin.
  - rewrite decide_False by done. apply IH.
Qed.
End any_consumer.

Section witnesses.
Import ViewExamples.

Lemma get_views_without_skipping_witness :
  ∃ combinations p',
    combinations_of reject_first 1024 [0; 1] two_by_three = inr (combinations, p')
    ∧ get_views reject_first never_skip 1024 [0; 1] tt two_by_three
      = inr (view_of <$> surviving reject_first combinations, p').
Proof.
  apply (get_views_without_skipping reject_first never_skip 1024 [0; 1] tt
           two_by_three).
  intros s view. reflexivity.
Defined.

Lemma views_skip_without_reading_witness :
  views_loop accept_all (λ s view, (s, mkResponse [] true)) [] tt
    (product (bindings two_by_three <$> [0; 1]))
  = take 1 (view_of <$> surviving accept_all
                          (product (bindings two_by_three <$> [0; 1]))).
Proof.
  apply (views_skip_without_reading accept_all (λ s view, (s, mkResponse [] true))).
  intros s view. reflexivity.
Defined.
End witnesses.

End ViewExtras.

Module MergeTypeExtras.
Import Abstract.

(** X4.  Whether two values bound to one type parameter conflict does not depend
    on the order in which they are merged: [_merge_type] raises for
    [(t0, t1)] exactly when it raises for [(t1, t0)], with the same error. *)
Theorem merge_type_conflict_symmetric h t0 t1 name cls e :
  _merge_type h t0 t1 name cls = inl e ↔ _merge_type h t1 t0 name cls = inl e.
Proof.
  unfold _merge_type.
  destruct t0 as [v0|], t1 as [v1|]; simpl;
    repeat (case_match; simpl); split; intros [=]; subst; done.
Qed.

(** X5.  A merge never invents a value: when [_merge_type] returns, the result
    is one of its two operands. *)
Theorem merge_type_returns_operand h t0 t1 name cls t :
  _merge_type h t0 t1 name cls = inr t → t = t0 ∨ t = t1.
Proof.
  unfold _merge_type. repeat case_match; intros [=]; auto.
Qed.

Lemma merge_type_returns_operand_witness :
  Some 12 = Some 12 ∨ Some 12 = Some 0.
Proof.
  apply (merge_type_returns_operand ClassExamples.mro_heap (Some 12) (Some 0)
           "K" 13 (Some 12)).
  reflexivity.
Defined.

End MergeTypeExtras.

Module MroBasesExtras.
Import Abstract.

Section mro_bases.
Variable h : Heap.

(** The values that stand for the bases: empty base variables are left
    out, a variable with one value stands for that value, and an ambiguous
    one for [unsolvable]. *)
Lemma get_mro_bases_loop (bases : list (list ObjId)) : ∀ mro_bases hug,
  foldl (λ '(mro_bases, has_user_generic) base_var,
           match base_var with
           | [] => (mro_bases, has_user_generic)
           | _ =>
               let base := get_atomic_value base_var (unsolvable h) in
               (mro_bases ++ [base],
                if isinstance_ParameterizedClass h base
                   && bool_decide (full_name h base ≠ "typing.Generic")
                then true else has_user_generic)
           end) (mro_bases, hug) bases
  = (mro_bases
     ++ ((λ v, get_atomic_value v (unsolvable h)) <$> filter (λ v, v ≠ []) bases),
     hug || existsb (λ base, isinstance_ParameterizedClass h base
                             && bool_decide (full_name h base ≠ "typing.Generic"))
              ((λ v, get_atomic_value v (unsolvable h))
                 <$> filter (λ v, v ≠ []) bases)).
Proof.
  induction bases as [|base_var bases IH]; intros mro_bases hug.
  - simpl. by rewrite app_nil_r, orb_false_r.
  - cbn [foldl]. rewrite filter_cons. destruct base_var as [|v vs].
    + rewrite decide_False by (by intros ?). apply IH.
    + rewrite decide_True by done. rewrite IH, fmap_cons, <-app_assoc.
      cbn [existsb app]. f_equal.
      destruct (isinstance_ParameterizedClass h _ && _), hug; done.
Qed.

(** X6.  The bases used for the linearization: one value per non-empty base
    variable, in order, an ambiguous base being replaced by [unsolvable].
    When one of them is a parameterized class other than [typing.Generic],
    every value named [typing.Generic] is dropped, so the result holds
    none; otherwise nothing is dropped. *)
Theorem get_mro_bases_result (bases : list (list ObjId)) :
  let resolved :=
    (λ v, get_atomic_value v (unsolvable h)) <$> filter (λ v, v ≠ []) bases in
  let user_generic base :=
    isinstance_ParameterizedClass h base = true
    ∧ full_name h base ≠ "typing.Generic" in
  get_mro_bases h bases `sublist_of` resolved
  ∧ ((∃ base, base ∈ resolved ∧ user_generic base) →
     get_mro_bases h bases
     = filter (λ b, full_name h b ≠ "typing.Generic") resolved
     ∧ ∀ b, b ∈ get_mro_bases h bases → full_name h b ≠ "typing.Generic")
  ∧ ((∀ base, base ∈ resolved → ¬ user_generic base) →
     get_mro_bases h bases = resolved).
Proof.
  intros resolved user_generic. unfold get_mro_bases.
  rewrite get_mro_bases_loop. cbn [app orb]. fold resolved.
  destruct (existsb _ resolved) eqn:Hex.
  - split; [apply sublist_filter|]. split.
    + intros _. split; [done|]. by intros b [? _]%list_elem_of_filter.
    + intros Hnone. apply existsb_exists in Hex as (base & Hin & Hug).
      apply list_elem_of_In in Hin. destruct (Hnone base Hin).
      apply andb_true_iff in Hug as [? ?%bool_decide_eq_true]. done.
  - split; [done|]. split; [|done].
    intros (base & Hin & Hpc & Hname).
    assert (existsb (λ base, isinstance_ParameterizedClass h base
                             && bool_decide (full_name h base ≠ "typing.Generic"))
              resolved = true); [|congruence].
    apply existsb_exists. exists base. split; [by apply list_elem_of_In|].
    by rewrite Hpc, bool_decide_eq_true_2.
Qed.
End mro_bases.

Example mro_bases_of_C :
  get_mro_bases ClassExamples.mro_heap [[12]; [22]] = [12; 22]
  ∧ get_mro_bases ClassExamples.mro_heap [[20]; [22]; []; [11; 12]] = [22; 99].
Proof. vm_compute. done. Qed.

Lemma get_mro_bases_result_witness :
  get_mro_bases ClassExamples.mro_heap [[20]; [22]; []; [11; 12]]
  = filter (λ b, full_name ClassExamples.mro_heap b ≠ "typing.Generic")
           [20; 22; 99]
  ∧ get_mro_bases ClassExamples.mro_heap [[20]; [12]] = [20; 12].
Proof.
  split.
  - apply (get_mro_bases_result ClassExamples.mro_heap [[20]; [22]; []; [11; 12]]).
    exists 22. split; [right; left|]. split; [reflexivity | discriminate].
  - apply (get_mro_bases_result ClassExamples.mro_heap [[20]; [12]]).
    intros base Hin [Hpc Hname]. simpl in Hin.
    apply elem_of_cons in Hin as [->|Hin]; [by apply Hname|].
    apply elem_of_cons in Hin as [->|Hin]; [discriminate Hpc|].
    by apply elem_of_nil in Hin.
Defined.

End MroBasesExtras.

Module TemplateExtras.
Import Abstract AbstractExtra MergeFacts TemplateFacts.

Section template_extras.
Variable h : Heap.
Variable val : ObjId.
Implicit Types (template : list TypeParameter) (bases : list ObjId).

Lemma collect_generic_plain bases generic gs :
  filter (is_generic h) bases = generic :: gs →
  isinstance_PyTDClass h generic = true →
  collect_generic h val bases []
  = inl (GenericTypeError val "Cannot inherit from plain Generic").
Proof.
  intros Hfilter Hpytd.
  induction bases as [|base bases IH]; simpl; [done|].
  rewrite filter_cons in Hfilter. unfold is_generic at 1 in Hfilter.
  case_decide.
  - injection Hfilter as -> _. rewrite bool_decide_eq_true_2 by done.
    by rewrite Hpytd.
  - rewrite bool_decide_eq_false_2 by done. by apply IH.
Qed.

(** X7.  An interpreter class whose first base named [typing.Generic] is the
    plain class, not [Generic[...]], is rejected with "Cannot inherit from
    plain Generic", whatever its other bases are. *)
Theorem compute_template_plain_generic generic gs :
  isinstance_InterpreterClass h val = true →
  filter (is_generic h) (resolved_bases h val) = generic :: gs →
  isinstance_PyTDClass h generic = true →
  compute_template h val
  = inl (GenericTypeError val "Cannot inherit from plain Generic").
Proof.
  intros Hinterp Hfilter Hpytd. unfold compute_template.
  assert (Hval : isinstance_PyTDClass h val = false).
  { unfold isinstance_PyTDClass, isinstance_InterpreterClass in *.
    apply bool_decide_eq_true in Hinterp. apply bool_decide_eq_false.
    by rewrite Hinterp. }
  rewrite Hval, Hinterp. cbn [negb].
  by rewrite (collect_generic_plain _ generic gs).
Qed.

Lemma append_generic_params_namespaced base items : ∀ template res,
  append_generic_params h val base items template = inr res →
  Forall (namespaced h val) template → Forall (namespaced h val) res.
Proof.
  induction items as [|item items IH]; intros template res; simpl.
  - by intros [= <-].
  - destruct (get_param h base item) as [[param|o]|]; try done.
    intros Hres Hall. eapply IH; [exact Hres|].
    apply Forall_app. split; [done|]. by apply Forall_singleton.
Qed.

Lemma collect_generic_namespaced bases : ∀ template res,
  collect_generic h val bases template = inr res →
  Forall (namespaced h val) template → Forall (namespaced h val) res.
Proof.
  induction bases as [|base bases IH]; intros template res; simpl.
  - by intros [= <-].
  - case_bool_decide; [|apply IH].
    destruct (isinstance_PyTDClass h base); [done|].
    case_bool_decide; [done|].
    destruct (append_generic_params h val base _ template) as [e|t'] eqn:Happ;
      [done|].
    intros Hres Hall. eapply IH; [exact Hres|].
    by eapply append_generic_params_namespaced.
Qed.

Lemma param_seq_namespaced base items : ∀ seq res,
  param_seq h val base items seq = inr res →
  Forall (namespaced h val) seq → Forall (namespaced h val) res.
Proof.
  induction items as [|item items IH]; intros seq res; simpl.
  - by intros [= <-].
  - destruct (get_param h base item) as [[param|o]|]; try done.
    + intros Hres Hall. eapply IH; [exact Hres|].
      apply Forall_app. split; [done|]. by apply Forall_singleton.
    + apply IH.
Qed.

Lemma param_seqs_namespaced bases : ∀ seqs res,
  param_seqs h val bases seqs = inr res →
  Forall (Forall (namespaced h val)) seqs → Forall (Forall (namespaced h val)) res.
Proof.
  induction bases as [|base bases IH]; intros seqs res; simpl.
  - by intros [= <-].
  - destruct (isinstance_ParameterizedClass h base); [|apply IH].
    destruct (param_seq h val base _ []) as [e|seq] eqn:Hseq; [done|].
    intros Hres Hall. eapply IH; [exact Hres|].
    apply Forall_app. split; [done|]. apply Forall_singleton.
    by eapply param_seq_namespaced.
Qed.

(** X8.  Every type parameter of the template that [compute_template] returns
    for an interpreter class carries the full name of that class as its
    module. *)
Theorem compute_template_namespaced template :
  isinstance_InterpreterClass h val = true →
  compute_template h val = inr template →
  ∀ t, t ∈ template → tp_module t = Some (full_name h val).
Proof.
  intros Hinterp. unfold compute_template.
  assert (Hval : isinstance_PyTDClass h val = false).
  { unfold isinstance_PyTDClass, isinstance_InterpreterClass in *.
    apply bool_decide_eq_true in Hinterp. apply bool_decide_eq_false.
    by rewrite Hinterp. }
  rewrite Hval, Hinterp. cbn [negb].
  destruct (collect_generic h val _ []) as [e|generic] eqn:Hcollect; [done|].
  apply collect_generic_namespaced in Hcollect; [|constructor].
  result_simpl. case_bool_decide as Hne.
  - destruct (check_bases h val _ generic); [done|]. intros [= <-].
    by apply Forall_forall.
  - destruct (param_seqs h val _ []) as [e|seqs] eqn:Hseqs; [done|].
    apply param_seqs_namespaced in Hseqs; [|constructor].
    unfold MergeSequences.
    destruct (merge_loop _ seqs) as [[]|merged] eqn:Hmerge; try done.
    intros [= <-] t [Ht|Ht]%elem_of_app.
    + by apply (proj1 (Forall_forall _ _) Hcollect).
    + apply (merge_loop_elem _ _ _ _ Hmerge), list_elem_of_join in Ht
        as (seq & Ht & Hseq).
      rewrite Forall_forall in Hseqs. specialize (Hseqs seq Hseq).
      by apply (proj1 (Forall_forall _ _) Hseqs).
Qed.
End template_extras.

Section witnesses.
Import ClassExamples ExtraExamples.

Example template_of_Plain :
  compute_template plain_heap 44
  = inl (GenericTypeError 44 "Cannot inherit from plain Generic").
Proof. vm_compute. reflexivity. Qed.

Lemma compute_template_plain_generic_witness :
  compute_template plain_heap 44
  = inl (GenericTypeError 44 "Cannot inherit from plain Generic").
Proof.
  apply (compute_template_plain_generic plain_heap 44 10 []); reflexivity.
Defined.

Lemma compute_template_namespaced_witness :
  Forall (λ t, tp_module t = Some (full_name template_heap 43))
         [mkTypeParameter "T" None (Some "Qux");
          mkTypeParameter "V" None (Some "Qux")].
Proof.
  apply Forall_forall.
  apply (compute_template_namespaced template_heap 43); [reflexivity|].
  vm_compute. reflexivity.
Defined.
End witnesses.

End TemplateExtras.

Module AbstractMethodExtras.
Import Abstract AbstractExtra AbstractMethodFacts.

Section sweep.
Variable h : Heap.

Lemma sweep_fold_elem (am : ObjId → gset string) (l : list ObjId) :
  ∀ (acc : gset string) (m : string),
  m ∈ foldl (sweep_step h am) acc l ↔
    (m ∈ acc ∧ ∀ c, c ∈ l → lets_through h am m c)
    ∨ ∃ l1 cls l2,
        l = l1 ++ cls :: l2
        ∧ isinstance_Class h cls = true
        ∧ m ∈ members h cls ∧ m ∈ am cls
        ∧ ∀ c, c ∈ l2 → lets_through h am m c.
Proof.
  induction l as [|x l IH]; intros acc m; cbn [foldl].
  - split.
    + intros Hm. left. split; [done|]. by intros c ?%elem_of_nil.
    + intros [[Hm _]|(l1 & cls & l2 & Hl & _)]; [done|].
      by destruct l1.
  - rewrite IH. unfold sweep_step at 1, lets_through.
    destruct (isinstance_Class h x) eqn:Hx.
    + rewrite elem_of_union, !elem_of_filter. split.
      * intros [[[[Hok Hacc]|[Hmem Ham]] Hrest]|(l1 & cls & l2 & -> & Hcls)].
        -- left. split; [done|]. intros c [->|Hc]%elem_of_cons; auto.
        -- right. exists [], x, l. by split_and!.
        -- right. by exists (x :: l1), cls, l2.
      * intros [[Hacc Hall]|(l1 & cls & l2 & Hl & Hcls & Hmem & Ham & Hrest)].
        -- left. split; [|intros c Hc; apply Hall; by right].
           left. split; [|done]. apply Hall; [left|done].
        -- destruct l1 as [|y l1']; simpl in Hl; injection Hl as -> ->.
           ++ left. split; [|done]. by right.
           ++ right. by exists l1', cls, l2.
    + split.
      * intros [[Hacc Hrest]|(l1 & cls & l2 & -> & Hcls)].
        -- left. split; [done|]. intros c [->|Hc]%elem_of_cons; [congruence|auto].
        -- right. by exists (x :: l1), cls, l2.
      * intros [[Hacc Hall]|(l1 & cls & l2 & Hl & Hcls & Hmem & Ham & Hrest)].
        -- left. split; [done|]. intros c Hc. apply Hall. by right.
        -- destruct l1 as [|y l1']; simpl in Hl; injection Hl as -> ->;
             [congruence|].
           right. by exists l1', cls, l2.
Qed.

(** X9.  A method is abstract in a class exactly when some class of the
    linearization declares it and holds it abstract, and every class before
    that one in the linearization, that is every more specific one, either
    does not declare a member of that name or holds it abstract too.  The
    class itself counts with its own abstract methods, its ancestors with
    their stored attribute. *)
Theorem init_abstract_methods_elem self st (m : string) :
  let am cls := <[self := own_abstract_methods h self]> st !!! cls in
  m ∈ _init_abstract_methods h self st !!! self ↔
  ∃ specific cls general,
    mro h self = specific ++ cls :: general
    ∧ isinstance_Class h cls = true
    ∧ m ∈ members h cls ∧ m ∈ am cls
    ∧ ∀ c, c ∈ specific → lets_through h am m c.
Proof.
  intros am. rewrite init_abstract_methods_lookup. fold am.
  rewrite sweep_fold_elem. split.
  - intros [[?%not_elem_of_empty _]|(l1 & cls & l2 & Hl & Hrest)]; [done|].
    exists (reverse l2), cls, (reverse l1). split.
    + apply (f_equal reverse) in Hl.
      rewrite reverse_involutive, reverse_app, reverse_cons, <-app_assoc in Hl.
      done.
    + destruct Hrest as (? & ? & ? & Hthrough). split_and!; [done..|].
      intros c Hc. apply Hthrough. by apply elem_of_reverse.
  - intros (specific & cls & general & Hmro & Hcls & Hmem & Ham & Hthrough).
    right. exists (reverse general), cls, (reverse specific). split.
    + by rewrite Hmro, reverse_app, reverse_cons, <-app_assoc.
    + split_and!; [done..|]. intros c Hc. apply Hthrough.
      by apply elem_of_reverse.
Qed.

(** X10.  On the names that a class declares itself, its abstract-method set
    agrees with its own abstract methods, whatever its ancestors hold. *)
Theorem init_abstract_methods_own self rest st (m : string) :
  mro h self = self :: rest →
  isinstance_Class h self = true →
  m ∈ members h self →
  m ∈ _init_abstract_methods h self st !!! self ↔ m ∈ own_abstract_methods h self.
Proof.
  intros Hmro Hclass Hm. rewrite init_abstract_methods_lookup, Hmro.
  rewrite reverse_cons, foldl_app. simpl. unfold sweep_step at 1.
  rewrite Hclass, lookup_total_insert_eq.
  rewrite elem_of_union, !elem_of_filter. tauto.
Qed.
End sweep.

Lemma init_abstract_methods_own_witness :
  "f" ∈ _init_abstract_methods ClassExamples.abc_heap 2
          (init_classes ClassExamples.abc_heap [0; 1]) !!! 2
  ↔ "f" ∈ own_abstract_methods ClassExamples.abc_heap 2.
Proof.
  apply (init_abstract_methods_own ClassExamples.abc_heap 2 [1; 0]);
    [reflexivity | reflexivity | compute_done].
Defined.

End AbstractMethodExtras.

Module ClosureExtras.
Import Abstract ClassClosure.

Section closure.
Variable h : Heap.
Variable get_own_attributes : ObjId → gset string.
Variable PY3 : bool.
Variable pytd_name : ObjId → string.
Variable pytd_parents : ObjId → list string.

(** X11.  Overriding the boolean value is inherited: when a class that is not
    parameterized has been given [overrides_bool = True], every class that
    is not parameterized and has all classes of that linearization in its
    own is given [True] as well. *)
Theorem overrides_bool_inherited parent child st0 st1 st :
  isinstance_ParameterizedClass h parent = false →
  isinstance_ParameterizedClass h child = false →
  mro h parent ⊆ mro h child →
  _init_overrides_bool h get_own_attributes PY3 parent st0 = inr st1 →
  st1 !! parent = Some true →
  ∃ st', _init_overrides_bool h get_own_attributes PY3 child st = inr st'
         ∧ st' !! child = Some true.
Proof.
  unfold _init_overrides_bool. intros -> -> Hsub [= <-].
  rewrite lookup_insert_eq. intros [= Hparent].
  eexists. split; [done|]. rewrite lookup_insert_eq. f_equal.
  apply existsb_exists in Hparent as (cls & Hin & Hcls).
  apply existsb_exists. exists cls. split; [|done].
  apply list_elem_of_In, Hsub. by apply list_elem_of_In.
Qed.

Lemma protocol_fold_elem (st : gmap ObjId (gset string)) (l : list ObjId) :
  ∀ (acc : gset string) (a : string),
  a ∈ foldl (protocol_step h st) acc l ↔
    (a ∈ acc ∧ ∀ c, c ∈ l → isinstance_Class h c = true →
                    is_protocol st c = false → a ∉ members h c)
    ∨ ∃ l1 cls l2,
        l = l1 ++ cls :: l2
        ∧ isinstance_Class h cls = true ∧ is_protocol st cls = true
        ∧ a ∈ st !!! cls ∧ a ∈ members h cls
        ∧ ∀ c, c ∈ l2 → isinstance_Class h c = true →
               is_protocol st c = false → a ∉ members h c.
Proof.
  induction l as [|x l IH]; intros acc a; cbn [foldl].
  - split.
    + intros Ha. left. split; [done|]. by intros c ?%elem_of_nil.
    + intros [[Ha _]|(l1 & cls & l2 & Hl & _)]; [done|]. by destruct l1.
  - rewrite IH. unfold protocol_step at 1.
    destruct (isinstance_Class h x) eqn:Hx; [destruct (is_protocol st x) eqn:Hp|].
    + rewrite elem_of_union, elem_of_filter. split.
      * intros [[[Hacc|[Hmem Hst]] Hrest]|(l1 & cls & l2 & -> & Hcls)].
        -- left. split; [done|].
           intros c [->|Hc]%elem_of_cons; [congruence|auto].
        -- right. exists [], x, l. by split_and!.
        -- right. by exists (x :: l1), cls, l2.
      * intros [[Hacc Hall]|(l1 & cls & l2 & Hl & Hcls & Hpc & Hst & Hmem & Hrest)].
        -- left. split; [by left|]. intros c Hc. apply Hall. by right.
        -- destruct l1 as [|y l1']; simpl in Hl; injection Hl as -> ->.
           ++ left. split; [by right|done].
           ++ right. by exists l1', cls, l2.
    + rewrite elem_of_filter. split.
      * intros [[[Hmem Hacc] Hrest]|(l1 & cls & l2 & -> & Hcls)].
        -- left. split; [done|]. intros c [->|Hc]%elem_of_cons; auto.
        -- right. by exists (x :: l1), cls, l2.
      * intros [[Hacc Hall]|(l1 & cls & l2 & Hl & Hcls & Hpc & Hrest)].
        -- left. split; [|intros c Hc; apply Hall; by right].
           split; [|done]. apply Hall; [left|done..].
        -- destruct l1 as [|y l1']; simpl in Hl; injection Hl as -> ->;
             [congruence|].
           right. by exists l1', cls, l2.
    + split.
      * intros [[Hacc Hrest]|(l1 & cls & l2 & -> & Hcls)].
        -- left. split; [done|].
           intros c [->|Hc]%elem_of_cons; [congruence|auto].
        -- right. by exists (x :: l1), cls, l2.
      * intros [[Hacc Hall]|(l1 & cls & l2 & Hl & Hcls & Hrest)].
        -- left. split; [done|]. intros c Hc. apply Hall. by right.
        -- destruct l1 as [|y l1']; simpl in Hl; injection Hl as -> ->;
             [congruence|].
           right. by exists l1', cls, l2.
Qed.

(** X12.  For a class with a [typing.Protocol] parent that is neither
    parameterized nor a class of the [typing] stubs, an attribute is a
    protocol attribute exactly when some protocol class of the
    linearization declares it as a member and holds it as a protocol
    attribute, and no class before that one in the linearization that is
    not a protocol declares a member of that name.  The class itself counts
    with its own attributes. *)
Theorem init_protocol_attributes_elem self abstract_methods st (a : string) :
  isinstance_ParameterizedClass h self = false →
  has_protocol_parent h pytd_parents self = true →
  isinstance_PyTDClass h self && String.prefix "typing." (pytd_name self) = false →
  let st' := <[self := get_own_attributes self]> st in
  a ∈ _init_protocol_attributes h get_own_attributes pytd_name pytd_parents
        self abstract_methods st !!! self ↔
  ∃ specific cls general,
    mro h self = specific ++ cls :: general
    ∧ isinstance_Class h cls = true ∧ is_protocol st' cls = true
    ∧ a ∈ st' !!! cls ∧ a ∈ members h cls
    ∧ ∀ c, c ∈ specific → isinstance_Class h c = true →
           is_protocol st' c = false → a ∉ members h c.
Proof.
  intros Hpc Hparent Htyping st'. unfold _init_protocol_attributes.
  rewrite Hpc, Hparent, Htyping. cbn [negb]. fold st'.
  rewrite lookup_total_insert_eq, protocol_fold_elem. split.
  - intros [[?%not_elem_of_empty _]|(l1 & cls & l2 & Hl & Hrest)]; [done|].
    exists (reverse l2), cls, (reverse l1). split.
    + apply (f_equal reverse) in Hl.
      rewrite reverse_involutive, reverse_app, reverse_cons, <-app_assoc in Hl.
      done.
    + destruct Hrest as (? & ? & ? & ? & Hthrough). split_and!; [done..|].
      intros c Hc. apply Hthrough. by apply elem_of_reverse.
  - intros (specific & cls & general & Hmro & Hcls & Hp & Hst & Hmem & Hthrough).
    right. exists (reverse general), cls, (reverse specific). split.
    + by rewrite Hmro, reverse_app, reverse_cons, <-app_assoc.
    + split_and!; [done..|]. intros c Hc. apply Hthrough.
      by apply elem_of_reverse.
Qed.
End closure.

Section witnesses.
Import ClassExamples ExtraExamples.

Lemma overrides_bool_inherited_witness :
  ∃ st', _init_overrides_bool abc_heap abc_own_attributes true 3 ∅ = inr st'
         ∧ st' !! 3 = Some true.
Proof.
  apply (overrides_bool_inherited abc_heap abc_own_attributes true 1 3 ∅
           (<[1 := true]> ∅) ∅); try reflexivity.
  intros c Hc. simpl in Hc.
  apply elem_of_cons in Hc as [->|Hc]; [do 2 right; left|].
  apply elem_of_cons in Hc as [->|Hc]; [do 3 right; left|].
  by apply elem_of_nil in Hc.
Defined.

Example protocol_attributes_of_R :
  init_protocols [0; 5; 1; 2; 3; 4] !!! 4
  = ({["seek"; "read"; "tell"]} : gset string)
  ∧ init_protocols [0; 5; 1; 2; 3; 4] !!! 3 = (∅ : gset string).
Proof. vm_compute. done. Qed.

Lemma init_protocol_attributes_elem_witness :
  "close" ∈ init_protocols [0; 5; 1; 2; 3; 4] !!! 4 ↔
  ∃ specific cls general,
    mro protocol_heap 4 = specific ++ cls :: general
    ∧ isinstance_Class protocol_heap cls = true
    ∧ is_protocol (<[4 := protocol_own_attributes 4]>
                     (init_protocols [0; 5; 1; 2; 3])) cls = true
    ∧ "close" ∈ <[4 := protocol_own_attributes 4]>
                  (init_protocols [0; 5; 1; 2; 3]) !!! cls
    ∧ "close" ∈ members protocol_heap cls
    ∧ ∀ c, c ∈ specific → isinstance_Class protocol_heap c = true →
           is_protocol (<[4 := protocol_own_attributes 4]>
                          (init_protocols [0; 5; 1; 2; 3])) c = false →
           "close" ∉ members protocol_heap c.
Proof.
  apply (init_protocol_attributes_elem protocol_heap protocol_own_attributes
           (λ _, "") (λ _, []) 4 ∅ (init_protocols [0; 5; 1; 2; 3]) "close");
    reflexivity.
Defined.
End witnesses.

End ClosureExtras.

Module MetadataExtras.
Import Abstract Metadata DictFacts.

Section collect.
Variable h : Heap.
Implicit Types (st : MetaStore) (a : Attribute) (taken : gset string).

(** The attributes that the bases offer, most specific base first. *)
Lemma take_untaken_app acc l1 l2 :
  take_untaken acc (l1 ++ l2) = take_untaken (take_untaken acc l1) l2.
Proof. unfold take_untaken. by rewrite foldl_app. Qed.

Lemma mro_attrs_loop st metadata_key (bases : list ObjId) : ∀ acc,
  foldl (λ acc base_cls,
           if negb (isinstance_Class h base_cls) then acc
           else match metadata_get st base_cls metadata_key with
                | None => acc
                | Some sub_attrs => take_untaken acc sub_attrs
                end) acc bases
  = take_untaken acc
      (bases ≫= λ base_cls,
         if isinstance_Class h base_cls
         then default [] (metadata_get st base_cls metadata_key) else []).
Proof.
  induction bases as [|base bases IH]; intros acc; [done|].
  cbn [foldl]. rewrite IH. change ((base :: bases) ≫= ?f) with (f base ++ (bases ≫= f)).
  rewrite take_untaken_app. f_equal.
  destruct (isinstance_Class h base); [|done]. cbn [negb].
  by destruct (metadata_get st base metadata_key).
Qed.

Lemma take_untaken_spec (l : list Attribute) : ∀ taken base_attrs,
  ∃ new,
    take_untaken (taken, base_attrs) l
    = (list_to_set (a_name <$> new) ∪ taken, base_attrs ++ new)
    ∧ new `sublist_of` l
    ∧ NoDup (a_name <$> new)
    ∧ (∀ a, a ∈ new → a_name a ∉ taken)
    ∧ (∀ a, a ∈ l → a_name a ∈ taken ∨ a_name a ∈ a_name <$> new)
    ∧ (∀ a, a ∈ new → ∃ l1 l2, l = l1 ++ a :: l2 ∧ a_name a ∉ a_name <$> l1).
Proof.
  induction l as [|a l IH]; intros taken base_attrs.
  - exists []. split_and!; [|done|constructor|set_solver..].
    simpl. f_equal; [set_solver | by rewrite app_nil_r].
  - unfold take_untaken. cbn [foldl]. fold (take_untaken).
    destruct (decide (a_name a ∉ taken)) as [Hfresh|Hold].
    + destruct (IH ({[a_name a]} ∪ taken) (base_attrs ++ [a]))
        as (new & Heq & Hsub & Hnd & Hnot & Hcov & Hfirst).
      exists (a :: new). unfold take_untaken in Heq. rewrite Heq.
      split_and!.
      * rewrite fmap_cons, <-app_assoc. f_equal. set_solver.
      * by apply sublist_skip.
      * rewrite fmap_cons. apply NoDup_cons. split; [|done].
        intros (a' & Hname & Ha')%list_elem_of_fmap.
        apply Hnot in Ha'. set_solver.
      * intros a' [->|Ha']%elem_of_cons; [done|].
        apply Hnot in Ha'. set_solver.
      * intros a' [->|Ha']%elem_of_cons.
        -- right. rewrite fmap_cons. left.
        -- destruct (Hcov a' Ha') as [Hin|Hin]; [|right; rewrite fmap_cons; by right].
           apply elem_of_union in Hin as [->%elem_of_singleton|Hin]; [|by left].
           right. rewrite fmap_cons. left.
      * intros a' [->|Ha']%elem_of_cons.
        -- exists [], l. split; [done|]. by intros ?%elem_of_nil.
        -- destruct (Hfirst a' Ha') as (l1 & l2 & -> & Hl1).
           exists (a :: l1), l2. split; [done|]. rewrite fmap_cons.
           intros [Heq'|Hin]%elem_of_cons; [|done].
           apply Hnot in Ha'. set_solver.
    + apply dec_stable in Hold.
      destruct (IH taken base_attrs)
        as (new & Heq & Hsub & Hnd & Hnot & Hcov & Hfirst).
      exists new. unfold take_untaken in Heq. rewrite Heq.
      split_and!; [done | by apply sublist_cons | done | done | |].
      * intros a' [->|Ha']%elem_of_cons; [by left | by apply Hcov].
      * intros a' Ha'. destruct (Hfirst a' Ha') as (l1 & l2 & -> & Hl1).
        exists (a :: l1), l2. split; [done|]. rewrite fmap_cons.
        intros [Heq'|Hin]%elem_of_cons; [|done].
        apply Hnot in Ha'. congruence.
Qed.

(** X13.  The attributes collected for an [attrs] class are the inherited ones
    followed by the class's own.  Of the attributes offered by the bases,
    taken most specific base first, exactly the first of every name that the
    class does not define is inherited, so no inherited attribute repeats a
    name or hides an own attribute. *)
Theorem get_mro_attrs_for_attrs_spec st self cls_attrs metadata_key :
  ∃ base_attrs,
    _get_mro_attrs_for_attrs h st self cls_attrs metadata_key
    = base_attrs ++ cls_attrs
    ∧ base_attrs `sublist_of` inherited_attrs h st self metadata_key
    ∧ NoDup (a_name <$> base_attrs)
    ∧ (∀ a, a ∈ base_attrs → a_name a ∉ a_name <$> cls_attrs)
    ∧ (∀ a, a ∈ inherited_attrs h st self metadata_key →
            a_name a ∈ a_name <$> (base_attrs ++ cls_attrs))
    ∧ (∀ a, a ∈ base_attrs →
            ∃ l1 l2, inherited_attrs h st self metadata_key = l1 ++ a :: l2
                     ∧ a_name a ∉ a_name <$> l1).
Proof.
  unfold _get_mro_attrs_for_attrs. rewrite mro_attrs_loop.
  fold (inherited_attrs h st self metadata_key).
  destruct (take_untaken_spec (inherited_attrs h st self metadata_key)
              (list_to_set (a_name <$> cls_attrs)) [])
    as (new & -> & Hsub & Hnd & Hnot & Hcov & Hfirst).
  exists new. split_and!; [done..| | |done].
  - intros a Ha Hin. apply (Hnot a Ha). by apply elem_of_list_to_set.
  - intros a Ha. rewrite fmap_app, elem_of_app.
    destruct (Hcov a Ha) as [Hin|Hin]; [right|by left].
    by apply elem_of_list_to_set in Hin.
Qed.

Lemma foldl_join {A B} (f : A → B → A) (ls : list (list B)) : ∀ acc : A,
  foldl (λ acc l, foldl f acc l) acc ls = foldl f acc (mjoin ls).
Proof.
  induction ls as [|l ls IH]; intros acc; [done|].
  cbn [foldl]. rewrite IH.
  change (mjoin (l :: ls)) with (l ++ mjoin ls). by rewrite foldl_app.
Qed.

(** The dictionary [all_attrs] once the attributes [l] have been entered. *)
Lemma attr_dict_entries (l : list Attribute) : ∀ d : list (string * Attribute),
  NoDup (Dict.keys d) → (∀ k a, (k, a) ∈ d → a_name a = k) →
  let d' := foldl (λ d a, Dict.set (a_name a) a d) d l in
  NoDup (Dict.keys d') ∧ (∀ k a, (k, a) ∈ d' → a_name a = k).
Proof.
  induction l as [|x l IH]; intros d Hnd Hent; [done|].
  cbn [foldl]. apply IH; [by apply NoDup_keys_set|].
  intros k a Hin.
  assert (Hget : Dict.get k (Dict.set (a_name x) x d) = Some a).
  { apply elem_get; [by apply NoDup_keys_set | done]. }
  rewrite get_set in Hget. case_decide; [by simplify_eq|].
  by apply Hent, get_Some_elem.
Qed.

Lemma attr_dict_get (n : string) (l : list Attribute) :
  ∀ d : list (string * Attribute),
  Dict.get n (foldl (λ d a, Dict.set (a_name a) a d) d l)
  = match last (filter (λ a, a_name a = n) l) with
    | Some a => Some a
    | None => Dict.get n d
    end.
Proof.
  induction l as [|x l IH] using rev_ind; intros d; [done|].
  rewrite foldl_app. simpl. rewrite get_set, filter_app, filter_cons, filter_nil.
  destruct (decide (n = a_name x)) as [->|Hne].
  - rewrite decide_True by done. by rewrite last_snoc.
  - rewrite decide_False by done. rewrite app_nil_r. apply IH.
Qed.

Lemma attr_dict_keys (l : list Attribute) :
  Dict.keys (foldl (λ d a, Dict.set (a_name a) a d) [] l)
  = reverse (remove_dups (reverse (a_name <$> l))).
Proof.
  induction l as [|x l IH] using rev_ind; [done|].
  rewrite foldl_app. simpl. rewrite keys_set, IH.
  rewrite fmap_app, reverse_app. simpl.
  case_bool_decide as Hin; rewrite elem_of_reverse, elem_of_remove_dups in Hin;
    destruct (decide_rel elem_of (a_name x) (reverse (a_name <$> l)));
    try done.
  by rewrite reverse_cons.
Qed.

(** X14.  For a dataclass the collected attributes hold one attribute per name.
    Their order is the order in which the names are first met when going
    from the most general base to the class itself, and the attribute kept
    for a name is the last one met, so that an attribute of the class
    replaces the inherited one of the same name in place. *)
Theorem get_attrs_from_mro_dataclass st self cls_attrs metadata_key :
  metadata_key ≠ "__attrs_attrs__" →
  let all := attrs_in_order h st self cls_attrs metadata_key in
  let res := _get_attrs_from_mro h st self cls_attrs metadata_key in
  NoDup (a_name <$> res)
  ∧ a_name <$> res = reverse (remove_dups (reverse (a_name <$> all)))
  ∧ ∀ a, a ∈ res ↔ last (filter (λ a', a_name a' = a_name a) all) = Some a.
Proof.
  intros Hkey all res. subst res. unfold _get_attrs_from_mro.
  rewrite decide_False by done. rewrite foldl_join.
  fold (attrs_in_order h st self cls_attrs metadata_key). fold all.
  destruct (attr_dict_entries all []) as [Hnd Hent];
    [constructor | by intros ? ? ?%elem_of_nil |].
  set (d := foldl (λ d a, Dict.set (a_name a) a d) [] all) in *.
  assert (Hnames : a_name <$> Dict.values d = Dict.keys d).
  { unfold Dict.values, Dict.keys. rewrite <-list_fmap_compose.
    apply list_fmap_ext. intros i [k a] Hi. simpl.
    apply Hent. by eapply list_elem_of_lookup_2. }
  rewrite Hnames. split; [done|]. split; [apply attr_dict_keys|].
  intros a.
  assert (Hget : Dict.get (a_name a) d
                 = last (filter (λ a', a_name a' = a_name a) all)).
  { unfold d. rewrite attr_dict_get. by destruct (last _). }
  rewrite <-Hget. split.
  - intros ([k a'] & -> & Hin)%list_elem_of_fmap. simpl.
    rewrite (Hent k a' Hin). by apply elem_get.
  - intros Hin%get_Some_elem.
    apply (list_elem_of_fmap_2 snd) in Hin. done.
Qed.
End collect.

Section inheritance.
Variable h : Heap.
Implicit Types (d : list (string * Attribute)) (l : list Attribute).

Lemma dict_eq (d1 : list (string * Attribute)) : ∀ d2,
  NoDup (Dict.keys d1) → Dict.keys d1 = Dict.keys d2 →
  (∀ k, Dict.get k d1 = Dict.get k d2) → d1 = d2.
Proof.
  unfold Dict.keys.
  induction d1 as [|[k v] d1 IH]; intros [|[k' v'] d2] Hnd Hkeys Hget;
    try done.
  rewrite !fmap_cons in Hkeys. simpl in Hkeys. injection Hkeys as <- Hkeys.
  apply NoDup_cons in Hnd as [Hk Hnd].
  pose proof (Hget k) as Hk'. simpl in Hk'. rewrite !decide_True in Hk' by done.
  injection Hk' as <-. f_equal. apply IH; [done..|].
  intros k0. specialize (Hget k0). simpl in Hget.
  destruct (decide (k0 = k)) as [->|Hne]; [|done].
  assert (Hnone : ∀ d, k ∉ d.*1 → Dict.get k d = None).
  { intros d Hd. destruct (Dict.get k d) eqn:Hg; [|done].
    destruct Hd. apply (get_is_Some k d). eauto. }
  rewrite !Hnone; [done| by rewrite <-Hkeys | done].
Qed.

Lemma attr_dict_keys_known l : ∀ d,
  (∀ a, a ∈ l → a_name a ∈ Dict.keys d) →
  Dict.keys (foldl (λ d a, Dict.set (a_name a) a d) d l) = Dict.keys d.
Proof.
  induction l as [|x l IH]; intros d Hin; [done|]. cbn [foldl].
  rewrite IH.
  - rewrite keys_set, bool_decide_eq_true_2; [done|]. apply Hin. left.
  - intros a Ha. rewrite keys_set, bool_decide_eq_true_2 by (apply Hin; left).
    apply Hin. by right.
Qed.

Lemma attr_dict_keys_fresh l : ∀ d,
  NoDup (Dict.keys d ++ (a_name <$> l)) →
  Dict.keys (foldl (λ d a, Dict.set (a_name a) a d) d l)
  = Dict.keys d ++ (a_name <$> l).
Proof.
  induction l as [|x l IH]; intros d Hnd; simpl.
  - by rewrite app_nil_r.
  - assert (Hx : a_name x ∉ Dict.keys d).
    { apply NoDup_app in Hnd as (_ & Hdis & _). intros Hin.
      apply (Hdis _ Hin). left. }
    rewrite IH; rewrite keys_set, bool_decide_eq_false_2 by done.
    + by rewrite <-app_assoc.
    + by rewrite <-app_assoc.
Qed.

Lemma attr_dict_keys_prefix l : ∀ d,
  ∃ E, Dict.keys (foldl (λ d a, Dict.set (a_name a) a d) d l) = Dict.keys d ++ E.
Proof.
  induction l as [|x l IH]; intros d; simpl.
  - exists []. by rewrite app_nil_r.
  - destruct (IH (Dict.set (a_name x) x d)) as [E ->]. rewrite keys_set.
    case_bool_decide; [by exists E|].
    exists (a_name x :: E). by rewrite <-app_assoc.
Qed.

(** Entering the values of a dictionary that extends [d] into [d] gives
    that dictionary back. *)
Lemma attr_dict_revalue l d :
  NoDup (Dict.keys d) → (∀ k a, (k, a) ∈ d → a_name a = k) →
  let D := foldl (λ d a, Dict.set (a_name a) a d) d l in
  foldl (λ d a, Dict.set (a_name a) a d) d (Dict.values D) = D.
Proof.
  intros Hnd Hent D.
  destruct (attr_dict_entries l d Hnd Hent) as [HndD HentD]. fold D in HndD, HentD.
  destruct (attr_dict_entries (Dict.values D) d Hnd Hent) as [HndR HentR].
  assert (Hnames : a_name <$> Dict.values D = Dict.keys D).
  { unfold Dict.values, Dict.keys. rewrite <-list_fmap_compose.
    apply list_fmap_ext. intros i [k a] Hi. simpl.
    apply HentD. by eapply list_elem_of_lookup_2. }
  destruct (attr_dict_keys_prefix l d) as [E HE]. fold D in HE.
  apply dict_eq; [done| |].
  - rewrite <-(take_drop (length (Dict.keys d)) (Dict.values D)), foldl_app.
    assert (Htake : a_name <$> take (length (Dict.keys d)) (Dict.values D)
                    = Dict.keys d).
    { by rewrite fmap_take, Hnames, HE, take_app_length. }
    assert (Hdrop : a_name <$> drop (length (Dict.keys d)) (Dict.values D) = E).
    { by rewrite fmap_drop, Hnames, HE, drop_app_length. }
    rewrite attr_dict_keys_fresh; rewrite attr_dict_keys_known.
    + by rewrite Hdrop, HE.
    + intros a Ha. rewrite <-Htake. by apply list_elem_of_fmap_2.
    + rewrite Hdrop, <-HE. done.
    + intros a Ha. rewrite <-Htake. by apply list_elem_of_fmap_2.
  - intros k. rewrite attr_dict_get.
    destruct (last (filter (λ a, a_name a = k) (Dict.values D))) as [a|] eqn:Hlast.
    + apply last_Some_elem_of, list_elem_of_filter in Hlast as [<- Hin].
      apply list_elem_of_fmap in Hin as ([k a'] & -> & Hin). simpl.
      rewrite (HentD k a' Hin). symmetry. by apply elem_get.
    + apply last_None in Hlast.
      destruct (Dict.get k D) as [a|] eqn:HgetD.
      * apply get_Some_elem in HgetD as Hin.
        pose proof (filter_nil_not_elem_of _ _ a Hlast (HentD k a Hin)) as Hnot.
        destruct Hnot. by apply (list_elem_of_fmap_2 snd) in Hin.
      * destruct (Dict.get k d) as [a|] eqn:Hgetd; [|done].
        assert (Hk : k ∈ Dict.keys D).
        { rewrite HE. apply elem_of_app. left. apply get_is_Some. eauto. }
        apply get_is_Some in Hk as [? ?]. congruence.
Qed.

(** X15.  A dataclass that adds no fields has the fields of its parent: once the
    parent's attributes have been computed and stored, the attributes
    collected for a subclass without attributes of its own, whose
    linearization is the parent's with the subclass in front, are the
    parent's list, in the same order. *)
Theorem dataclass_fields_inherited (st st' : MetaStore) parent child ancestors
    own_attrs decorator key attrs :
  get_metadata_key decorator = Some key →
  key ≠ "__attrs_attrs__" →
  mro h parent = parent :: ancestors →
  parent ∉ ancestors →
  isinstance_Class h parent = true →
  mro h child = child :: mro h parent →
  compute_attr_metadata h st parent own_attrs decorator = Some (attrs, st') →
  _get_attrs_from_mro h st' child [] key = attrs.
Proof.
  intros Hdec Hkey Hmro Hnotin Hclass Hchild Hcomp.
  unfold compute_attr_metadata in Hcomp. unfold get_metadata_key in Hdec.
  rewrite Hdec in Hcomp. injection Hcomp as Hattrs Hst.
  assert (Hp : metadata_get st' parent key = Some attrs).
  { subst st'. unfold metadata_get, MetaStore.
    by rewrite lookup_total_insert_eq, lookup_insert_eq, Hattrs. }
  assert (Ho : ∀ c, c ≠ parent → metadata_get st' c key = metadata_get st c key).
  { intros c Hc. subst st'. unfold metadata_get, MetaStore.
    by rewrite lookup_total_insert_ne. }
  clear Hst.
  set (A := mjoin ((λ c, default [] (metadata_get st c key))
                     <$> filter (λ c, isinstance_Class h c = true)
                                (reverse ancestors))).
  assert (Hparent : attrs
            = Dict.values (foldl (λ d a, Dict.set (a_name a) a d)
                                 (foldl (λ d a, Dict.set (a_name a) a d) [] A)
                                 own_attrs)).
  { rewrite <-Hattrs. unfold _get_attrs_from_mro.
    rewrite decide_False by done. rewrite foldl_join, Hmro. cbn [tail].
    rewrite join_app. fold A. simpl. by rewrite app_nil_r, foldl_app. }
  unfold _get_attrs_from_mro. rewrite decide_False by done.
  rewrite foldl_join, Hchild, Hmro. cbn [tail].
  rewrite reverse_cons, filter_app, fmap_app, filter_cons, filter_nil.
  rewrite decide_True by done. rewrite !join_app. simpl.
  rewrite Hp. simpl. rewrite !app_nil_r.
  replace (mjoin ((λ c, default [] (metadata_get st' c key))
                    <$> filter (λ c, isinstance_Class h c = true)
                               (reverse ancestors))) with A.
  2:{ unfold A. f_equal. apply list_fmap_ext. intros i c Hi.
      rewrite Ho; [done|]. intros ->.
      apply list_elem_of_lookup_2, list_elem_of_filter in Hi as [_ Hi].
      rewrite elem_of_reverse in Hi. done. }
  rewrite foldl_app, Hparent.
  destruct (attr_dict_entries A []) as [HndA HentA];
    [constructor | by intros ? ? ?%elem_of_nil |].
  by rewrite (attr_dict_revalue own_attrs _ HndA HentA).
Qed.
End inheritance.

Section examples.
Import ClassExamples ExtraExamples.

Example dataclass_fields_of_Leaf :
  _get_attrs_from_mro abc_heap (field_store "__dataclass_fields__") 3
    leaf_attrs "__dataclass_fields__"
  = [attr "x" 50; attr "y" 60; attr "z" 52; attr "w" 61].
Proof. vm_compute. reflexivity. Qed.

Example attrs_fields_of_Leaf :
  _get_attrs_from_mro abc_heap (field_store "__attrs_attrs__") 3
    leaf_attrs "__attrs_attrs__"
  = [attr "x" 50; attr "z" 52; attr "y" 60; attr "w" 61].
Proof. vm_compute. reflexivity. Qed.

Lemma get_attrs_from_mro_dataclass_witness :
  let all := attrs_in_order abc_heap (field_store "__dataclass_fields__") 3
               leaf_attrs "__dataclass_fields__" in
  let res := _get_attrs_from_mro abc_heap (field_store "__dataclass_fields__") 3
               leaf_attrs "__dataclass_fields__" in
  NoDup (a_name <$> res)
  ∧ a_name <$> res = reverse (remove_dups (reverse (a_name <$> all)))
  ∧ ∀ a, a ∈ res ↔ last (filter (λ a', a_name a' = a_name a) all) = Some a.
Proof.
  apply (get_attrs_from_mro_dataclass abc_heap
           (field_store "__dataclass_fields__") 3 leaf_attrs
           "__dataclass_fields__").
  discriminate.
Defined.

Lemma dataclass_fields_inherited_witness :
  let st := field_store "__dataclass_fields__" in
  let attrs := _get_attrs_from_mro abc_heap st 2 [attr "z" 52]
                 "__dataclass_fields__" in
  let st' := <[2 := <["__dataclass_fields__" := attrs]> (st !!! 2)]> st in
  _get_attrs_from_mro abc_heap st' 3 [] "__dataclass_fields__" = attrs.
Proof.
  intros st attrs st'.
  apply (dataclass_fields_inherited abc_heap st st' 2 3 [1; 0]
           [attr "z" 52] "dataclasses.dataclass" "__dataclass_fields__" attrs).
  - reflexivity.
  - discriminate.
  - reflexivity.
  - compute_done.
  - reflexivity.
  - reflexivity.
  - reflexivity.
Defined.
End examples.

End MetadataExtras.

Module SubstFacts.
Import Substs DictFacts.
Section subst_facts.
Context {V : Type}.
Implicit Types (d r sub : list (string * V)).

Lemma set_set k v v0 d : Dict.set k v (Dict.set k v0 d) = Dict.set k v d.
Proof.
  induction d as [|[k0 w] d IH]; simpl.
  - by rewrite decide_True.
  - destruct (decide (k = k0)) as [->|Hne]; simpl.
    + by rewrite decide_True.
    + rewrite decide_False by done. by rewrite IH.
Qed.

Lemma set_comm k v k1 v1 d :
  k ≠ k1 → k ∈ Dict.keys d →
  Dict.set k1 v1 (Dict.set k v d) = Dict.set k v (Dict.set k1 v1 d).
Proof.
  intros Hne. unfold Dict.keys. induction d as [|[k0 w] d IH]; simpl.
  - by intros ?%elem_of_nil.
  - intros Hin. destruct (decide (k = k0)) as [->|Hk]; simpl.
    + rewrite !(decide_False (P := k1 = k0)) by done. simpl.
      by rewrite decide_True.
    + apply elem_of_cons in Hin as [?|Hin]; [done|].
      destruct (decide (k1 = k0)) as [->|Hk1]; simpl.
      * by rewrite decide_False.
      * rewrite decide_False by done. by rewrite IH.
Qed.

Lemma keys_set_elem k v d : k ∈ Dict.keys (Dict.set k v d).
Proof. apply get_is_Some. rewrite get_set, decide_True; eauto. Qed.

Lemma keys_set_mono k k' v d : k ∈ Dict.keys d → k ∈ Dict.keys (Dict.set k' v d).
Proof.
  rewrite <-!get_is_Some, get_set. case_decide; eauto.
Qed.

Lemma dict_union_snoc d r k v :
  dict_union d (r ++ [(k, v)]) = Dict.set k v (dict_union d r).
Proof. unfold dict_union. by rewrite foldl_app. Qed.

Lemma set_dict_union_known k v d r :
  k ∈ Dict.keys d → k ∉ Dict.keys r →
  Dict.set k v (dict_union d r) = dict_union (Dict.set k v d) r.
Proof.
  unfold Dict.keys. revert d. induction r as [|[k1 v1] r IH]; intros d Hin Hnot.
  - done.
  - apply not_elem_of_cons in Hnot as [Hne Hnot]. simpl in Hne.
    change (dict_union d ((k1, v1) :: r)) with (dict_union (Dict.set k1 v1 d) r).
    change (dict_union (Dict.set k v d) ((k1, v1) :: r))
      with (dict_union (Dict.set k1 v1 (Dict.set k v d)) r).
    rewrite IH; [|by apply keys_set_mono|done].
    by rewrite (set_comm k v k1 v1).
Qed.

Lemma dict_union_set d k v r :
  NoDup (Dict.keys r) →
  dict_union d (Dict.set k v r) = Dict.set k v (dict_union d r).
Proof.
  unfold Dict.keys. revert d. induction r as [|[k0 v0] r IH]; intros d Hnd.
  - done.
  - apply NoDup_cons in Hnd as [Hnot Hnd]. simpl.
    destruct (decide (k = k0)) as [->|Hne].
    + change (dict_union d ((k0, v) :: r)) with (dict_union (Dict.set k0 v d) r).
      change (dict_union d ((k0, v0) :: r))
        with (dict_union (Dict.set k0 v0 d) r).
      rewrite set_dict_union_known; [|apply keys_set_elem|done].
      by rewrite set_set.
    + change (dict_union d ((k0, v0) :: Dict.set k v r))
        with (dict_union (Dict.set k0 v0 d) (Dict.set k v r)).
      by rewrite IH.
Qed.

Lemma NoDup_dict_union d r :
  NoDup (Dict.keys d) → NoDup (Dict.keys (dict_union d r)).
Proof.
  revert d. induction r as [|[k v] r IH]; intros d Hnd; [done|].
  apply IH. by apply NoDup_keys_set.
Qed.

Lemma dict_union_assoc d r sub :
  NoDup (Dict.keys r) →
  dict_union d (dict_union r sub) = dict_union (dict_union d r) sub.
Proof.
  intros Hnd. induction sub as [|[k v] sub IH] using rev_ind; [done|].
  rewrite !dict_union_snoc, dict_union_set, IH; [done|].
  by apply NoDup_dict_union.
Qed.

Lemma get_dict_union k d r :
  NoDup (Dict.keys r) →
  Dict.get k (dict_union d r) = from_option Some (Dict.get k d) (Dict.get k r).
Proof.
  unfold Dict.keys. revert d. induction r as [|[k0 v0] r IH]; intros d Hnd.
  - done.
  - apply NoDup_cons in Hnd as [Hnot Hnd].
    change (dict_union d ((k0, v0) :: r)) with (dict_union (Dict.set k0 v0 d) r).
    rewrite IH by done. simpl. rewrite get_set.
    destruct (decide (k = k0)) as [->|Hne]; [|done].
    destruct (Dict.get k0 r) eqn:Hget; [|done].
    destruct Hnot. apply get_is_Some. eauto.
Qed.

Lemma truthy_combine (s1 s2 : option (list (list (string * V)))) :
  truthy (Some (combine_substs s1 s2)) = truthy s1 || truthy s2.
Proof.
  unfold combine_substs.
  destruct s1 as [[|sub1 s1]|], s2 as [[|sub2 s2]|]; done.
Qed.

Lemma combine_truthy (s1 s2 : list (list (string * V))) :
  s1 ≠ [] → s2 ≠ [] →
  combine_substs (Some s1) (Some s2)
  = sub1 ← s1; sub2 ← s2; [dict_union sub1 sub2].
Proof. destruct s1, s2; done. Qed.
Lemma combine_lists_assoc (s1 s2 s3 : list (list (string * V))) :
  Forall (λ sub, NoDup (Dict.keys sub)) s2 →
  (sub12 ← (sub1 ← s1; sub2 ← s2; [dict_union sub1 sub2]);
   sub3 ← s3; [dict_union sub12 sub3])
  = sub1 ← s1; sub23 ← (sub2 ← s2; sub3 ← s3; [dict_union sub2 sub3]);
    [dict_union sub1 sub23].
Proof.
  intros Hnd. induction s1 as [|sub1 s1 IH]; [done|].
  rewrite !bind_cons, bind_app, IH. f_equal. clear IH.
  induction s2 as [|sub2 s2 IH]; [done|].
  apply Forall_cons in Hnd as [Hnd2 Hnd].
  rewrite !bind_cons, !bind_app, IH by done. f_equal. clear IH.
  change ([dict_union sub1 sub2] ≫= _)
    with ((sub3 ← s3; [dict_union (dict_union sub1 sub2) sub3]) ++ []).
  rewrite app_nil_r.
  induction s3 as [|sub3 s3 IH]; [done|].
  rewrite !bind_cons, bind_app, IH. f_equal.
  change ([dict_union sub2 sub3] ≫= _)
    with [dict_union sub1 (dict_union sub2 sub3)].
  f_equal. symmetry. by apply dict_union_assoc.
Qed.
End subst_facts.
End SubstFacts.

Module SubstExtras.
Import Substs DictFacts SubstFacts.
Section subst_extras.
Context {V : Type}.
Implicit Types (sub : list (string * V)) (substs : list (list (string * V))).

(** X16.  The combination of two non-empty collections of substitutions has one
    substitution for every pair, the pairs in the order of the first
    collection and then of the second; in it the parameters of the second
    substitution have the values of the second, and the other parameters
    those of the first. *)
Theorem combine_substs_pairs substs1 substs2 :
  substs1 ≠ [] → substs2 ≠ [] →
  Forall (λ sub, NoDup (Dict.keys sub)) substs2 →
  let res := combine_substs (Some substs1) (Some substs2) in
  length res = length substs1 * length substs2
  ∧ ∀ i j sub1 sub2,
      substs1 !! i = Some sub1 → substs2 !! j = Some sub2 →
      ∃ sub, res !! (i * length substs2 + j) = Some sub
             ∧ ∀ k, Dict.get k sub
                    = from_option Some (Dict.get k sub1) (Dict.get k sub2).
Proof.
  intros Hne1 Hne2 Hnd res. subst res. rewrite combine_truthy by done.
  clear Hne1 Hne2.
  assert (Hinner : ∀ sub1,
    (sub2 ← substs2; [dict_union sub1 sub2]) = dict_union sub1 <$> substs2).
  { intros sub1. clear. induction substs2 as [|s r IH]; [done|].
    simpl. f_equal; exact IH. }
  split.
  - induction substs1 as [|s1 r IH]; [done|].
    rewrite bind_cons, length_app, IH, Hinner, length_fmap. done.
  - induction substs1 as [|s1 r IH]; intros i j sub1 sub2 Hi Hj; [done|].
    rewrite bind_cons, Hinner. destruct i as [|i]; simpl in *.
    + injection Hi as ->. exists (dict_union sub1 sub2). split.
      * rewrite lookup_app_l
          by (rewrite length_fmap; by apply lookup_lt_Some in Hj).
        by rewrite list_lookup_fmap, Hj.
      * intros k. apply get_dict_union.
        by apply (Forall_lookup_1 _ _ _ _ Hnd Hj).
    + destruct (IH i j sub1 sub2 Hi Hj) as (sub & Hsub & Hget).
      exists sub. split; [|done].
      rewrite lookup_app_r by (rewrite length_fmap; lia).
      rewrite length_fmap.
      by replace (length substs2 + i * length substs2 + j - length substs2)
        with (i * length substs2 + j) by lia.
Qed.

(** X17.  Combining is associative: three collections of substitutions can be
    combined in either grouping, with the same substitutions in the same
    order, where [None] and the empty collection count for nothing. *)
Theorem combine_substs_assoc (s1 s2 s3 : option (list (list (string * V)))) :
  Forall (λ sub, NoDup (Dict.keys sub)) (default [] s2) →
  combine_substs (Some (combine_substs s1 s2)) s3
  = combine_substs s1 (Some (combine_substs s2 s3)).
Proof.
  intros Hnd.
  destruct (truthy s1) eqn:H1, (truthy s2) eqn:H2, (truthy s3) eqn:H3.
  all: unfold combine_substs at 1 3.
  all: rewrite !truthy_combine, ?H1, ?H2, ?H3; cbn [andb orb].
  all: unfold combine_substs; rewrite ?H1, ?H2, ?H3; cbn [andb orb]; try done.
  destruct s1 as [s1|], s2 as [s2|], s3 as [s3|]; try done.
  clear H1 H2 H3. cbn [from_option id] in *.
  by apply combine_lists_assoc.
Qed.
End subst_extras.

Section examples.
Import ExtraExamples.

Example combine_T_TU_U :
  combine_substs (Some (combine_substs (Some substs_T) (Some substs_TU)))
    (Some substs_U)
  = [[("T", 3); ("U", 5)]; [("T", 3); ("U", 4)];
     [("T", 3); ("U", 5)]; [("T", 3); ("U", 4)]].
Proof. reflexivity. Qed.

Lemma combine_substs_pairs_witness :
  let res := combine_substs (Some substs_T) (Some substs_TU) in
  length res = length substs_T * length substs_TU
  ∧ ∀ i j sub1 sub2,
      substs_T !! i = Some sub1 → substs_TU !! j = Some sub2 →
      ∃ sub, res !! (i * length substs_TU + j) = Some sub
             ∧ ∀ k, Dict.get k sub
                    = from_option Some (Dict.get k sub1) (Dict.get k sub2).
Proof.
  apply (combine_substs_pairs substs_T substs_TU).
  - discriminate.
  - discriminate.
  - compute_done.
Defined.

Lemma combine_substs_assoc_witness :
  combine_substs (Some (combine_substs (Some substs_T) (Some substs_TU)))
    (Some substs_U)
  = combine_substs (Some substs_T)
      (Some (combine_substs (Some substs_TU) (Some substs_U))).
Proof.
  apply (combine_substs_assoc (Some substs_T) (Some substs_TU) (Some substs_U)).
  compute_done.
Defined.
End examples.
End SubstExtras.

Module GenericTemplateExtras.
Import Abstract GenericTemplate.

Lemma size_list_to_set_le (l : list string) :
  size (list_to_set l : gset string) ≤ length l.
Proof.
  induction l as [|x l IH].
  - by rewrite list_to_set_nil, size_empty.
  - rewrite list_to_set_cons, size_union_alt, size_singleton. simpl.
    assert (size ((list_to_set l : gset string) ∖ {[x]}) ≤ size (list_to_set l : gset string))
      by (apply subseteq_size; set_solver).
    lia.
Qed.

Lemma size_list_to_set_NoDup (l : list string) :
  size (list_to_set l : gset string) = length l ↔ NoDup l.
Proof.
  split; [|apply size_list_to_set].
  induction l as [|x l IH]; [constructor|].
  rewrite list_to_set_cons. simpl.
  intros Hsize. pose proof (size_list_to_set_le l) as Hle.
  destruct (decide (x ∈ l)) as [Hin|Hnot].
  - replace ({[x]} ∪ list_to_set l : gset string) with (list_to_set l : gset string)
      in Hsize by set_solver.
    lia.
  - rewrite size_union, size_singleton in Hsize by set_solver.
    constructor; [done|]. apply IH. lia.
Qed.

Lemma forallb_Forall_true {A} (f : A → bool) (l : list A) :
  forallb f l = true ↔ Forall (λ x, f x = true) l.
Proof.
  induction l as [|x l IH]; simpl.
  - split; [constructor | done].
  - rewrite andb_true_iff, Forall_cons, IH. done.
Qed.

Lemma names_of_type_parameters (items : list Param) :
  Forall (λ item, isinstance_TypeParameter item = true) items →
  Forall2 (λ n item, param_name item = Some n) (omap param_name items) items.
Proof.
  induction 1 as [|[t|o] items Hx _ IH]; simpl; try done; by constructor.
Qed.

(** X18.  [build_generic_template] reports nothing exactly when every argument of
    [Generic[...]] is a type variable and the names of the arguments are
    pairwise different. *)
Theorem build_generic_template_silent type_params base_type errorlog :
  (build_generic_template type_params base_type errorlog).2 = errorlog
  ↔ Forall (λ item, isinstance_TypeParameter item = true) type_params
    ∧ NoDup (omap param_name type_params).
Proof.
  unfold build_generic_template.
  destruct (forallb isinstance_TypeParameter type_params) eqn:Hall; simpl.
  - apply forallb_Forall_true in Hall.
    case_decide as Hsize.
    + split.
      * intros Heq. apply (f_equal length) in Heq.
        rewrite length_app in Heq. simpl in Heq. lia.
      * intros [_ Hnd%size_list_to_set_NoDup]. done.
    + split; [|done]. intros _. split; [done|].
      by apply size_list_to_set_NoDup.
  - split.
    + intros Heq. apply (f_equal length) in Heq.
      case_decide; rewrite !length_app in Heq; simpl in Heq; lia.
    + intros [Hall'%forallb_Forall_true _]. congruence.
Qed.

(** X19.  Whatever it reports, [build_generic_template] returns the type variables
    among the arguments, in their order, and the template has the name of
    each of them, at the same position. *)
Theorem build_generic_template_result type_params base_type errorlog :
  let '(template, params) :=
    (build_generic_template type_params base_type errorlog).1 in
  params = filter (λ item, isinstance_TypeParameter item = true) type_params
  ∧ Forall2 (λ n item, param_name item = Some n) template params.
Proof.
  unfold build_generic_template.
  destruct (forallb isinstance_TypeParameter type_params) eqn:Hall; simpl.
  - apply forallb_Forall_true in Hall.
    split; [|by apply names_of_type_parameters].
    symmetry. induction Hall as [|x l Hx _ IH]; [done|].
    rewrite filter_cons, decide_True by done. by rewrite IH.
  - split; [done|]. apply names_of_type_parameters.
    apply Forall_forall. by intros x [? _]%list_elem_of_filter.
Qed.

Section examples.
Import ClassExamples.

Example generic_T_int_T :
  build_generic_template [TypeParam T; Concrete 1; TypeParam T] 7 []
  = ((["T"; "T"], [TypeParam T; TypeParam T]),
     [(7, "Parameters to Generic[...] must all be type variables");
      (7, "Parameters to Generic[...] must all be unique")]).
Proof. vm_compute. reflexivity. Qed.
End examples.

End GenericTemplateExtras.

Module ClassLocalsExtras.
Import Classgen DictFacts ListFacts.

Section locals.
Context {L D : Type}.
Variable orig : L → option (list D).
Variable method_type : D → bool.
Variable annotated_locals : gmap string (gmap string L).
Variable cls_name : string.
Variable allow_methods : bool.
Implicit Types (out : list (string * L)) (op : Op) (ops : list Op).

Lemma locals_loop_raised ordering e ops :
  foldl (locals_step orig method_type annotated_locals cls_name allow_methods
           ordering) (inl e) ops = inl e.
Proof. induction ops as [|op ops IH]; [done|]. exact IH. Qed.

Lemma locals_step_succeeds ordering out op :
  (is_dunder (op_name op) = false →
   ∃ local, annotated_local annotated_locals cls_name (op_name op) = Some local
            ∧ (allow_methods = false → orig local ≠ Some [])) →
  locals_step orig method_type annotated_locals cls_name allow_methods ordering
    (inr out) op
  = inr (kept_step orig method_type annotated_locals cls_name allow_methods
           ordering out op).
Proof.
  intros Hop. unfold locals_step, kept_step, passes.
  destruct (is_dunder (op_name op)) eqn:Hdunder.
  - by destruct (annotated_local annotated_locals cls_name (op_name op)).
  - destruct Hop as (local & -> & Horig); [done|]. cbn [negb andb].
    destruct allow_methods; [done|]. cbn [orb].
    destruct (orig local) as [[|d ds]|]; cbn [is_method].
    + by destruct Horig.
    + by destruct (method_type d).
    + done.
Qed.

Lemma locals_loop_succeeds ordering ops : ∀ out,
  lookups_succeed orig annotated_locals cls_name allow_methods ops →
  foldl (locals_step orig method_type annotated_locals cls_name allow_methods
           ordering) (inr out) ops
  = inr (foldl (kept_step orig method_type annotated_locals cls_name
                  allow_methods ordering) out ops).
Proof.
  induction ops as [|op ops IH]; intros out Hops; [done|].
  cbn [foldl]. rewrite locals_step_succeeds.
  - apply IH. intros op' Hin. apply Hops. by right.
  - apply Hops. left.
Qed.

Lemma locals_loop_returns ordering ops : ∀ out out',
  foldl (locals_step orig method_type annotated_locals cls_name allow_methods
           ordering) (inr out) ops = inr out' →
  lookups_succeed orig annotated_locals cls_name allow_methods ops.
Proof.
  induction ops as [|op ops IH]; intros out out' Hrun op' Hin Hdunder.
  - by apply elem_of_nil in Hin.
  - cbn [foldl] in Hrun.
    destruct (locals_step orig method_type annotated_locals cls_name
                allow_methods ordering (inr out) op) as [e|out1] eqn:Hstep.
    { by rewrite locals_loop_raised in Hrun. }
    apply elem_of_cons in Hin as [->|Hin]; [|by apply (IH out1 out')].
    unfold locals_step in Hstep. rewrite Hdunder in Hstep.
    destruct (annotated_local annotated_locals cls_name (op_name op))
      as [local|]; [|done].
    exists local. split; [done|]. intros -> Horig.
    rewrite Horig in Hstep. done.
Qed.

(** The entries are the locals of their names. *)
Lemma kept_loop_values ordering ops : ∀ out,
  (∀ name local, (name, local) ∈ out →
     annotated_local annotated_locals cls_name name = Some local) →
  ∀ name local,
    (name, local) ∈ foldl (kept_step orig method_type annotated_locals cls_name
                             allow_methods ordering) out ops →
    annotated_local annotated_locals cls_name name = Some local.
Proof.
  assert (Hset : ∀ k (v : L) out name local,
    (name, local) ∈ Dict.set k v out →
    (name, local) = (k, v) ∨ (name, local) ∈ out).
  { intros k v out name local. induction out as [|[k0 v0] out IH]; simpl.
    - intros ?%list_elem_of_singleton. by left.
    - case_decide.
      + intros [?|?]%elem_of_cons; [by left | right; by right].
      + intros [->|Hin]%elem_of_cons; [right; by left|].
        destruct (IH Hin); [by left | right; by right]. }
  induction ops as [|op ops IH]; intros out Hout; [done|].
  cbn [foldl]. apply IH. intros name local. unfold kept_step.
  destruct (annotated_local annotated_locals cls_name (op_name op))
    as [l|] eqn:Hl; [|by apply Hout].
  destruct (passes orig method_type annotated_locals cls_name allow_methods op);
    [|by apply Hout].
  unfold enter. destruct ordering.
  - destruct (negb (is_annotate op) || bool_decide (op_name op ∈ Dict.keys out));
      [by apply Hout|].
    intros [[= -> ->]|Hin]%Hset; [done | by apply Hout].
  - destruct (negb (is_assign op)); [by apply Hout|].
    case_bool_decide.
    + intros [[= -> ->]|Hin]%Hset; [done|].
      apply Hout. unfold del in Hin. by apply list_elem_of_filter in Hin as [_ ?].
    + intros [[= -> ->]|Hin]%Hset; [done | by apply Hout].
Qed.

Lemma passes_lookup op :
  passes orig method_type annotated_locals cls_name allow_methods op = true →
  is_Some (annotated_local annotated_locals cls_name (op_name op)).
Proof.
  unfold passes. intros [_ H]%andb_true_iff.
  destruct (annotated_local annotated_locals cls_name (op_name op)); [eauto|done].
Qed.

Lemma kept_loop_first_annotate ops :
  Dict.keys (foldl (kept_step orig method_type annotated_locals cls_name
                      allow_methods FIRST_ANNOTATE) [] ops)
  = reverse (remove_dups (reverse (op_name <$>
      filter (λ op, passes orig method_type annotated_locals cls_name
                      allow_methods op && is_annotate op = true) ops))).
Proof.
  induction ops as [|op ops IH] using rev_ind; [done|].
  rewrite foldl_app, filter_snoc. cbn [foldl].
  set (out := foldl _ [] ops) in *.
  unfold kept_step.
  destruct (passes orig method_type annotated_locals cls_name allow_methods op)
    eqn:Hpass.
  - destruct (passes_lookup op Hpass) as [local ->].
    unfold enter. destruct (is_annotate op); cbn [negb orb andb].
    + rewrite decide_True by done.
      rewrite fmap_app. change (op_name <$> [op]) with [op_name op].
      rewrite first_occurrences_snoc, <-IH.
      assert (Hiff : op_name op ∈ Dict.keys out ↔ op_name op ∈ op_name <$>
                filter (λ op, passes orig method_type annotated_locals cls_name
                                allow_methods op && is_annotate op = true) ops)
        by (rewrite IH; apply elem_of_first_occurrences).
      destruct (decide (op_name op ∈ Dict.keys out)) as [Hin|Hnot].
      * rewrite !bool_decide_eq_true_2 by (done || by apply Hiff). done.
      * rewrite !bool_decide_eq_false_2 by (done || by rewrite <-Hiff).
        by rewrite keys_set, bool_decide_eq_false_2.
    + rewrite decide_False by done. by rewrite app_nil_r.
  - cbn [andb]. rewrite decide_False by done. rewrite app_nil_r.
    by destruct (annotated_local annotated_locals cls_name (op_name op)).
Qed.

Lemma keys_del name out :
  Dict.keys (del name out) = filter (λ k, k ≠ name) (Dict.keys out).
Proof.
  unfold Dict.keys, del. induction out as [|[k v] out IH]; [done|].
  rewrite fmap_cons, !filter_cons. simpl.
  destruct (decide (k ≠ name)); [|done]. by rewrite fmap_cons, IH.
Qed.

Lemma kept_loop_last_assign ops :
  Dict.keys (foldl (kept_step orig method_type annotated_locals cls_name
                      allow_methods LAST_ASSIGN) [] ops)
  = remove_dups (op_name <$>
      filter (λ op, passes orig method_type annotated_locals cls_name
                      allow_methods op && is_assign op = true) ops).
Proof.
  induction ops as [|op ops IH] using rev_ind; [done|].
  rewrite foldl_app, filter_snoc. cbn [foldl].
  set (out := foldl _ [] ops) in *.
  unfold kept_step.
  destruct (passes orig method_type annotated_locals cls_name allow_methods op)
    eqn:Hpass.
  - destruct (passes_lookup op Hpass) as [local ->].
    unfold enter. destruct (is_assign op); cbn [negb orb andb].
    + rewrite decide_True by done.
      rewrite fmap_app. change (op_name <$> [op]) with [op_name op].
      rewrite remove_dups_snoc, <-IH.
      case_bool_decide as Hin.
      * rewrite set_fresh by (rewrite keys_del; by intros [? _]%list_elem_of_filter).
        unfold Dict.keys. rewrite fmap_app. f_equal. apply keys_del.
      * rewrite set_fresh by done. unfold Dict.keys. rewrite fmap_app.
        f_equal. symmetry. apply filter_id. by intros x Hx ->.
    + rewrite decide_False by done. by rewrite app_nil_r.
  - cbn [andb]. rewrite decide_False by done. rewrite app_nil_r.
    by destruct (annotated_local annotated_locals cls_name (op_name op)).
Qed.
(** X20.  [get_class_locals] returns exactly when the lookups of its loop succeed:
    every opcode of the class whose name is no dunder name has a local and,
    when methods are not allowed, the local is not bound to a Variable
    without bindings. *)
Theorem get_class_locals_returns ordering local_ops ops :
  local_ops !! cls_name = Some ops →
  (∃ out, get_class_locals orig method_type cls_name allow_methods ordering
            local_ops annotated_locals = inr out)
  ↔ lookups_succeed orig annotated_locals cls_name allow_methods ops.
Proof.
  intros Hops. unfold get_class_locals. rewrite Hops. split.
  - intros [out Hout]. by apply (locals_loop_returns ordering ops [] out).
  - intros Hok. rewrite locals_loop_succeeds by done. eauto.
Qed.

(** X21.  With [Ordering.FIRST_ANNOTATE], the locals come in the order of the
    first annotation of each name: the keys are the names of the annotating
    opcodes that pass the tests for dunder names and methods, each name at
    its first occurrence, and every key has the local of its name. *)
Theorem get_class_locals_first_annotate local_ops ops :
  local_ops !! cls_name = Some ops →
  lookups_succeed orig annotated_locals cls_name allow_methods ops →
  ∃ out,
    get_class_locals orig method_type cls_name allow_methods FIRST_ANNOTATE
      local_ops annotated_locals = inr out
    ∧ Dict.keys out
      = reverse (remove_dups (reverse (op_name <$>
          filter (λ op, passes orig method_type annotated_locals cls_name
                          allow_methods op && is_annotate op = true) ops)))
    ∧ ∀ name local, (name, local) ∈ out →
        annotated_local annotated_locals cls_name name = Some local.
Proof.
  intros Hops Hok. unfold get_class_locals. rewrite Hops.
  rewrite locals_loop_succeeds by done. eexists. split; [done|]. split.
  - apply kept_loop_first_annotate.
  - apply kept_loop_values. by intros ? ? ?%elem_of_nil.
Qed.

(** X22.  With [Ordering.LAST_ASSIGN], the locals come in the order of the last
    assignment of each name: the keys are the names of the assigning
    opcodes that pass the tests for dunder names and methods, each name at
    its last occurrence, and every key has the local of its name. *)
Theorem get_class_locals_last_assign local_ops ops :
  local_ops !! cls_name = Some ops →
  lookups_succeed orig annotated_locals cls_name allow_methods ops →
  ∃ out,
    get_class_locals orig method_type cls_name allow_methods LAST_ASSIGN
      local_ops annotated_locals = inr out
    ∧ Dict.keys out
      = remove_dups (op_name <$>
          filter (λ op, passes orig method_type annotated_locals cls_name
                          allow_methods op && is_assign op = true) ops)
    ∧ ∀ name local, (name, local) ∈ out →
        annotated_local annotated_locals cls_name name = Some local.
Proof.
  intros Hops Hok. unfold get_class_locals. rewrite Hops.
  rewrite locals_loop_succeeds by done. eexists. split; [done|]. split.
  - apply kept_loop_last_assign.
  - apply kept_loop_values. by intros ? ? ?%elem_of_nil.
Qed.
End locals.

Section examples.
Import ExtraExamples.

Example first_annotate_of_Foo :
  get_class_locals foo_orig foo_method_type "Foo" false FIRST_ANNOTATE
    foo_local_ops foo_annotated_locals
  = inr [("x", 1); ("y", 2)].
Proof. vm_compute. reflexivity. Qed.

Example last_assign_of_Foo :
  get_class_locals foo_orig foo_method_type "Foo" false LAST_ASSIGN
    foo_local_ops foo_annotated_locals
  = inr [("y", 2); ("x", 1)].
Proof. vm_compute. reflexivity. Qed.

Example last_assign_with_methods_of_Foo :
  get_class_locals foo_orig foo_method_type "Foo" true LAST_ASSIGN
    foo_local_ops foo_annotated_locals
  = inr [("f", 3); ("y", 2); ("x", 1)].
Proof. vm_compute. reflexivity. Qed.

Lemma foo_lookups_succeed allow_methods :
  lookups_succeed foo_orig foo_annotated_locals "Foo" allow_methods foo_ops.
Proof.
  intros op Hin Hdunder. unfold foo_ops in Hin.
  repeat (apply elem_of_cons in Hin as [->|Hin]);
    try (by apply elem_of_nil in Hin); try discriminate Hdunder;
    (eexists; split; [vm_compute; reflexivity | discriminate]).
Defined.

Lemma get_class_locals_returns_witness :
  (∃ out, get_class_locals foo_orig foo_method_type "Foo" false LAST_ASSIGN
            foo_local_ops foo_annotated_locals = inr out)
  ↔ lookups_succeed foo_orig foo_annotated_locals "Foo" false foo_ops.
Proof.
  apply (get_class_locals_returns foo_orig foo_method_type
           foo_annotated_locals "Foo" false LAST_ASSIGN foo_local_ops foo_ops).
  reflexivity.
Defined.

Lemma get_class_locals_first_annotate_witness :
  ∃ out,
    get_class_locals foo_orig foo_method_type "Foo" false FIRST_ANNOTATE
      foo_local_ops foo_annotated_locals = inr out
    ∧ Dict.keys out
      = reverse (remove_dups (reverse (op_name <$>
          filter (λ op, passes foo_orig foo_method_type foo_annotated_locals
                          "Foo" false op && is_annotate op = true) foo_ops)))
    ∧ ∀ name local, (name, local) ∈ out →
        annotated_local foo_annotated_locals "Foo" name = Some local.
Proof.
  apply (get_class_locals_first_annotate foo_orig foo_method_type
           foo_annotated_locals "Foo" false foo_local_ops foo_ops).
  - reflexivity.
  - apply foo_lookups_succeed.
Defined.

Lemma get_class_locals_last_assign_witness :
  ∃ out,
    get_class_locals foo_orig foo_method_type "Foo" false LAST_ASSIGN
      foo_local_ops foo_annotated_locals = inr out
    ∧ Dict.keys out
      = remove_dups (op_name <$>
          filter (λ op, passes foo_orig foo_method_type foo_annotated_locals
                          "Foo" false op && is_assign op = true) foo_ops)
    ∧ ∀ name local, (name, local) ∈ out →
        annotated_local foo_annotated_locals "Foo" name = Some local.
Proof.
  apply (get_class_locals_last_assign foo_orig foo_method_type
           foo_annotated_locals "Foo" false foo_local_ops foo_ops).
  - reflexivity.
  - apply foo_lookups_succeed.
Defined.
End examples.
End ClassLocalsExtras.

Module DecoratorExtras.
Import Metadata Classgen DictFacts ListFacts.

Section decorator.
Context {D : Type}.
Variable value_to_constant : D → option Constant.
Variable init_name : Attribute → string.
Variable PY3 : bool.
Implicit Types (attrs : list Attribute) (namedargs : list (string * list D)).

Lemma init_params_loop all_kwonly attrs : ∀ pos_params kwonly_params,
  foldl (λ '(pos_params, kwonly_params) attr,
           if negb (a_init attr) then (pos_params, kwonly_params)
           else
             let typ := default (a_typ attr) (a_init_type attr) in
             let param := mkParam (init_name attr) typ (a_default attr) in
             if PY3 && (truth all_kwonly || a_kw_only attr)
             then (pos_params, kwonly_params ++ [param])
             else (pos_params ++ [param], kwonly_params))
        (pos_params, kwonly_params) attrs
  = (pos_params ++ (param_of init_name <$>
       filter (λ a, a_init a && negb (keyword_only PY3 all_kwonly a) = true)
              attrs),
     kwonly_params ++ (param_of init_name <$>
       filter (λ a, a_init a && keyword_only PY3 all_kwonly a = true) attrs)).
Proof.
  induction attrs as [|a attrs IH]; intros pos_params kwonly_params.
  - simpl. by rewrite !app_nil_r.
  - cbn [foldl]. rewrite !filter_cons.
    fold (keyword_only PY3 all_kwonly a).
    destruct (a_init a); cbn [negb andb].
    + destruct (keyword_only PY3 all_kwonly a); cbn [negb].
      * rewrite IH, decide_False, decide_True by done.
        by rewrite fmap_cons, <-app_assoc.
      * rewrite IH, decide_True, decide_False by done.
        by rewrite fmap_cons, <-app_assoc.
    + rewrite IH, !decide_False by done. done.
Qed.

Lemma partition_Permutation {A} (p : A → bool) (l : list A) :
  filter (λ a, negb (p a) = true) l ++ filter (λ a, p a = true) l ≡ₚ l.
Proof.
  induction l as [|x l IH]; [done|].
  rewrite !filter_cons.
  destruct (decide (negb (p x) = true)) as [H1|H1],
           (decide (p x = true)) as [H2|H2].
  - rewrite H2 in H1. done.
  - simpl. by constructor.
  - rewrite <-Permutation_middle. by constructor.
  - destruct (p x); done.
Qed.

(** X23.  The parameters of the generated [__init__]: the attributes with
    [init] become parameters, in their order, the keyword-only ones apart
    from the positional ones, and none is lost or doubled.  Before Python 3
    no parameter is keyword-only, and in Python 3 a true [kw_only] of the
    class makes every parameter keyword-only, whatever the fields say. *)
Theorem make_init_partition (args : gmap ObjId (list (string * Constant)))
    cls cls_args all_kwonly attrs :
  args !! cls = Some cls_args →
  Dict.get "kw_only" cls_args = Some all_kwonly →
  ∃ pos_params kwonly_params,
    make_init init_name PY3 args cls attrs = inr (pos_params, kwonly_params)
    ∧ pos_params = param_of init_name <$>
        filter (λ a, a_init a && negb (keyword_only PY3 all_kwonly a) = true)
               attrs
    ∧ kwonly_params = param_of init_name <$>
        filter (λ a, a_init a && keyword_only PY3 all_kwonly a = true) attrs
    ∧ pos_params ++ kwonly_params
      ≡ₚ param_of init_name <$> filter (λ a, a_init a = true) attrs
    ∧ (PY3 = false → kwonly_params = [])
    ∧ (PY3 = true → truth all_kwonly = true → pos_params = []).
Proof.
  intros Hargs Hkw. unfold make_init. rewrite Hargs, Hkw.
  unfold init_params. rewrite init_params_loop. cbn [app].
  eexists _, _. split; [done|]. split; [done|]. split; [done|]. split_and!.
  - rewrite <-fmap_app. apply fmap_Permutation.
    rewrite <-(partition_Permutation (keyword_only PY3 all_kwonly)
                 (filter (λ a, a_init a = true) attrs)).
    rewrite !list_filter_filter. apply Permutation_app.
    + erewrite list_filter_iff; [done|].
      intros a. simpl. rewrite andb_true_iff. tauto.
    + erewrite list_filter_iff; [done|].
      intros a. simpl. rewrite andb_true_iff. tauto.
  - intros ->. rewrite (filter_empty _ attrs); [done|].
    intros a _. unfold keyword_only. cbn [andb]. rewrite andb_false_r. done.
  - intros -> Htruth. rewrite (filter_empty _ attrs); [done|].
    intros a _. unfold keyword_only. rewrite Htruth. cbn [andb orb negb].
    rewrite andb_false_r. done.
Qed.
Lemma get_app {V} k (l r : list (string * V)) :
  Dict.get k (l ++ r) = from_option Some (Dict.get k r) (Dict.get k l).
Proof.
  induction l as [|[k0 v0] l IH]; simpl; [done|]. by case_decide.
Qed.

Lemma update_kwargs_keys_log namedargs errorlog :
  Dict.keys (update_kwargs value_to_constant namedargs errorlog).1
  = Dict.keys _DEFAULT_ARGS
  ∧ (update_kwargs value_to_constant namedargs errorlog).2
    = errorlog ++ (filter (λ kv, kv.1 ∈ Dict.keys _DEFAULT_ARGS
                                 ∧ get_atomic_python_constant value_to_constant
                                     kv.2 = None) namedargs).*1.
Proof.
  unfold update_kwargs.
  induction namedargs as [|[k v] namedargs IH] using rev_ind.
  - simpl. by rewrite app_nil_r.
  - rewrite foldl_app, filter_snoc. cbn [foldl].
    destruct (foldl _ _ namedargs) as [cur log]. simpl in IH.
    destruct IH as [IHk ->]. rewrite IHk. cbn [fst snd].
    case_bool_decide as Hin.
    + destruct (get_atomic_python_constant value_to_constant v) as [c|] eqn:Hc.
      * cbn [fst snd]. rewrite decide_False by (by intros [_ ?]).
        rewrite app_nil_r. split; [|done].
        rewrite keys_set, bool_decide_eq_true_2; [done | by rewrite IHk].
      * cbn [fst snd]. rewrite decide_True by done.
        by rewrite fmap_app, app_assoc.
    + cbn [fst snd]. rewrite decide_False by (by intros [? _]).
      by rewrite app_nil_r.
Qed.

(** X24.  The arguments that [update_kwargs] stores are always the three that
    the decorators support, in the order of the defaults: an argument of
    any other name is dropped in silence.  The error log grows by the
    supported arguments that are no constants, in the order in which they
    were given, and by nothing else. *)
Theorem update_kwargs_keys namedargs errorlog :
  Dict.keys (update_kwargs value_to_constant namedargs errorlog).1
  = ["init"; "kw_only"; "auto_attribs"]
  ∧ (update_kwargs value_to_constant namedargs errorlog).2
    = errorlog ++ (filter (λ kv, kv.1 ∈ ["init"; "kw_only"; "auto_attribs"]
                                 ∧ get_atomic_python_constant value_to_constant
                                     kv.2 = None) namedargs).*1.
Proof. apply update_kwargs_keys_log. Qed.

(** X25.  Each of the supported arguments has, after [update_kwargs], the
    constant that was given for it, and its default when it was not given
    or was given as something that is no constant. *)
Theorem update_kwargs_values namedargs errorlog k :
  NoDup (Dict.keys namedargs) →
  Dict.get k (update_kwargs value_to_constant namedargs errorlog).1
  = dflt ← Dict.get k _DEFAULT_ARGS;
    Some (default dflt (Dict.get k namedargs
                          ≫= get_atomic_python_constant value_to_constant)).
Proof.
  unfold update_kwargs.
  induction namedargs as [|[k0 v] namedargs IH] using rev_ind; intros Hnd.
  - cbn [foldl fst]. change (Dict.get k [] ≫= _) with (@None Constant).
    by destruct (Dict.get k _DEFAULT_ARGS).
  - unfold Dict.keys in Hnd. rewrite fmap_app in Hnd.
    apply NoDup_app in Hnd as (Hnd & Hfresh & _).
    assert (Hk0 : Dict.get k0 namedargs = None).
    { destruct (Dict.get k0 namedargs) eqn:Hget; [|done].
      destruct (Hfresh k0); [|left].
      apply get_is_Some. eauto. }
    pose proof (update_kwargs_keys_log namedargs errorlog) as [Hkeys _].
    unfold update_kwargs in Hkeys.
    rewrite foldl_app, get_app. cbn [foldl].
    destruct (foldl _ _ namedargs) as [cur log]. cbn [fst] in *.
    specialize (IH Hnd).
    assert (Hlast : Dict.get k [(k0, v)] = if decide (k = k0) then Some v else None)
      by done.
    rewrite Hlast. clear Hlast.
    destruct (decide (k = k0)) as [->|Hne].
    + rewrite Hk0 in *. cbn [from_option mbind option_bind] in *.
      case_bool_decide as Hin.
      * destruct (get_atomic_python_constant value_to_constant v) as [c|] eqn:Hc;
          cbn [fst].
        -- rewrite get_set, decide_True by done.
           rewrite Hkeys in Hin. apply get_is_Some in Hin as [dflt ->]. done.
        -- rewrite IH. by destruct (Dict.get k0 _DEFAULT_ARGS).
      * cbn [fst]. rewrite IH.
        destruct (Dict.get k0 _DEFAULT_ARGS) eqn:Hd; [|done].
        destruct Hin. rewrite Hkeys. apply get_is_Some. eauto.
    + assert (Hcur : Dict.get k (if bool_decide (k0 ∈ Dict.keys cur)
                then match get_atomic_python_constant value_to_constant v with
                     | Some c => (Dict.set k0 c cur, log)
                     | None => (cur, log ++ [k0])
                     end
                else (cur, log)).1 = Dict.get k cur).
      { case_bool_decide; [|done].
        destruct (get_atomic_python_constant value_to_constant v); [|done].
        cbn [fst]. by rewrite get_set, decide_False. }
      rewrite Hcur, IH.
      by destruct (Dict.get k namedargs).
Qed.

(** X26.  When the arguments stored for a class are the ones that
    [update_kwargs] produced, [make_init] finds the argument [kw_only] and
    makes the parameters: it raises no error. *)
Theorem make_init_after_update_kwargs
    (args : gmap ObjId (list (string * Constant))) namedargs errorlog cls attrs :
  ∃ all_kwonly,
    make_init init_name PY3
      (<[cls := (update_kwargs value_to_constant namedargs errorlog).1]> args)
      cls attrs
    = inr (init_params init_name PY3 all_kwonly attrs).
Proof.
  unfold make_init. rewrite lookup_insert_eq.
  destruct (update_kwargs_keys_log namedargs errorlog) as [Hkeys _].
  assert (Hin : "kw_only" ∈ Dict.keys
            (update_kwargs value_to_constant namedargs errorlog).1)
    by (rewrite Hkeys; compute_done).
  apply get_is_Some in Hin as [c ->]. by exists c.
Qed.
End decorator.

Section examples.
Import ExtraExamples.

Example update_kwargs_of_decorator :
  update_kwargs decorator_constant decorator_namedargs []
  = ([("init", ConstBool true); ("kw_only", ConstBool true);
      ("auto_attribs", ConstBool false)], ["init"]).
Proof. vm_compute. reflexivity. Qed.

Example make_init_of_decorator :
  make_init a_name true
    {[7 := (update_kwargs decorator_constant decorator_namedargs []).1]}
    7 init_attrs
  = inr ([], [mkParam "a" 50 None; mkParam "c" 53 None]).
Proof. vm_compute. reflexivity. Qed.

Lemma update_kwargs_values_witness :
  Dict.get "kw_only"
    (update_kwargs decorator_constant decorator_namedargs []).1
  = dflt ← Dict.get "kw_only" _DEFAULT_ARGS;
    Some (default dflt (Dict.get "kw_only" decorator_namedargs
                          ≫= get_atomic_python_constant decorator_constant)).
Proof.
  apply (update_kwargs_values decorator_constant decorator_namedargs []
           "kw_only").
  compute_done.
Defined.

Lemma make_init_partition_witness :
  ∃ pos_params kwonly_params,
    make_init a_name true {[7 := _DEFAULT_ARGS]} 7 init_attrs
    = inr (pos_params, kwonly_params)
    ∧ pos_params = param_of a_name <$>
        filter (λ a, a_init a
                     && negb (keyword_only true (ConstBool false) a) = true)
               init_attrs
    ∧ kwonly_params = param_of a_name <$>
        filter (λ a, a_init a && keyword_only true (ConstBool false) a = true)
               init_attrs
    ∧ pos_params ++ kwonly_params
      ≡ₚ param_of a_name <$> filter (λ a, a_init a = true) init_attrs
    ∧ (true = false → kwonly_params = [])
    ∧ (true = true → truth (ConstBool false) = true → pos_params = []).
Proof.
  apply (make_init_partition a_name true {[7 := _DEFAULT_ARGS]} 7
           _DEFAULT_ARGS (ConstBool false) init_attrs).
  - reflexivity.
  - reflexivity.
Defined.
End examples.
End DecoratorExtras.

Module PredicateExtras.
Import Abstract ClassClosure Predicates.

Section predicates.
Variable h : Heap.
Variable cls : ObjId → option ObjId.
Variable pytd_parents : ObjId → list string.
Variable abstract_methods : ObjId → gset string.
Variable isinstance_PythonConstant : ObjId → bool.
Variable could_contain_anything : ObjId → bool.

Lemma existsb_impl {A} (f g : A → bool) (l : list A) :
  (∀ x, f x = true → g x = true) → existsb f l = true → existsb g l = true.
Proof.
  intros Himpl. induction l as [|x l IH]; simpl; [done|].
  rewrite !orb_true_iff. intros [?|?]; [left; by apply Himpl | right; by apply IH].
Qed.

(** X27.  A class of the analysed program that inherits directly from
    [typing.Protocol] is abstract exactly when it has abstract methods,
    whatever its metaclass is. *)
Theorem protocol_is_abstract self :
  isinstance_InterpreterClass h self = true →
  has_protocol_parent h pytd_parents self = true →
  is_abstract h cls abstract_methods self
  = bool_decide (abstract_methods self ≠ ∅).
Proof.
  intros Hinterp Hproto. unfold is_abstract.
  assert (Himplicit : _has_implicit_abcmeta h self = true).
  { unfold _has_implicit_abcmeta. rewrite Hinterp. cbn [negb].
    unfold has_protocol_parent in Hproto.
    assert (Hpytd : isinstance_PyTDClass h self = false).
    { unfold isinstance_PyTDClass, isinstance_InterpreterClass in *.
      apply bool_decide_eq_true in Hinterp. rewrite Hinterp.
      by apply bool_decide_eq_false. }
    rewrite Hpytd, Hinterp in Hproto.
    revert Hproto. apply existsb_impl. intros var. apply existsb_impl.
    by intros parent [_ ?]%andb_true_iff. }
  rewrite Himplicit, orb_true_r. done.
Qed.

Lemma indefinite_loop_spec classes :
  indefinite_loop h classes = true
  ↔ ∃ pre d post,
      classes = pre ++ d :: post
      ∧ Forall (λ b, ¬ decisive h b) pre
      ∧ (full_name h d = "typing.Iterable"
         ∨ (full_name h d = "builtins.tuple" ∧ isinstance_PyTDClass h d = true)).
Proof.
  induction classes as [|c classes IH]; cbn [indefinite_loop].
  - split; [done|]. intros (pre & d & post & Heq & _). by destruct pre.
  - assert (Hdec : decisive h c ↔ full_name h c = "builtins.str"
                     ∨ full_name h c = "builtins.tuple"
                     ∨ full_name h c = "typing.Iterable").
    { unfold decisive. rewrite !elem_of_cons, elem_of_nil. tauto. }
    split.
    + intros Hrun. repeat case_bool_decide; try done.
      * exists [], c, classes. split_and!; [done | constructor | right; done].
      * exists [], c, classes. split_and!; [done | constructor | by left].
      * apply IH in Hrun as (pre & d & post & -> & Hpre & Hd).
        exists (c :: pre), d, post. split_and!; [done | | done].
        constructor; [|done]. rewrite Hdec. tauto.
    + intros (pre & d & post & Heq & Hpre & Hd).
      destruct pre as [|b pre]; simplify_eq/=.
      * destruct Hd as [Hd|[Hd Hp]]; rewrite Hd.
        -- rewrite !bool_decide_eq_false_2 by done.
           by rewrite bool_decide_eq_true_2.
        -- rewrite bool_decide_eq_false_2 by done.
           by rewrite bool_decide_eq_true_2.
      * apply Forall_cons in Hpre as [Hb Hpre]. rewrite Hdec in Hb.
        rewrite !bool_decide_eq_false_2 by tauto.
        apply IH. eauto 10.
Qed.

(** X28.  Whether a value is an indefinite iterable is decided by the first class
    in the linearization of its class that is named [builtins.str],
    [builtins.tuple] or [typing.Iterable]: the value is one exactly when it
    is an instance that is not concrete, its class is a class, and that
    first class is [typing.Iterable] or is [builtins.tuple] from the
    stubs.  So a string is none, although [typing.Iterable] comes later in
    its linearization. *)
Theorem is_indefinite_iterable_first_decisive val :
  is_indefinite_iterable h cls isinstance_PythonConstant could_contain_anything
    val = true
  ↔ kind h val = Instance
    ∧ is_concrete isinstance_PythonConstant could_contain_anything val = false
    ∧ ∃ c pre d post,
        cls val = Some c ∧ isinstance_Class h c = true
        ∧ mro h c = pre ++ d :: post
        ∧ Forall (λ b, ¬ decisive h b) pre
        ∧ (full_name h d = "typing.Iterable"
           ∨ (full_name h d = "builtins.tuple"
              ∧ isinstance_PyTDClass h d = true)).
Proof.
  unfold is_indefinite_iterable. split.
  - destruct (cls val) as [c|] eqn:Hcls.
    + destruct (bool_decide_reflect (kind h val = Instance)) as [Hkind|];
        [|done].
      destruct (isinstance_Class h c) eqn:Hclass; [|done].
      destruct (is_concrete _ _ val); [done|]. cbn [andb negb].
      intros (pre & d & post & ? & ? & ?)%indefinite_loop_spec.
      split_and!; [done..|]. exists c, pre, d, post. done.
    + by rewrite andb_false_r.
  - intros (Hkind & Hconc & c & pre & d & post & Hcls & Hclass & Hmro & Hpre & Hd).
    rewrite Hcls, Hclass, Hconc, bool_decide_eq_true_2 by done. cbn [andb negb].
    apply indefinite_loop_spec. eauto 10.
Qed.
End predicates.

Section examples.
Import ExtraExamples.

Example indefinite_iterables :
  is_indefinite_iterable iterable_heap iterable_cls iterable_constant
    (λ _, false) <$> [11; 12; 13; 14]
  = [false; true; true; false].
Proof. vm_compute. reflexivity. Qed.

Lemma protocol_is_abstract_witness :
  is_abstract protocol_heap (λ _, None) (λ _, {["read"]}) 1
  = bool_decide (({["read"]} : gset string) ≠ ∅).
Proof.
  apply (protocol_is_abstract protocol_heap (λ _, None) (λ _, [])
           (λ _, {["read"]}) 1).
  - reflexivity.
  - reflexivity.
Defined.
End examples.
End PredicateExtras.
